(** * The TSPLIB loader of VROOM ([src/loaders/tsplib_loader.h])

    A shallow embedding of the class [tsplib_loader]: the header keys found
    with regular expressions, the data section read through an
    [istringstream], the four EXPLICIT matrix layouts, the distance functions
    of the coordinate types, and [get_route].

    Conventions of the embedding:
    - [std::string] is [string]; a regular expression is a value of [regex]
      run by a backtracking matcher with the ECMAScript priorities (greedy
      quantifiers, leftmost start);
    - [std::size_t] is [N] below [2^64], the subtraction [_dimension - 1]
      wraps as it does in the source;
    - [distance_t] and [index_t] come from [structures/typedefs.h], which is
      not among the sources: their largest values are parameters;
    - [double] is modelled three times. In the section [Distances] it is
      the real numbers [R] with the exact operations: the rounding of the
      machine is not represented there. In the module [Binary64] it is the
      IEEE binary64 number of the processor: [nint], [euc_2D], [ceil_2D]
      and [att] run there, and what depends on the rounding is proved
      there, from the specification of the format. In the module [Machine]
      it is the [double] of any arithmetic, for [geo], whose [std::cos] and
      [std::acos] belong to the C library. A conversion to an integer type
      whose value does not fit is undefined in C++, and is [Undefined] in
      the three;
    - an uninitialised local is [None]; using it is [Undefined]. *)

From Stdlib Require Import Reals Rgeom Lra Lia ZArith NArith String Ascii List.
From Stdlib Require PrimFloat FloatOps SpecFloat FloatAxioms Uint63.
From stdpp Require Import base list.
Import ListNotations.

Local Open Scope string_scope.
Local Open Scope N_scope.

(** ** Outcomes: a value, a C++ exception, or undefined behaviour *)

Inductive exn : Type :=
| custom_exception (msg : string)
| out_of_range (what : string).

Inductive outcome (A : Type) : Type :=
| Ok (a : A)
| Throw (e : exn)
| Undefined.

Arguments Ok {A} a.
Arguments Throw {A} e.
Arguments Undefined {A}.

Definition bind {A B : Type} (c : outcome A) (k : A -> outcome B) : outcome B :=
  match c with
  | Ok a => k a
  | Throw e => Throw e
  | Undefined => Undefined
  end.

Notation "'let*' x := c 'in' k" := (bind c (fun x => k))
  (at level 10, x pattern, c at level 100, k at level 200).

(** [use v]: reading a variable; an uninitialised one is undefined. *)
Definition use {A : Type} (v : option A) : outcome A :=
  match v with
  | Some a => Ok a
  | None => Undefined
  end.

(** ** Strings *)

Definition dquote : ascii := "034"%char.
Definition lf : ascii := "010"%char.

(** The text [s] between double quotes. *)
Definition quoted (s : string) : string :=
  String dquote (s ++ String dquote EmptyString)%string.

(** [std::string::pop_back]. *)
Fixpoint pop_back (s : string) : string :=
  match s with
  | EmptyString => EmptyString
  | String c EmptyString => EmptyString
  | String c s' => String c (pop_back s')
  end.

(** The first [n] characters of [s]. *)
Fixpoint take_prefix (n : nat) (s : string) : string :=
  match n, s with
  | S n', String c s' => String c (take_prefix n' s')
  | _, _ => EmptyString
  end.

(** The text of a file given by its lines, each ended by a line feed. *)
Fixpoint lines (ls : list string) : string :=
  match ls with
  | [] => EmptyString
  | l :: ls' => (l ++ String lf (lines ls'))%string
  end.

(** ** Character classes of the source's regular expressions *)

Definition is_digit (c : ascii) : bool :=
  let n := N_of_ascii c in (48 <=? n) && (n <=? 57).

Definition is_upper (c : ascii) : bool :=
  let n := N_of_ascii c in (65 <=? n) && (n <=? 90).

(** [[:space:]]: space, and the controls from tab to carriage return. *)
Definition is_space (c : ascii) : bool :=
  let n := N_of_ascii c in (n =? 32) || ((9 <=? n) && (n <=? 13)).

(** ** Regular expressions and their backtracking matcher *)

Inductive regex : Type :=
| Eps
| Chr (c : ascii)
| Cls (p : ascii -> bool)
| Cat (r1 r2 : regex)
| Opt (r : regex)
| Star (r : regex).

Definition Plus (r : regex) : regex := Cat r (Star r).

Fixpoint Lit (s : string) : regex :=
  match s with
  | EmptyString => Eps
  | String c s' => Cat (Chr c) (Lit s')
  end.

(** The loop of a quantifier over a body matched by [body]: one more
    iteration is tried first, and an iteration that consumes nothing is
    refused; [fuel] bounds the iterations by the length of the text. *)
Fixpoint star_loop {A : Type}
    (body : string -> (string -> option A) -> option A)
    (k : string -> option A) (fuel : nat) (s : string) : option A :=
  match fuel with
  | O => k s
  | S fuel' =>
      match body s (fun s' => if (String.length s' <? String.length s)%nat
                              then star_loop body k fuel' s' else None) with
      | Some x => Some x
      | None => k s
      end
  end.

(** [rmatch r s k] matches [r] at the start of [s] and hands the rest to the
    continuation [k]; when [k] fails the matcher backtracks into [r]. *)
Fixpoint rmatch {A : Type} (r : regex) (s : string)
    (k : string -> option A) : option A :=
  match r with
  | Eps => k s
  | Chr c =>
      match s with
      | String c' s' => if Ascii.eqb c c' then k s' else None
      | EmptyString => None
      end
  | Cls p =>
      match s with
      | String c' s' => if p c' then k s' else None
      | EmptyString => None
      end
  | Cat r1 r2 => rmatch r1 s (fun s' => rmatch r2 s' k)
  | Opt r1 =>
      match rmatch r1 s k with
      | Some x => Some x
      | None => k s
      end
  | Star r1 => star_loop (rmatch r1) k (String.length s) s
  end.

(** A pattern of the source: what precedes the first capture group, the
    group, and what follows it. *)
Record pattern : Type := {
  before : regex;
  group1 : regex;
  after : regex
}.

(** The match anchored at the start of [s]: the text of the first group. *)
Definition match_here (p : pattern) (s : string) : option string :=
  rmatch (before p) s (fun s1 =>
    rmatch (group1 p) s1 (fun s2 =>
      rmatch (after p) s2 (fun _ =>
        Some (take_prefix (String.length s1 - String.length s2) s1)))).

(** [std::regex_search]: the match at the leftmost position that has one. *)
Fixpoint regex_search (p : pattern) (s : string) : option string :=
  match match_here p s with
  | Some g => Some g
  | None =>
      match s with
      | EmptyString => None
      | String _ s' => regex_search p s'
      end
  end.

Definition spaces : regex := Star (Cls is_space).
Definition digits : regex := Plus (Cls is_digit).
Definition uppers : regex := Plus (Cls is_upper).

(** [DIMENSION[[:space:]]*:[[:space:]]*([0-9]+)[[:space:]]] *)
Definition dim_rgx : pattern :=
  {| before := Cat (Lit "DIMENSION") (Cat spaces (Cat (Chr ":") spaces));
     group1 := digits;
     after := Cls is_space |}.

(** [EDGE_WEIGHT_TYPE[[:space:]]*:[[:space:]]*([A-Z]+(_2D)?)[[:space:]]] *)
Definition ewt_rgx : pattern :=
  {| before := Cat (Lit "EDGE_WEIGHT_TYPE") (Cat spaces (Cat (Chr ":") spaces));
     group1 := Cat uppers (Opt (Lit "_2D"));
     after := Cls is_space |}.

(** [EDGE_WEIGHT_FORMAT[[:space:]]*:[[:space:]]*([A-Z]+(_[A-Z]+){1,2})[[:space:]]] *)
Definition ewf_rgx : pattern :=
  {| before := Cat (Lit "EDGE_WEIGHT_FORMAT") (Cat spaces (Cat (Chr ":") spaces));
     group1 := let part := Cat (Chr "_") uppers in
               Cat uppers (Cat part (Opt part));
     after := Cls is_space |}.

(** [EDGE_WEIGHT_SECTION[[:space:]]*(([0-9]+[[:space:]]+)+)] *)
Definition ews_rgx : pattern :=
  {| before := Cat (Lit "EDGE_WEIGHT_SECTION") spaces;
     group1 := Plus (Cat digits (Plus (Cls is_space)));
     after := Eps |}.

(** [NODE_COORD_SECTION[[:space:]]+(([0-9]+[[:space:]]+(-?[0-9]*([.][0-9]*(e[+][0-9]+)?)?[[:space:]]+){2})+)] *)
Definition ncs_rgx : pattern :=
  {| before := Cat (Lit "NODE_COORD_SECTION") (Plus (Cls is_space));
     group1 :=
       let expo := Cat (Chr "e") (Cat (Chr "+") digits) in
       let frac := Cat (Chr ".") (Cat (Star (Cls is_digit)) (Opt expo)) in
       let coord := Cat (Opt (Chr "-"))
                      (Cat (Star (Cls is_digit))
                         (Cat (Opt frac) (Plus (Cls is_space)))) in
       Plus (Cat digits (Cat (Plus (Cls is_space)) (Cat coord coord)));
     after := Eps |}.

(** ** Integer types *)

(** [std::size_t] and [unsigned long]: 64 bits. *)
Definition SIZE_MAX : N := 2 ^ 64 - 1.

(** Unsigned subtraction and increment on [std::size_t]. *)
Definition size_sub (a b : N) : N := (a + 2 ^ 64 - b) mod 2 ^ 64.
Definition size_succ (a : N) : N := (a + 1) mod 2 ^ 64.

Definition INT_MAX : Z := 2 ^ 31 - 1.
Definition INT_MIN : Z := - 2 ^ 31.

(** The value of a string of decimal digits. *)
Definition digit_value (c : ascii) : N := N_of_ascii c - 48.

Fixpoint decimal_from (acc : N) (s : string) : N :=
  match s with
  | EmptyString => acc
  | String c s' => decimal_from (10 * acc + digit_value c) s'
  end.

Definition decimal (s : string) : N := decimal_from 0 s.

(** [std::stoul] on a string of digits: the value, or [std::out_of_range]. *)
Definition stoul (s : string) : outcome N :=
  let n := decimal s in
  if n <=? SIZE_MAX then Ok n else Throw (out_of_range "stoul").

(** [std::to_string] on an unsigned integer. *)
Definition digit_char (d : N) : ascii := ascii_of_N (48 + d).

Fixpoint to_string_from (fuel : nat) (n : N) (acc : string) : string :=
  match fuel with
  | O => acc
  | S fuel' =>
      let acc' := String (digit_char (n mod 10)) acc in
      if n / 10 =? 0 then acc' else to_string_from fuel' (n / 10) acc'
  end.

Definition to_string (n : N) : string :=
  to_string_from (S (N.to_nat (N.log2 n))) n EmptyString.

(** ** The input stream over the data section *)

(** What is left to read, and whether [failbit] is set. Once the text is
    exhausted every later extraction fails, so [eofbit] needs no field. *)
Record istringstream : Type := {
  rest : string;
  failed : bool
}.

Definition istringstream_new (s : string) : istringstream :=
  {| rest := s; failed := false |}.

Fixpoint skip_spaces (s : string) : string :=
  match s with
  | String c s' => if is_space c then skip_spaces s' else s
  | EmptyString => EmptyString
  end.

(** The leading digits of [s] and what follows them. *)
Fixpoint span_digits (s : string) : string * string :=
  match s with
  | String c s' =>
      if is_digit c
      then let '(d, r) := span_digits s' in (String c d, r)
      else (EmptyString, s)
  | EmptyString => (EmptyString, EmptyString)
  end.

(** [operator>>] into a variable holding [v]: when the stream has failed, or
    only white space is left, the variable is not touched; otherwise [get]
    parses a value at the first character that is not white space, stores
    it, and says whether the stream stays good. *)
Definition extract {V : Type} (get : string -> V * bool * string)
    (data : istringstream) (v : option V) : istringstream * option V :=
  if failed data then (data, v)
  else
    match skip_spaces (rest data) with
    | EmptyString => ({| rest := EmptyString; failed := true |}, v)
    | s =>
        let '(a, good, s') := get s in
        ({| rest := s'; failed := negb good |}, Some a)
    end.

(** [num_get] for an unsigned type of largest value [max], on text without
    a sign (the EDGE_WEIGHT_SECTION regular expression lets only digits and
    white space through, see [edge_weight_section_chars]): without a digit
    the value is 0 and the stream fails; a number above [max] gives [max]
    and the stream fails. *)
Definition get_unsigned (max : N) (s : string) : N * bool * string :=
  let '(d, s') := span_digits s in
  match d with
  | EmptyString => (0, false, s')
  | _ => let n := decimal d in
         if n <=? max then (n, true, s') else (max, false, s')
  end.

(** ** The matrix *)

(** Modelled from the spec: [structures/matrix.h] is not among the sources.
    A matrix is "a dense square array of distances, size N x N, indexed
    [i][j]"; a new one holds zeros, as a [std::vector] built from a size
    does. An index out of range is undefined behaviour. *)
Abbreviation matrix := (list (list N)).

(** Modelled from the spec: the constructor [matrix<T>(n)] of
    [structures/matrix.h], [n] rows of [n] zeros. *)
Definition matrix_new (n : N) : matrix :=
  replicate (N.to_nat n) (replicate (N.to_nat n) 0).

(** Modelled from the spec: reading [m[i][j]] of [structures/matrix.h]. *)
Definition matrix_get (m : matrix) (i j : N) : outcome N :=
  match m !! N.to_nat i with
  | Some row => use (row !! N.to_nat j)
  | None => Undefined
  end.

(** Modelled from the spec: [m[i][j] = v] of [structures/matrix.h]. *)
Definition matrix_set (m : matrix) (i j : N) (v : N) : outcome matrix :=
  match m !! N.to_nat i with
  | Some row =>
      if (N.to_nat j <? length row)%nat
      then Ok (<[N.to_nat i := <[N.to_nat j := v]> row]> m)
      else Undefined
  | None => Undefined
  end.

(** ** Loops *)

(** [iterate n i body s]: [n] rounds of [body], the counter starting at [i]. *)
Fixpoint iterate {St : Type} (n : nat) (i : N) (body : N -> St -> outcome St)
    (s : St) : outcome St :=
  match n with
  | O => Ok s
  | S n' => let* s' := body i s in iterate n' (N.succ i) body s'
  end.

(** [for (std::size_t i = lo; i < hi; ++i) body]. *)
Definition for_loop {St : Type} (lo hi : N) (body : N -> St -> outcome St)
    (s : St) : outcome St :=
  iterate (N.to_nat (hi - lo)) lo body s.

(** ** Distance functions *)

Local Open Scope R_scope.

Record Node : Type := {
  Node_index : N;
  Node_x : R;
  Node_y : R
}.

(** The conversion of a [double] to an integer type drops the fraction. *)
Definition trunc (x : R) : Z :=
  if Rle_dec 0 x then Zfloor x else Zceil x.

(** [(int) x]: undefined when the truncated value is not an [int]. *)
Definition double_to_int (x : R) : outcome Z :=
  let z := trunc x in
  if ((INT_MIN <=? z) && (z <=? INT_MAX))%Z then Ok z else Undefined.

Section Distances.

(** [std::numeric_limits<distance_t>::max()]. *)
Variable distance_max : N.

(** An [int] converted to [distance_t]: modulo [distance_max + 1]. *)
Definition int_to_distance (z : Z) : N :=
  Z.to_N (z mod (Z.of_N distance_max + 1)).

(** A [double] converted to [distance_t]: undefined when the truncated
    value is not a [distance_t]. *)
Definition double_to_distance (x : R) : outcome N :=
  let z := trunc x in
  if ((0 <=? z) && (z <=? Z.of_N distance_max))%Z
  then Ok (Z.to_N z) else Undefined.

Definition distance_to_double (d : N) : R := IZR (Z.of_N d).

Definition nint (x : R) : outcome N :=
  let* z := double_to_int (x + 0.5) in
  Ok (int_to_distance z).

Definition euc_2D (i j : Node) : outcome N :=
  let xd := Node_x i - Node_x j in
  let yd := Node_y i - Node_y j in
  nint (sqrt (xd * xd + yd * yd)).

Definition ceil_2D (i j : Node) : outcome N :=
  let xd := Node_x i - Node_x j in
  let yd := Node_y i - Node_y j in
  double_to_distance (IZR (Zceil (sqrt (xd * xd + yd * yd)))).

Definition att (i j : Node) : outcome N :=
  let xd := Node_x i - Node_x j in
  let yd := Node_y i - Node_y j in
  let r := sqrt ((xd * xd + yd * yd) / 10.0) in
  let* t := nint r in
  if Rlt_dec (distance_to_double t) r
  then Ok ((t + 1) mod (distance_max + 1))%N
  else Ok t.

Definition PI : R := 3.141592.

(** The computation [geo] repeats for each of its four coordinates:
    [int deg = (int) c; double min = c - deg;
     PI * (deg + 5.0 * min / 3.0) / 180.0]. *)
Definition geo_radians (c : R) : outcome R :=
  let* deg := double_to_int c in
  let min := c - IZR deg in
  Ok (PI * (IZR deg + 5.0 * min / 3.0) / 180.0).

Definition geo (i j : Node) : outcome N :=
  let* lat_i := geo_radians (Node_x i) in
  let* lon_i := geo_radians (Node_y i) in
  let* lat_j := geo_radians (Node_x j) in
  let* lon_j := geo_radians (Node_y j) in
  let q1 := cos (lon_i - lon_j) in
  let q2 := cos (lat_i - lat_j) in
  let q3 := cos (lat_i + lat_j) in
  let* d := double_to_int
              (6378.388 * acos (0.5 * ((1.0 + q1) * q2 - (1.0 - q1) * q3)) + 1.0) in
  Ok (int_to_distance d).

End Distances.

Local Close Scope R_scope.

(** ** The loader *)

(** Supported EDGE_WEIGHT_TYPE values. *)
Inductive EWT : Type := EWT_NONE | EXPLICIT | EUC_2D | CEIL_2D | GEO | ATT.

(** Supported EDGE_WEIGHT_FORMAT values. *)
Inductive EWF : Type :=
  EWF_NONE | FULL_MATRIX | UPPER_ROW | UPPER_DIAG_ROW | LOWER_DIAG_ROW.

Definition EWT_eqb (a b : EWT) : bool :=
  match a, b with
  | EWT_NONE, EWT_NONE | EXPLICIT, EXPLICIT | EUC_2D, EUC_2D
  | CEIL_2D, CEIL_2D | GEO, GEO | ATT, ATT => true
  | _, _ => false
  end.

Record tsplib_loader : Type := {
  _dimension : N;
  _ewt : EWT;
  _ewf : EWF;
  _data_section : string;
  _matrix : matrix;
  _nodes : list Node
}.

(** The [if(type == ...)] chain of the constructor. *)
Definition ewt_of_string (type : string) : EWT :=
  let e := EWT_NONE in
  let e := if String.eqb type "EXPLICIT" then EXPLICIT else e in
  let e := if String.eqb type "EUC_2D" then EUC_2D else e in
  let e := if String.eqb type "CEIL_2D" then CEIL_2D else e in
  let e := if String.eqb type "GEO" then GEO else e in
  let e := if String.eqb type "ATT" then ATT else e in
  e.

Definition ewf_of_string (format : string) : EWF :=
  let f := EWF_NONE in
  let f := if String.eqb format "FULL_MATRIX" then FULL_MATRIX else f in
  let f := if String.eqb format "UPPER_ROW" then UPPER_ROW else f in
  let f := if String.eqb format "UPPER_DIAG_ROW" then UPPER_DIAG_ROW else f in
  let f := if String.eqb format "LOWER_DIAG_ROW" then LOWER_DIAG_ROW else f in
  f.

(** 1. Get problem dimension. *)
Definition parse_dimension (input : string) : outcome N :=
  match regex_search dim_rgx input with
  | None => Throw (custom_exception ("incorrect " ++ quoted "DIMENSION" ++ " key."))
  | Some d => stoul d
  end.

(** 2. Get edge weight type. *)
Definition parse_ewt (input : string) : outcome EWT :=
  match regex_search ewt_rgx input with
  | None => Throw (custom_exception ("incorrect " ++ quoted "EDGE_WEIGHT_TYPE" ++ "."))
  | Some type =>
      match ewt_of_string type with
      | EWT_NONE =>
          Throw (custom_exception
                   ("unsupported " ++ quoted "EDGE_WEIGHT_TYPE" ++ " value: "
                      ++ type ++ "."))
      | e => Ok e
      end
  end.

(** 2. Get edge weight format if required. *)
Definition parse_ewf (ewt : EWT) (input : string) : outcome EWF :=
  match ewt with
  | EXPLICIT =>
      match regex_search ewf_rgx input with
      | None => Throw (custom_exception ("incorrect " ++ quoted "EDGE_WEIGHT_FORMAT" ++ "."))
      | Some format =>
          match ewf_of_string format with
          | EWF_NONE =>
              Throw (custom_exception
                       ("unsupported " ++ quoted "EDGE_WEIGHT_FORMAT" ++ " value: "
                          ++ format ++ "."))
          | f => Ok f
          end
      end
  | _ => Ok EWF_NONE
  end.

(** 3. Getting data section. *)
Definition parse_data_section (ewt : EWT) (input : string) : outcome string :=
  match ewt with
  | EXPLICIT =>
      match regex_search ews_rgx input with
      | None => Throw (custom_exception ("incorrect " ++ quoted "EDGE_WEIGHT_SECTION" ++ "."))
      | Some d => Ok d
      end
  | _ =>
      match regex_search ncs_rgx input with
      | None => Throw (custom_exception ("incorrect " ++ quoted "NODE_COORD_SECTION" ++ "."))
      | Some d => Ok d
      end
  end.

(** Zeros on the diagonal for further undirected graph build. *)
Definition zero_diagonal (dim : N) (m : matrix) : outcome matrix :=
  for_loop 0 dim (fun i m => matrix_set m i i 0) m.

Section Loader.

(** [std::numeric_limits<distance_t>::max()], from [typedefs.h]. *)
Variable distance_max : N.

(** [num_get] of the standard library for [index_t] and for [double]: the
    value, whether the stream stays good, and the text left. *)
Variable get_index : string -> N * bool * string.
Variable get_double : string -> R * bool * string.

(** [std::to_string] on a [double]. *)
Variable to_string_double : R -> string.

(** [data >> current_value; m[i][j] = current_value; m[j][i] = current_value;] *)
Definition read_mirrored (i j : N)
    (s : istringstream * option N * matrix)
    : outcome (istringstream * option N * matrix) :=
  let '(data, current_value, m) := s in
  let '(data, current_value) :=
    extract (get_unsigned distance_max) data current_value in
  let* v := use current_value in
  let* m := matrix_set m i j v in
  let* m := matrix_set m j i v in
  Ok (data, current_value, m).

(** [data >> m[i][j];] *)
Definition read_cell (i j : N) (s : istringstream * matrix)
    : outcome (istringstream * matrix) :=
  let '(data, m) := s in
  let* old := matrix_get m i j in
  let '(data, cell) := extract (get_unsigned distance_max) data (Some old) in
  let* v := use cell in
  let* m := matrix_set m i j v in
  Ok (data, m).

Definition fill_full_matrix (dim : N) (data : istringstream) (m : matrix)
    : outcome matrix :=
  let* (_, m) :=
    for_loop 0 dim (fun i s => for_loop 0 dim (fun j s => read_cell i j s) s)
      (data, m) in
  zero_diagonal dim m.

Definition fill_upper_row (dim : N) (data : istringstream) (m : matrix)
    : outcome matrix :=
  let* (_, _, m) :=
    for_loop 0 (size_sub dim 1)
      (fun i s => for_loop (size_succ i) dim (fun j s => read_mirrored i j s) s)
      (data, None, m) in
  zero_diagonal dim m.

Definition fill_upper_diag_row (dim : N) (data : istringstream) (m : matrix)
    : outcome matrix :=
  let* (_, _, m) :=
    for_loop 0 dim
      (fun i s => for_loop i dim (fun j s => read_mirrored i j s) s)
      (data, None, m) in
  zero_diagonal dim m.

Definition fill_lower_diag_row (dim : N) (data : istringstream) (m : matrix)
    : outcome matrix :=
  let* (_, _, m) :=
    for_loop 0 dim
      (fun i s => for_loop 0 (i + 1) (fun j s => read_mirrored i j s) s)
      (data, None, m) in
  zero_diagonal dim m.

(** [data >> index >> x >> y; _nodes.push_back({index, x, y});] with the
    three locals uninitialised. *)
Definition read_node (s : istringstream * list Node)
    : outcome (istringstream * list Node) :=
  let '(data, nodes) := s in
  let '(data, index) := extract get_index data None in
  let '(data, x) := extract get_double data None in
  let '(data, y) := extract get_double data None in
  let* index := use index in
  let* x := use x in
  let* y := use y in
  Ok (data, (nodes ++ [{| Node_index := index; Node_x := x; Node_y := y |}])%list).

(** The distance function the pointer [dist_f_ptr] ends on. *)
Definition dist_f (ewt : EWT) : Node -> Node -> outcome N :=
  match ewt with
  | CEIL_2D => ceil_2D distance_max
  | GEO => geo distance_max
  | ATT => att distance_max
  | _ => euc_2D distance_max
  end.

(** Computing symmetric matrix. *)
Definition fill_from_nodes (ewt : EWT) (dim : N) (nodes : list Node)
    (m : matrix) : outcome matrix :=
  for_loop 0 dim
    (fun i m =>
       let* m := matrix_set m i i 0 in
       for_loop (size_succ i) dim
         (fun j m =>
            let* ni := use (nodes !! N.to_nat i) in
            let* nj := use (nodes !! N.to_nat j) in
            let* current_value := dist_f ewt ni nj in
            let* m := matrix_set m i j current_value in
            matrix_set m j i current_value)
         m)
    m.

(** The constructor [tsplib_loader(std::string input)]. *)
Definition tsplib_loader_new (input : string) : outcome tsplib_loader :=
  let* dim := parse_dimension input in
  let* ewt := parse_ewt input in
  let* ewf := parse_ewf ewt input in
  let* data_section := parse_data_section ewt input in
  let data := istringstream_new data_section in
  let m := matrix_new dim in
  let* (m, nodes) :=
    match ewt with
    | EXPLICIT =>
        let* m :=
          match ewf with
          | FULL_MATRIX => fill_full_matrix dim data m
          | UPPER_ROW => fill_upper_row dim data m
          | UPPER_DIAG_ROW => fill_upper_diag_row dim data m
          | LOWER_DIAG_ROW => fill_lower_diag_row dim data m
          | EWF_NONE => Undefined
          end in
        Ok (m, [])
    | _ =>
        let* (_, nodes) :=
          for_loop 0 dim (fun _ s => read_node s) (data, []) in
        let* m := fill_from_nodes ewt dim nodes m in
        Ok (m, nodes)
    end in
  Ok {| _dimension := dim; _ewt := ewt; _ewf := ewf;
        _data_section := data_section; _matrix := m; _nodes := nodes |}.

Definition get_matrix (ld : tsplib_loader) : matrix := _matrix ld.

(** The [route] part of [get_route]: one [[x,y],] per step. *)
Fixpoint route_steps (nodes : list Node) (tour : list N) (route : string)
    : outcome string :=
  match tour with
  | [] => Ok route
  | step :: tour' =>
      let* n := use (nodes !! N.to_nat step) in
      route_steps nodes tour'
        (route ++ ("[" ++ to_string_double (Node_x n)
                     ++ "," ++ to_string_double (Node_y n) ++ "],"))
  end.

(** [std::numeric_limits<index_t>::max()], from [typedefs.h]. *)
Variable index_max : N.

(** [step + 1]: computed on [int] when every [index_t] is an [int], and
    on [index_t], modulo [index_max + 1], otherwise. *)
Definition rank (step : N) : N :=
  if (Z.of_N index_max <=? INT_MAX)%Z then step + 1
  else (step + 1) mod (index_max + 1).

(** The [tour] part of [get_route]: one [rank,] per step. *)
Fixpoint tour_steps (tour : list N) (result : string) : string :=
  match tour with
  | [] => result
  | step :: tour' => tour_steps tour' (result ++ (to_string (rank step) ++ ","))
  end.

Definition get_route (ld : tsplib_loader) (tour : list N) : outcome string :=
  let result := EmptyString in
  let* result :=
    if negb (EWT_eqb (_ewt ld) EWT_NONE) && negb (EWT_eqb (_ewt ld) EXPLICIT)
    then
      let route := quoted "route" ++ ":[" in
      let* route := route_steps (_nodes ld) tour route in
      let route := pop_back route in
      Ok (result ++ (route ++ "],"))
    else Ok result in
  let result := result ++ (quoted "tour" ++ ":[") in
  let result := tour_steps tour result in
  let result := pop_back result in
  let result := result ++ "]," in
  Ok result.

Definition get_route_geometry (ld : tsplib_loader) (tour : list N) : string :=
  EmptyString.

End Loader.

(** ** The rounding distance functions on IEEE binary64 *)

(** [nint], [euc_2D], [ceil_2D] and [att] on the [double] of the machine,
    for a [distance_t] of 32 bits: the operations round as IEEE 754 says,
    and the functions evaluate. [cos] and [acos] are not operations of
    binary64: [geo] is in the module [Machine]. *)
Module Binary64.

Import PrimFloat FloatOps SpecFloat.
Local Open Scope float_scope.

Record Node : Type := {
  Node_index : N;
  Node_x : float;
  Node_y : float
}.

(** The value [m * 2^e] of a finite number with its fraction dropped; an
    infinity and a NaN have none. *)
Definition trunc (x : float) : option Z :=
  match Prim2SF x with
  | S754_zero _ => Some 0%Z
  | S754_finite s m e =>
      let a := match e with
               | Z0 => Zpos m
               | Zpos p => (Zpos m * 2 ^ Zpos p)%Z
               | Zneg p => (Zpos m / 2 ^ Zpos p)%Z
               end in
      Some (if s then (- a)%Z else a)
  | S754_infinity _ | S754_nan => None
  end.

(** [(int) x]. *)
Definition double_to_int (x : float) : outcome Z :=
  match trunc x with
  | Some z => if ((INT_MIN <=? z) && (z <=? INT_MAX))%Z then Ok z else Undefined
  | None => Undefined
  end.

Definition distance_max : N := 2 ^ 32 - 1.

(** A [distance_t] as a [double]: exact, a distance being below [2^53]. *)
Definition distance_to_double (d : N) : float :=
  of_uint63 (Uint63.of_Z (Z.of_N d)).

Definition nint (x : float) : outcome N :=
  let* z := double_to_int (x + 0.5) in
  Ok (int_to_distance distance_max z).

Definition euc_2D (i j : Node) : outcome N :=
  let xd := Node_x i - Node_x j in
  let yd := Node_y i - Node_y j in
  nint (sqrt (xd * xd + yd * yd)).

Definition att (i j : Node) : outcome N :=
  let xd := Node_x i - Node_x j in
  let yd := Node_y i - Node_y j in
  let r := sqrt ((xd * xd + yd * yd) / 10.0) in
  let* t := nint r in
  if distance_to_double t <? r
  then Ok ((t + 1) mod (distance_max + 1))%N
  else Ok t.

(** The number a finite [double] holds, [m * 2^e]; an infinity and a NaN
    hold none. *)
Definition value (x : float) : option R :=
  match Prim2SF x with
  | S754_zero _ => Some 0%R
  | S754_finite s m e =>
      let a := match e with
               | Zneg p => (IZR (Zpos m) / IZR (2 ^ Zpos p))%R
               | _ => IZR (Zpos m * 2 ^ e)
               end in
      Some (if s then (- a)%R else a)
  | S754_infinity _ | S754_nan => None
  end.

(** [std::ceil]: its result is a [double] without a fraction, given here
    by the integer it holds. *)
Definition ceil (x : float) : option Z :=
  match Prim2SF x with
  | S754_zero _ => Some 0%Z
  | S754_finite s m e =>
      Some match e with
           | Z0 => if s then Zneg m else Zpos m
           | Zpos p => ((if s then Zneg m else Zpos m) * 2 ^ Zpos p)%Z
           | Zneg p =>
               if s then (- (Zpos m / 2 ^ Zpos p))%Z
               else (- (Zneg m / 2 ^ Zpos p))%Z
           end
  | S754_infinity _ | S754_nan => None
  end.

(** [return std::ceil(...)]: the [double] is converted to [distance_t],
    which is undefined when its value is not one. *)
Definition ceil_2D (i j : Node) : outcome N :=
  let xd := Node_x i - Node_x j in
  let yd := Node_y i - Node_y j in
  match ceil (sqrt (xd * xd + yd * yd)) with
  | Some z =>
      if ((0 <=? z) && (z <=? Z.of_N distance_max))%Z then Ok (Z.to_N z)
      else Undefined
  | None => Undefined
  end.

(** The [double] that [euc_2D] and [ceil_2D] round, and the [r] of
    [att]. *)
Definition distance (i j : Node) : float :=
  let xd := Node_x i - Node_x j in
  let yd := Node_y i - Node_y j in
  sqrt (xd * xd + yd * yd).

Definition att_r (i j : Node) : float :=
  let xd := Node_x i - Node_x j in
  let yd := Node_y i - Node_y j in
  sqrt ((xd * xd + yd * yd) / 10.0).

(** An integer as a [double]: exact below [2^53] in size. *)
Definition of_Z (z : Z) : float :=
  match z with
  | Z0 => 0
  | Zpos _ => of_uint63 (Uint63.of_Z z)
  | Zneg p => - of_uint63 (Uint63.of_Z (Zpos p))
  end.

(** The points of the examples. *)
Definition point (x y : float) : Node :=
  {| Node_index := 0; Node_x := x; Node_y := y |}.

(** The largest number below one half. *)
Definition below_half : float := next_down 0.5.

End Binary64.

(** ** Binary64 numbers as the specification of the processor has them *)

(** [Prim2SF] gives a [double] as a sign, a mantissa and an exponent; the
    operations on these are those of [SpecFloat]. What follows names the
    parts of the rounding that the properties speak of. *)

(** One half. *)
Definition half_sf : SpecFloat.spec_float :=
  SpecFloat.S754_finite false 4503599627370496 (-53).

(** [Binary64.trunc] on the parts of a number. *)
Definition SFtrunc (x : SpecFloat.spec_float) : option Z :=
  match x with
  | SpecFloat.S754_zero _ => Some 0%Z
  | SpecFloat.S754_finite s m e =>
      let a := match e with
               | Z0 => Zpos m
               | Zpos p => (Zpos m * 2 ^ Zpos p)%Z
               | Zneg p => (Zpos m / 2 ^ Zpos p)%Z
               end in
      Some (if s then (- a)%Z else a)
  | SpecFloat.S754_infinity _ | SpecFloat.S754_nan => None
  end.

(** [Binary64.value] on the parts of a number. *)
Definition SFvalue (x : SpecFloat.spec_float) : option R :=
  match x with
  | SpecFloat.S754_zero _ => Some 0%R
  | SpecFloat.S754_finite s m e =>
      let a := match e with
               | Zneg p => (IZR (Zpos m) / IZR (2 ^ Zpos p))%R
               | _ => IZR (Zpos m * 2 ^ e)
               end in
      Some (if s then (- a)%R else a)
  | SpecFloat.S754_infinity _ | SpecFloat.S754_nan => None
  end.

(** Where [M / 2^n] lies between its neighbours when the last [n] digits
    of [M] are shifted out: at one of them, below the middle, at the middle
    or above it. *)
Definition shifted_location (M n : Z) : SpecFloat.location :=
  let rem := (M mod 2 ^ n)%Z in
  if (rem =? 0)%Z then SpecFloat.loc_Exact
  else SpecFloat.loc_Inexact (Z.compare rem (2 ^ (n - 1))).


(** ** The GEO distance on the arithmetic of a machine *)

(** [geo] calls [std::cos] and [std::acos], functions of the C library
    that round as the library pleases, and its result is an integer part:
    a rounding error can change it. [geo] is therefore written over an
    [arithmetic], a type of [double] with the operations [geo] uses, each
    of them free in what it returns: what is proved for every arithmetic
    holds on the machine. *)
Module Machine.

Record arithmetic : Type := {
  double : Type;
  (* the number a [double] holds; an infinity and a NaN hold none *)
  value : double -> option R;
  (* the [double] the compiler makes of a decimal constant *)
  constant : R -> double;
  (* an [int] converted to [double] *)
  of_int : Z -> double;
  add : double -> double -> double;
  sub : double -> double -> double;
  mul : double -> double -> double;
  div : double -> double -> double;
  cos : double -> double;
  acos : double -> double
}.

Record Node (A : arithmetic) : Type := {
  Node_index : N;
  Node_x : double A;
  Node_y : double A
}.

Arguments Node_index {A} _.
Arguments Node_x {A} _.
Arguments Node_y {A} _.

Declare Scope machine_scope.
Delimit Scope machine_scope with machine.

Section Geo.

Variable A : arithmetic.

(** [std::numeric_limits<distance_t>::max()]. *)
Variable distance_max : N.

Local Notation "x + y" := (add A x y) : machine_scope.
Local Notation "x - y" := (sub A x y) : machine_scope.
Local Notation "x * y" := (mul A x y) : machine_scope.
Local Notation "x / y" := (div A x y) : machine_scope.
Local Notation "# q" := (constant A q%R) (at level 1, format "# q") : machine_scope.
Local Open Scope machine_scope.

(** [(int) x]: undefined when [x] holds no number, or one whose whole part
    is not an [int]. *)
Definition double_to_int (x : double A) : outcome Z :=
  match value A x with
  | Some r => double_to_int r
  | None => Undefined
  end.

Definition PI : double A := #3.141592.

(** [int deg = (int) c; double min = c - deg;
     PI * (deg + 5.0 * min / 3.0) / 180.0]. *)
Definition geo_radians (c : double A) : outcome (double A) :=
  let* deg := double_to_int c in
  let min := c - of_int A deg in
  Ok (PI * (of_int A deg + #5.0 * min / #3.0) / #180.0).

Definition geo (i j : Node A) : outcome N :=
  let* lat_i := geo_radians (Node_x i) in
  let* lon_i := geo_radians (Node_y i) in
  let* lat_j := geo_radians (Node_x j) in
  let* lon_j := geo_radians (Node_y j) in
  let q1 := cos A (lon_i - lon_j) in
  let q2 := cos A (lat_i - lat_j) in
  let q3 := cos A (lat_i + lat_j) in
  let* d := double_to_int
              (#6378.388 * acos A (#0.5 * ((#1.0 + q1) * q2 - (#1.0 - q1) * q3))
               + #1.0) in
  Ok (int_to_distance distance_max d).

End Geo.

(** The arithmetic of the real numbers: no operation rounds. *)
Definition exact : arithmetic := {|
  double := R;
  value := Some;
  constant := fun q => q;
  of_int := IZR;
  add := Rplus;
  sub := Rminus;
  mul := Rmult;
  div := Rdiv;
  cos := Rtrigo_def.cos;
  acos := Ratan.acos
|}.

(** Binary64, with the reading [k] of the decimal constants by the
    compiler and the functions [c] and [a] of the C library for [std::cos]
    and [std::acos]. *)
Definition binary64 (k : R -> PrimFloat.float)
    (c a : PrimFloat.float -> PrimFloat.float) : arithmetic := {|
  double := PrimFloat.float;
  value := Binary64.value;
  constant := k;
  of_int := Binary64.of_Z;
  add := PrimFloat.add;
  sub := PrimFloat.sub;
  mul := PrimFloat.mul;
  div := PrimFloat.div;
  cos := c;
  acos := a
|}.

End Machine.

(** * The vocabulary of the properties *)

(** ** Matrices *)

(** [square n m]: [n] rows of [n] entries. *)
Definition square (n : N) (m : matrix) : Prop :=
  length m = N.to_nat n /\ Forall (fun row => length row = N.to_nat n) m.

Definition symmetric (n : N) (m : matrix) : Prop :=
  forall i j, i < n -> j < n -> matrix_get m i j = matrix_get m j i.

Definition zero_diag (n : N) (m : matrix) : Prop :=
  forall i, i < n -> matrix_get m i i = Ok 0.

(** ** What the matcher accepts *)

(** [matches r s s']: [r] matches a prefix of [s] and leaves [s']. *)
Inductive matches : regex -> string -> string -> Prop :=
| matches_eps s : matches Eps s s
| matches_chr c s : matches (Chr c) (String c s) s
| matches_cls (p : ascii -> bool) c s :
    p c = true -> matches (Cls p) (String c s) s
| matches_cat r1 r2 s s1 s2 :
    matches r1 s s1 -> matches r2 s1 s2 -> matches (Cat r1 r2) s s2
| matches_opt_some r s s1 : matches r s s1 -> matches (Opt r) s s1
| matches_opt_none r s : matches (Opt r) s s
| matches_star_nil r s : matches (Star r) s s
| matches_star_cons r s s1 s2 :
    matches r s s1 -> matches (Star r) s1 s2 -> matches (Star r) s s2.

(** [occurs p input]: somewhere in [input] the three parts of [p] match one
    after the other. *)
Definition occurs (p : pattern) (input : string) : Prop :=
  exists pre s s1 s2 s3,
    input = (pre ++ s)%string /\
    matches (before p) s s1 /\ matches (group1 p) s1 s2 /\
    matches (after p) s2 s3.

(** Every character of [s] satisfies [P]. *)
Fixpoint string_all (P : ascii -> Prop) (s : string) : Prop :=
  match s with
  | EmptyString => True
  | String c s' => P c /\ string_all P s'
  end.

(** Every character [r] can match satisfies [P]. *)
Fixpoint regex_within (P : ascii -> Prop) (r : regex) : Prop :=
  match r with
  | Eps => True
  | Chr c => P c
  | Cls p => forall c, p c = true -> P c
  | Cat r1 r2 => regex_within P r1 /\ regex_within P r2
  | Opt r1 | Star r1 => regex_within P r1
  end.

(** ** Streams and the UPPER_ROW layout *)

(** [ready data v]: the next extraction leaves the variable initialised. *)
Definition ready (data : istringstream) (v : option N) : Prop :=
  v <> None \/ (failed data = false /\ skip_spaces (rest data) <> EmptyString).

(** The number of values read before row [i]: rows [0] to [i - 1] hold
    [n - 1], [n - 2], ... values. *)
Fixpoint row_start (n i : nat) : nat :=
  match i with
  | O => O
  | S i' => (row_start n i' + (n - 1 - i'))%nat
  end.

(** The place of [m[i][j]], [i < j], among the values in row order. *)
Definition upper_index (n i j : N) : nat :=
  (row_start (N.to_nat n) (N.to_nat i) + (N.to_nat j - N.to_nat i - 1))%nat.

(** [yields dm data vs]: successive extractions from [data] store the
    values [vs], in this order. *)
Fixpoint yields (distance_max : N) (data : istringstream) (vs : list N) : Prop :=
  match vs with
  | [] => True
  | v :: vs' =>
      exists data',
        (forall cv, extract (get_unsigned distance_max) data cv = (data', Some v)) /\
        yields distance_max data' vs'
  end.

(** [m[a][b]] and [m[b][a]] hold the value of their place in [vs], for a
    matrix of dimension [n]. *)
Definition entry (n : N) (vs : list N) (m : matrix) (a b : N) : Prop :=
  exists v, vs !! upper_index n a b = Some v /\
            matrix_get m a b = Ok v /\ matrix_get m b a = Ok v.

(** [m[a][b]] holds the value of its place in [vs], in row-major order,
    for a matrix of dimension [n]. *)
Definition cell (n : N) (vs : list N) (m : matrix) (a b : N) : Prop :=
  exists v, vs !! N.to_nat (a * n + b) = Some v /\ matrix_get m a b = Ok v.

(** ** The route *)

(** The items of [l], each followed by a comma. *)
Fixpoint trailing (l : list string) : string :=
  match l with
  | [] => EmptyString
  | x :: l' => ((x ++ ",") ++ trailing l')%string
  end.

(** An instance given by coordinates: the guard of the [route] key. *)
Definition coordinate_based (ewt : EWT) : bool :=
  match ewt with
  | EWT_NONE | EXPLICIT => false
  | _ => true
  end.

(** The text [[x,y]] of the node at a step. *)
Definition pair_text (to_string_double : R -> string) (nodes : list Node)
    (step : N) : string :=
  match nodes !! N.to_nat step with
  | Some n => "[" ++ to_string_double (Node_x n) ++ ","
                  ++ to_string_double (Node_y n) ++ "]"
  | None => EmptyString
  end.

(** ** Coordinates in degrees and minutes *)

Local Open Scope R_scope.

(** A coordinate [deg.frac] split at the point: its whole degrees, and what
    is left, with the sign of the coordinate. *)
Definition whole_degrees (c : R) : Z :=
  if Rle_dec 0 c then Zfloor c else (- Zfloor (- c))%Z.

(** [pi * (deg + 5 * frac / 3) / 180] radians, with pi cut to 3.141592. *)
Definition degrees_minutes_radians (c : R) : R :=
  let deg := IZR (whole_degrees c) in
  let frac := c - deg in
  3.141592 * (deg + 5 * frac / 3) / 180.

(** A coordinate whose whole part is an [int]. *)
Definition int_coordinate (c : R) : Prop :=
  (INT_MIN <= trunc c <= INT_MAX)%Z.

Local Close Scope R_scope.

(** ** The GEO distance as the specification words it, on an arithmetic *)

Section GeoFormula.

Variable A : Machine.arithmetic.

Local Notation "x + y" := (Machine.add A x y) : machine_scope.
Local Notation "x - y" := (Machine.sub A x y) : machine_scope.
Local Notation "x * y" := (Machine.mul A x y) : machine_scope.
Local Notation "x / y" := (Machine.div A x y) : machine_scope.
Local Notation "# q" := (Machine.constant A q%R) (at level 1, format "# q") : machine_scope.
Local Open Scope machine_scope.




End GeoFormula.

(** ** Header values *)

(** The values [ewt_of_string] and [ewf_of_string] compare with. *)
Definition EWT_names : list string :=
  ["EXPLICIT"; "EUC_2D"; "CEIL_2D"; "GEO"; "ATT"].

Definition EWF_names : list string :=
  ["FULL_MATRIX"; "UPPER_ROW"; "UPPER_DIAG_ROW"; "LOWER_DIAG_ROW"].

Definition EWT_name (e : EWT) : string :=
  match e with
  | EWT_NONE => "NONE"
  | EXPLICIT => "EXPLICIT"
  | EUC_2D => "EUC_2D"
  | CEIL_2D => "CEIL_2D"
  | GEO => "GEO"
  | ATT => "ATT"
  end.

Definition EWF_name (f : EWF) : string :=
  match f with
  | EWF_NONE => "NONE"
  | FULL_MATRIX => "FULL_MATRIX"
  | UPPER_ROW => "UPPER_ROW"
  | UPPER_DIAG_ROW => "UPPER_DIAG_ROW"
  | LOWER_DIAG_ROW => "LOWER_DIAG_ROW"
  end.

(** ** Streams that run out, and the layouts with a diagonal *)

(** The stream has nothing more to give: it has failed, or only white space
    is left. *)
Definition exhausted (data : istringstream) : Prop :=
  failed data = true \/ skip_spaces (rest data) = EmptyString.

(** [yields_all dm data vs]: successive extractions from [data] store the
    values [vs], in this order, and then the stream is exhausted. *)
Fixpoint yields_all (distance_max : N) (data : istringstream) (vs : list N) : Prop :=
  match vs with
  | [] => exhausted data
  | v :: vs' =>
      exists data',
        (forall cv, extract (get_unsigned distance_max) data cv = (data', Some v)) /\
        yields_all distance_max data' vs'
  end.

(** The value of place [p]: the one the section holds there, and [d] where
    the section is too short. *)
Definition value_at (d : N) (vs : list N) (p : nat) : N := default d (vs !! p).

(** The number of values read before row [i] of UPPER_DIAG_ROW: rows [0] to
    [i - 1] hold [n], [n - 1], ... values. *)
Fixpoint diag_row_start (n i : nat) : nat :=
  match i with
  | O => O
  | S i' => (diag_row_start n i' + (n - i'))%nat
  end.

(** The place of [m[i][j]], [i <= j], among the values of UPPER_DIAG_ROW. *)
Definition upper_diag_index (n i j : N) : nat :=
  (diag_row_start (N.to_nat n) (N.to_nat i) + (N.to_nat j - N.to_nat i))%nat.

(** The number of values read before row [i] of LOWER_DIAG_ROW: rows [0] to
    [i - 1] hold 1, 2, ... values. *)
Fixpoint triangular (i : nat) : nat :=
  match i with
  | O => O
  | S i' => (triangular i' + S i')%nat
  end.

(** The place of [m[i][j]], [j <= i], among the values of LOWER_DIAG_ROW. *)
Definition lower_diag_index (i j : N) : nat :=
  (triangular (N.to_nat i) + N.to_nat j)%nat.

(** The layouts that write each value read at [m[i][j]] and at [m[j][i]]. *)
Definition mirrored (ewf : EWF) : bool :=
  match ewf with
  | UPPER_ROW | UPPER_DIAG_ROW | LOWER_DIAG_ROW => true
  | _ => false
  end.

(** The place among the values of a mirrored layout of the pair [a < b]. *)
Definition mirrored_index (ewf : EWF) (n a b : N) : nat :=
  match ewf with
  | UPPER_ROW => upper_index n a b
  | UPPER_DIAG_ROW => upper_diag_index n a b
  | LOWER_DIAG_ROW => lower_diag_index b a
  | _ => O
  end.

(** The number of values a mirrored layout reads for dimension [n]. *)
Definition mirrored_count (ewf : EWF) (n : N) : nat :=
  match ewf with
  | UPPER_ROW => row_start (N.to_nat n) (N.to_nat n)
  | UPPER_DIAG_ROW => diag_row_start (N.to_nat n) (N.to_nat n)
  | LOWER_DIAG_ROW => triangular (N.to_nat n)
  | _ => O
  end.

(** The place of the value read at row [a], column [b], in rows that start
    at [start] and whose columns start at [jlo]. *)
Definition place (start : N -> nat) (jlo : N -> N) (a b : N) : nat :=
  (start a + N.to_nat (b - jlo a))%nat.

(** [m[a][b]] and [m[b][a]] hold the value [val] gives to their place. *)
Definition placed (val : nat -> N) (start : N -> nat) (jlo : N -> N)
    (m : matrix) (a b : N) : Prop :=
  matrix_get m a b = Ok (val (place start jlo a b)) /\
  matrix_get m b a = Ok (val (place start jlo a b)).

(** The value of [m[i][j]], [i <> j], in a matrix read from the values
    [vs]: the value of its place, and where the section is too short zero
    in a FULL_MATRIX and the last value of the section in a mirrored
    layout. *)
Definition entry_value (ewf : EWF) (n : N) (vs : list N) (i j : N) : N :=
  match ewf with
  | FULL_MATRIX => value_at 0 vs (N.to_nat (i * n + j))
  | _ => value_at (default 0 (last vs)) vs
           (mirrored_index ewf n (N.min i j) (N.max i j))
  end.

(** [m[a][b]] and [m[b][a]] hold the distance of the nodes [a] and [b],
    computed in this order. *)
Definition distance_entry (distance_max : N) (ewt : EWT) (nodes : list Node)
    (m : matrix) (a b : N) : Prop :=
  exists na nb v,
    nodes !! N.to_nat a = Some na /\ nodes !! N.to_nat b = Some nb /\
    dist_f distance_max ewt na nb = Ok v /\
    matrix_get m a b = Ok v /\ matrix_get m b a = Ok v.

(** ** What the matcher takes *)

(** [takes r body tail]: on [body ++ tail] the first way of matching [r]
    that the continuation accepts at [tail] consumes [body]. *)
Definition takes (r : regex) (body tail : string) : Prop :=
  forall (A : Type) (k : string -> option A) (x : A),
    k tail = Some x -> rmatch r (body ++ tail) k = Some x.

(** [r] matches nothing at the start of [s]. *)
Definition fails (r : regex) (s : string) : Prop :=
  forall (A : Type) (k : string -> option A), rmatch r s k = None.

(** The first character of [s], if there is one, does not satisfy [p]. *)
Definition stops (p : ascii -> bool) (s : string) : Prop :=
  match s with
  | EmptyString => True
  | String c _ => p c = false
  end.

(** [key] and [u] differ at a place both have. *)
Fixpoint mismatch (key u : string) : bool :=
  match key, u with
  | String a key', String b u' => if Ascii.eqb a b then mismatch key' u' else true
  | _, _ => false
  end.

(** No suffix of [pre] starts like [key]: wherever a match of the keyword
    is tried inside [pre], it meets a character that differs. *)
Fixpoint skippable (key pre : string) : bool :=
  match pre with
  | EmptyString => true
  | String _ pre' => mismatch key pre && skippable key pre'
  end.

(** The items of a list, one after the other. *)
Definition concat_items (items : list string) : string :=
  fold_right append EmptyString items.

(** The items are taken by [r] one after the other, each leaving the next
    ones and [tail]; none is empty. *)
Fixpoint items_taken (r : regex) (items : list string) (tail : string) : Prop :=
  match items with
  | [] => True
  | b :: bs =>
      b <> EmptyString /\ takes r b (concat_items bs ++ tail) /\
      items_taken r bs tail
  end.

(** ** The text of an EXPLICIT instance *)

Definition nl : string := String lf EmptyString.

(** White space that separates two values: at least one character. *)
Definition separator (s : string) : Prop :=
  s <> EmptyString /\ string_all (fun c => is_space c = true) s.

(** A number as the data section writes it: digits, at least one. *)
Definition token (t : string) : Prop :=
  t <> EmptyString /\ string_all (fun c => is_digit c = true) t.

(** The text of a data section: tokens, each followed by its separator. *)
Definition section_text (ts : list (string * string)) : string :=
  concat_items (map (fun w => fst w ++ snd w) ts).

(** The values read from tokens: the number each writes in base ten, up to
    the first that is not a [distance_t], which is read as the largest
    [distance_t] and ends the reading. *)
Fixpoint token_values (distance_max : N) (ts : list string) : list N :=
  match ts with
  | [] => []
  | t :: ts' =>
      if decimal t <=? distance_max
      then decimal t :: token_values distance_max ts'
      else [distance_max]
  end.

(** What may follow the data section: nothing, or a character that is
    neither a digit nor white space. *)
Definition ends_section (tail : string) : Prop :=
  stops is_digit tail /\ stops is_space tail.

(** A TSPLIB file of an EXPLICIT instance whose dimension is written [d],
    in the format [ewf], with the data section [body] followed by
    [tail]. *)
Definition explicit_text (d : string) (ewf : EWF) (body tail : string) : string :=
  "NAME: tsp" ++ nl ++ "TYPE: TSP" ++ nl ++
  "DIMENSION: " ++ d ++ nl ++
  "EDGE_WEIGHT_TYPE: EXPLICIT" ++ nl ++
  "EDGE_WEIGHT_FORMAT: " ++ EWF_name ewf ++ nl ++
  "EDGE_WEIGHT_SECTION" ++ nl ++ body ++ tail.

(** ** The Euclidean distance *)

Local Open Scope R_scope.

(** The distance [euc_2D] rounds and [ceil_2D] rounds up. *)
Definition euclid (i j : Node) : R :=
  let xd := Node_x i - Node_x j in
  let yd := Node_y i - Node_y j in
  sqrt (xd * xd + yd * yd).

Local Close Scope R_scope.

(** ** The branches marked [Should not happen!] *)

(** The constructor comes to [case EWF::NONE] of the switch on the format
    when the four parts of the header are read, the type is EXPLICIT and
    the format is NONE; it comes to the [default] of the switch on the type
    when they are read and the type is none of EXPLICIT, EUC_2D, CEIL_2D,
    GEO and ATT. *)
Definition reaches_should_not_happen (input : string) : Prop :=
  exists (dim : N) (ewt : EWT) (ewf : EWF) (data_section : string),
    parse_dimension input = Ok dim /\
    parse_ewt input = Ok ewt /\
    parse_ewf ewt input = Ok ewf /\
    parse_data_section ewt input = Ok data_section /\
    match ewt with
    | EXPLICIT => ewf = EWF_NONE
    | EUC_2D | CEIL_2D | GEO | ATT => False
    | EWT_NONE => True
    end.

(** A node of the real numbers as a node of their arithmetic. *)
Definition exact_node (n : Node) : Machine.Node Machine.exact :=
  Machine.Build_Node Machine.exact (Node_index n) (Node_x n) (Node_y n).

(** * Instances used as examples *)

(** [distance_t] and [index_t] of 32 bits. *)
Definition UINT32_MAX : N := 2 ^ 32 - 1.

(** A [num_get] for [index_t]: unsigned decimal text. *)
Definition get_index_decimal : string -> N * bool * string :=
  get_unsigned UINT32_MAX.

(** A [num_get] for [double] that reads unsigned integers only, which is
    all the examples below hold. *)
Definition get_double_integral (s : string) : R * bool * string :=
  let '(d, s') := span_digits s in
  match d with
  | EmptyString => (0%R, false, s')
  | _ => (IZR (Z.of_N (decimal d)), true, s')
  end.

Definition load32 : string -> outcome tsplib_loader :=
  tsplib_loader_new UINT32_MAX get_index_decimal get_double_integral.

(** A FULL_MATRIX instance that is not symmetric and has a diagonal. *)
Definition full2_text : string :=
  lines ["NAME: full2"; "TYPE: TSP"; "DIMENSION: 2";
         "EDGE_WEIGHT_TYPE: EXPLICIT"; "EDGE_WEIGHT_FORMAT: FULL_MATRIX";
         "EDGE_WEIGHT_SECTION"; "5 1"; "2 7"; "EOF"].

Definition full2_loaded : tsplib_loader :=
  {| _dimension := 2; _ewt := EXPLICIT; _ewf := FULL_MATRIX;
     _data_section := lines ["5 1"; "2 7"];
     _matrix := [[0; 1]; [2; 0]]; _nodes := [] |}.

(** The UPPER_ROW instance of three cities. *)
Definition upper3_text : string :=
  lines ["NAME: upper3"; "TYPE: TSP"; "DIMENSION: 3";
         "EDGE_WEIGHT_TYPE: EXPLICIT"; "EDGE_WEIGHT_FORMAT: UPPER_ROW";
         "EDGE_WEIGHT_SECTION"; "10 15 20"; "EOF"].

Definition upper3_loaded : tsplib_loader :=
  {| _dimension := 3; _ewt := EXPLICIT; _ewf := UPPER_ROW;
     _data_section := lines ["10 15 20"];
     _matrix := [[0; 10; 15]; [10; 0; 20]; [15; 20; 0]]; _nodes := [] |}.

(** A FULL_MATRIX instance of dimension zero. *)
Definition dim0_text : string :=
  lines ["NAME: none"; "TYPE: TSP"; "DIMENSION: 0";
         "EDGE_WEIGHT_TYPE: EXPLICIT"; "EDGE_WEIGHT_FORMAT: FULL_MATRIX";
         "EDGE_WEIGHT_SECTION"; "0"; "EOF"].

Definition dim0_loaded : tsplib_loader :=
  {| _dimension := 0; _ewt := EXPLICIT; _ewf := FULL_MATRIX;
     _data_section := lines ["0"]; _matrix := []; _nodes := [] |}.

(** FULL_MATRIX instances of dimension 2 whose data section holds three
    numbers, and three numbers around a word. *)
Definition short2_text : string :=
  lines ["NAME: short2"; "TYPE: TSP"; "DIMENSION: 2";
         "EDGE_WEIGHT_TYPE: EXPLICIT"; "EDGE_WEIGHT_FORMAT: FULL_MATRIX";
         "EDGE_WEIGHT_SECTION"; "1 2 3"; "EOF"].

Definition short2_loaded : tsplib_loader :=
  {| _dimension := 2; _ewt := EXPLICIT; _ewf := FULL_MATRIX;
     _data_section := lines ["1 2 3"];
     _matrix := [[0; 2]; [3; 0]]; _nodes := [] |}.

Definition word2_text : string :=
  lines ["NAME: word2"; "TYPE: TSP"; "DIMENSION: 2";
         "EDGE_WEIGHT_TYPE: EXPLICIT"; "EDGE_WEIGHT_FORMAT: FULL_MATRIX";
         "EDGE_WEIGHT_SECTION"; "1 2 x 3"; "EOF"].

Definition word2_loaded : tsplib_loader :=
  {| _dimension := 2; _ewt := EXPLICIT; _ewf := FULL_MATRIX;
     _data_section := "1 2 ";
     _matrix := [[0; 2]; [0; 0]]; _nodes := [] |}.

(** An UPPER_ROW instance of dimension 3 with two numbers. *)
Definition short3_text : string :=
  lines ["NAME: short3"; "TYPE: TSP"; "DIMENSION: 3";
         "EDGE_WEIGHT_TYPE: EXPLICIT"; "EDGE_WEIGHT_FORMAT: UPPER_ROW";
         "EDGE_WEIGHT_SECTION"; "10 15"; "EOF"].

Definition short3_loaded : tsplib_loader :=
  {| _dimension := 3; _ewt := EXPLICIT; _ewf := UPPER_ROW;
     _data_section := lines ["10 15"];
     _matrix := [[0; 10; 15]; [10; 0; 15]; [15; 15; 0]]; _nodes := [] |}.

(** The ATT instance of the two points (0,0) and (1,0). *)
Definition att2_text : string :=
  lines ["NAME: att2"; "TYPE: TSP"; "DIMENSION: 2";
         "EDGE_WEIGHT_TYPE: ATT"; "NODE_COORD_SECTION";
         "1 0 0"; "2 1 0"; "EOF"].

Definition att2_loaded : tsplib_loader :=
  {| _dimension := 2; _ewt := ATT; _ewf := EWF_NONE;
     _data_section := lines ["1 0 0"; "2 1 0"];
     _matrix := [[0; 1]; [1; 0]];
     _nodes := [{| Node_index := 1; Node_x := 0; Node_y := 0 |};
                {| Node_index := 2; Node_x := 1; Node_y := 0 |}] |}.

(** The points (0,0) and (0,90): a quarter of the equator, at distance
    10020. *)
Definition geo_origin : Node := {| Node_index := 1; Node_x := 0; Node_y := 0 |}.
(** Three points on a line, 1.4 apart. *)
Definition line_0 : Node := {| Node_index := 1; Node_x := 0; Node_y := 0 |}.
Definition line_1 : Node := {| Node_index := 2; Node_x := 1.4; Node_y := 0 |}.
Definition line_2 : Node := {| Node_index := 3; Node_x := 2.8; Node_y := 0 |}.

(** An UPPER_DIAG_ROW instance of three cities, with values on the
    diagonal. *)
Definition diag3_text : string :=
  lines ["NAME: diag3"; "TYPE: TSP"; "DIMENSION: 3";
         "EDGE_WEIGHT_TYPE: EXPLICIT"; "EDGE_WEIGHT_FORMAT: UPPER_DIAG_ROW";
         "EDGE_WEIGHT_SECTION"; "7 10 15 8 20 9"; "EOF"].

Definition diag3_loaded : tsplib_loader :=
  {| _dimension := 3; _ewt := EXPLICIT; _ewf := UPPER_DIAG_ROW;
     _data_section := lines ["7 10 15 8 20 9"];
     _matrix := [[0; 10; 15]; [10; 0; 20]; [15; 20; 0]]; _nodes := [] |}.

Definition diag3_section : list (string * string) :=
  [("7", " "); ("10", " "); ("15", " "); ("8", " "); ("20", " "); ("9", nl)].

(** The data sections of [short3_text] and of [short2_text]. *)
Definition short3_section : list (string * string) := [("10", " "); ("15", nl)].
Definition short2_section : list (string * string) :=
  [("1", " "); ("2", " "); ("3", nl)].

(** An UPPER_ROW instance of dimension zero. *)
Definition upper0_text : string :=
  lines ["NAME: none"; "TYPE: TSP"; "DIMENSION: 0";
         "EDGE_WEIGHT_TYPE: EXPLICIT"; "EDGE_WEIGHT_FORMAT: UPPER_ROW";
         "EDGE_WEIGHT_SECTION"; "7"; "EOF"].

(** Headers with a key missing, and with values the loader does not
    know. *)
Definition no_dimension_text : string :=
  lines ["NAME: x"; "EDGE_WEIGHT_TYPE: ATT"].

Definition man_2d_text : string :=
  lines ["NAME: x"; "DIMENSION: 2"; "EDGE_WEIGHT_TYPE: MAN_2D"].

Definition lower_row_text : string :=
  lines ["NAME: x"; "DIMENSION: 2"; "EDGE_WEIGHT_TYPE: EXPLICIT";
         "EDGE_WEIGHT_FORMAT: LOWER_ROW"].

Definition no_section_text : string :=
  lines ["NAME: x"; "DIMENSION: 2"; "EDGE_WEIGHT_TYPE: ATT"].

(** A dimension that is not a [std::size_t]: [2^64]. *)
Definition huge_dimension_text : string :=
  lines ["NAME: x"; "DIMENSION: 18446744073709551616"].

(** The data section of [full2_text], and one whose third number is [2^32],
    with zeros before its first number. *)
Definition full2_section : list (string * string) :=
  [("5", " "); ("1", nl); ("2", " "); ("7", nl)].

Definition wide_section : list (string * string) :=
  [("007", " "); ("1", nl); ("4294967296", " "); ("7", nl)].



(** Points of the examples on binary64. *)
Module Binary64_points.

Import PrimFloat.
Local Open Scope float_scope.

(** Three points of a line whose CEIL_2D distances are 1, 2 and 4 on
    binary64: [- (1 - 2^-53)], [2^-52] and [2 + 2^-51]. *)
Definition ceil_a : Binary64.Node :=
  Binary64.point (-0x1.fffffffffffffp-1) 0.
Definition ceil_b : Binary64.Node := Binary64.point 0x1p-52 0.
Definition ceil_c : Binary64.Node :=
  Binary64.point 0x1.0000000000001p+1 0.

(** Three points of a line whose ATT distances are 1, 4 and 6 on binary64:
    minus the number nearest to the square root of 10, zero, and four times
    that number. *)
Definition att_a : Binary64.Node :=
  Binary64.point (-0x1.94c583ada5b53p+1) 0.
Definition att_b : Binary64.Node := Binary64.point 0 0.
Definition att_c : Binary64.Node :=
  Binary64.point 0x1.94c583ada5b53p+3 0.

(** The origin, a point at the distance 10 from it, and the point at the
    largest distance below one half. *)
Definition origin : Binary64.Node := Binary64.point 0 0.
Definition ten_east : Binary64.Node := Binary64.point 10 0.
Definition near_origin : Binary64.Node := Binary64.point Binary64.below_half 0.

Definition two_and_a_half : float := 2.5.

End Binary64_points.

(** * Properties *)

(** ** The outcome monad *)

Lemma bind_Ok_inv {A B : Type} (c : outcome A) (k : A -> outcome B) (b : B) :
  bind c k = Ok b -> exists a, c = Ok a /\ k a = Ok b.
Proof. destruct c as [a| |]; simpl; intros H; try discriminate. eauto. Qed.

(** ** Loops *)

(** Partial correctness: an invariant kept by every round that returns holds
    when the loop returns. *)
Lemma iterate_invariant {St : Type} (P : N -> St -> Prop)
    (body : N -> St -> outcome St) (n : nat) :
  forall (i : N) (s s' : St),
    P i s ->
    (forall k t t', i <= k < i + N.of_nat n -> P k t -> body k t = Ok t' ->
                    P (N.succ k) t') ->
    iterate n i body s = Ok s' ->
    P (i + N.of_nat n) s'.
Proof.
  induction n as [|n IH]; intros i s s' HP Hstep Hrun; simpl in Hrun.
  - injection Hrun as <-. now replace (i + N.of_nat 0) with i by lia.
  - apply bind_Ok_inv in Hrun as (t & Hb & Hrun).
    replace (i + N.of_nat (S n)) with (N.succ i + N.of_nat n) by lia.
    apply (IH (N.succ i) t s'); [| |exact Hrun].
    + apply (Hstep i s t); [lia|exact HP|exact Hb].
    + intros k u u' Hk. apply Hstep. lia.
Qed.

(** Total correctness: when every round returns and keeps the invariant, the
    loop returns and the invariant holds. *)
Lemma iterate_total {St : Type} (P : N -> St -> Prop)
    (body : N -> St -> outcome St) (n : nat) :
  forall (i : N) (s : St),
    P i s ->
    (forall k t, i <= k < i + N.of_nat n -> P k t ->
                 exists t', body k t = Ok t' /\ P (N.succ k) t') ->
    exists s', iterate n i body s = Ok s' /\ P (i + N.of_nat n) s'.
Proof.
  induction n as [|n IH]; intros i s HP Hstep; simpl.
  - exists s. split; [reflexivity|]. now replace (i + N.of_nat 0) with i by lia.
  - destruct (Hstep i s) as (t & Hb & HP'); [lia|exact HP|].
    rewrite Hb. simpl.
    replace (i + N.of_nat (S n)) with (N.succ i + N.of_nat n) by lia.
    apply IH; [exact HP'|]. intros k u Hk. apply Hstep. lia.
Qed.

Lemma for_loop_invariant {St : Type} (P : N -> St -> Prop)
    (body : N -> St -> outcome St) (lo hi : N) (s s' : St) :
  lo <= hi ->
  P lo s ->
  (forall k t t', lo <= k < hi -> P k t -> body k t = Ok t' -> P (N.succ k) t') ->
  for_loop lo hi body s = Ok s' ->
  P hi s'.
Proof.
  intros Hle HP Hstep Hrun. unfold for_loop in Hrun.
  apply (iterate_invariant P body _ lo s s' HP) in Hrun.
  - now replace (lo + N.of_nat (N.to_nat (hi - lo))) with hi in Hrun by lia.
  - intros k t t' Hk. apply Hstep. lia.
Qed.

(** ** The matrix *)

Lemma matrix_new_square (n : N) : square n (matrix_new n).
Proof.
  unfold square, matrix_new. split.
  - apply length_replicate.
  - apply Forall_forall. intros row Hin. apply elem_of_replicate in Hin as [-> _].
    apply length_replicate.
Qed.

Lemma square_row (n : N) (m : matrix) (i : N) :
  square n m -> i < n -> exists row, m !! N.to_nat i = Some row /\ length row = N.to_nat n.
Proof.
  intros [Hlen Hrows] Hi.
  destruct (lookup_lt_is_Some_2 m (N.to_nat i)) as [row Hrow]; [lia|].
  exists row. split; [exact Hrow|].
  rewrite Forall_lookup in Hrows. exact (Hrows _ _ Hrow).
Qed.

Lemma matrix_get_total (n : N) (m : matrix) (i j : N) :
  square n m -> i < n -> j < n -> exists v, matrix_get m i j = Ok v.
Proof.
  intros Hsq Hi Hj. destruct (square_row n m i Hsq Hi) as (row & Hrow & Hlen).
  unfold matrix_get. rewrite Hrow.
  destruct (lookup_lt_is_Some_2 row (N.to_nat j)) as [v Hv]; [lia|].
  exists v. now rewrite Hv.
Qed.

Lemma matrix_set_total (n : N) (m : matrix) (i j v : N) :
  square n m -> i < n -> j < n -> exists m', matrix_set m i j v = Ok m'.
Proof.
  intros Hsq Hi Hj. destruct (square_row n m i Hsq Hi) as (row & Hrow & Hlen).
  unfold matrix_set. rewrite Hrow.
  destruct (N.to_nat j <? length row)%nat eqn:E; [eauto|].
  apply Nat.ltb_ge in E. lia.
Qed.

Lemma matrix_set_square (n : N) (m m' : matrix) (i j v : N) :
  square n m -> matrix_set m i j v = Ok m' -> square n m'.
Proof.
  intros [Hlen Hrows] Hset. unfold matrix_set in Hset.
  destruct (m !! N.to_nat i) as [row|] eqn:Hrow; [|discriminate].
  destruct (N.to_nat j <? length row)%nat; [|discriminate].
  injection Hset as <-. split.
  - now rewrite length_insert.
  - apply Forall_insert; [exact Hrows|]. cbv beta. rewrite length_insert.
    rewrite Forall_lookup in Hrows. exact (Hrows _ _ Hrow).
Qed.

(** Reading after a write. *)
Lemma matrix_get_set (m m' : matrix) (i j v a b : N) :
  matrix_set m i j v = Ok m' ->
  matrix_get m' a b =
    if (a =? i) && (b =? j) then Ok v else matrix_get m a b.
Proof.
  intros Hset. unfold matrix_set in Hset.
  destruct (m !! N.to_nat i) as [row|] eqn:Hrow; [|discriminate].
  destruct (N.to_nat j <? length row)%nat eqn:Hj; [|discriminate].
  injection Hset as <-. apply Nat.ltb_lt in Hj.
  unfold matrix_get.
  destruct (N.eqb_spec a i) as [->|Hai]; simpl.
  - rewrite list_lookup_insert_eq by (eapply lookup_lt_Some; eassumption).
    destruct (N.eqb_spec b j) as [->|Hbj].
    + now rewrite list_lookup_insert_eq.
    + rewrite list_lookup_insert_ne by lia. now rewrite Hrow.
  - rewrite list_lookup_insert_ne by lia. reflexivity.
Qed.

Lemma matrix_get_set_eq (m m' : matrix) (i j v : N) :
  matrix_set m i j v = Ok m' -> matrix_get m' i j = Ok v.
Proof.
  intros H. rewrite (matrix_get_set _ _ _ _ _ _ _ H). now rewrite !N.eqb_refl.
Qed.

Lemma matrix_get_set_ne (m m' : matrix) (i j v a b : N) :
  matrix_set m i j v = Ok m' -> a <> i \/ b <> j ->
  matrix_get m' a b = matrix_get m a b.
Proof.
  intros H Hne. rewrite (matrix_get_set _ _ _ _ _ _ _ H).
  destruct (N.eqb_spec a i), (N.eqb_spec b j); simpl; try reflexivity.
  destruct Hne; contradiction.
Qed.

(** A property of the state kept by every round is kept by the loop,
    whatever its bounds. *)
Lemma for_loop_preserves {St : Type} (Q : St -> Prop)
    (body : N -> St -> outcome St) (lo hi : N) (s s' : St) :
  Q s ->
  (forall k t t', lo <= k < hi -> Q t -> body k t = Ok t' -> Q t') ->
  for_loop lo hi body s = Ok s' ->
  Q s'.
Proof.
  intros HQ Hstep Hrun. unfold for_loop in Hrun.
  apply (iterate_invariant (fun _ => Q) body _ lo s s' HQ) in Hrun; [exact Hrun|].
  intros k t t' Hk. apply Hstep. lia.
Qed.

(** ** Symmetry and the diagonal *)

Lemma matrix_new_get (n i j : N) :
  i < n -> j < n -> matrix_get (matrix_new n) i j = Ok 0.
Proof.
  intros Hi Hj. unfold matrix_get, matrix_new.
  rewrite lookup_replicate_2 by lia. now rewrite lookup_replicate_2 by lia.
Qed.

Lemma matrix_new_symmetric (n : N) : symmetric n (matrix_new n).
Proof. intros i j Hi Hj. now rewrite !matrix_new_get. Qed.

(** Writing one value at [i][j] and at [j][i] keeps a matrix symmetric. *)
Lemma mirrored_set_symmetric (n : N) (m m1 m2 : matrix) (i j v : N) :
  symmetric n m ->
  matrix_set m i j v = Ok m1 -> matrix_set m1 j i v = Ok m2 ->
  symmetric n m2.
Proof.
  intros Hsym H1 H2 a b Ha Hb.
  rewrite !(matrix_get_set _ _ _ _ _ _ _ H2), !(matrix_get_set _ _ _ _ _ _ _ H1).
  rewrite (Hsym a b Ha Hb).
  destruct (N.eqb_spec a j), (N.eqb_spec b i), (N.eqb_spec a i), (N.eqb_spec b j);
    subst; simpl; reflexivity.
Qed.

Lemma diagonal_set_symmetric (n : N) (m m' : matrix) (i v : N) :
  symmetric n m -> matrix_set m i i v = Ok m' -> symmetric n m'.
Proof.
  intros Hsym H a b Ha Hb.
  rewrite !(matrix_get_set _ _ _ _ _ _ _ H), (Hsym a b Ha Hb).
  destruct (N.eqb_spec a i), (N.eqb_spec b i); subst; simpl; reflexivity.
Qed.

(** What [zero_diagonal] does: zeros on the diagonal, nothing else changed. *)
Lemma zero_diagonal_spec (n : N) (m m' : matrix) :
  zero_diagonal n m = Ok m' ->
  zero_diag n m' /\
  (forall a b, a <> b -> matrix_get m' a b = matrix_get m a b) /\
  (square n m -> square n m') /\
  (symmetric n m -> symmetric n m').
Proof.
  intros Hrun. unfold zero_diagonal in Hrun.
  pose (P := fun (k : N) (t : matrix) =>
    (forall i, i < k -> matrix_get t i i = Ok 0) /\
    (forall a b, a <> b -> matrix_get t a b = matrix_get m a b) /\
    (square n m -> square n t) /\
    (symmetric n m -> symmetric n t)).
  apply (for_loop_invariant P) in Hrun; [exact Hrun|lia| |].
  - unfold P. split; [|split; [|split]]; auto. intros i Hi. lia.
  - intros k t t' Hk (Hd & Ho & Hs & Hy) Hset. unfold P. split; [|split; [|split]].
    + intros i Hi. destruct (N.eq_dec i k) as [->|Hne].
      * exact (matrix_get_set_eq _ _ _ _ _ Hset).
      * rewrite (matrix_get_set_ne _ _ _ _ _ _ _ Hset) by auto. apply Hd. lia.
    + intros a b Hab. rewrite <- (Ho a b Hab).
      apply (matrix_get_set_ne _ _ _ _ _ _ _ Hset).
      destruct (N.eq_dec a k); [right; congruence|left; assumption].
    + intros H. eapply matrix_set_square; [apply Hs, H|exact Hset].
    + intros H. eapply diagonal_set_symmetric; [apply Hy, H|exact Hset].
Qed.

(** Splits a hypothesis [let* x := c in k = Ok b] into its steps. *)
Ltac inv_bind H :=
  let a := fresh "a" in
  let Ha := fresh "Ha" in
  apply bind_Ok_inv in H; destruct H as (a & Ha & H).

(** ** The fill loops *)

Section Fill.

Variable distance_max : N.

Lemma read_mirrored_Ok (i j : N) (data data' : istringstream)
    (cv cv' : option N) (m m' : matrix) :
  read_mirrored distance_max i j (data, cv, m) = Ok (data', cv', m') ->
  exists v m1, matrix_set m i j v = Ok m1 /\ matrix_set m1 j i v = Ok m'.
Proof.
  unfold read_mirrored.
  destruct (extract (get_unsigned distance_max) data cv) as [d c].
  intros H. inv_bind H. inv_bind H. inv_bind H.
  injection H as _ _ <-. eauto.
Qed.

Lemma read_cell_Ok (i j : N) (data data' : istringstream) (m m' : matrix) :
  read_cell distance_max i j (data, m) = Ok (data', m') ->
  exists v, matrix_set m i j v = Ok m'.
Proof.
  unfold read_cell. intros H. inv_bind H.
  destruct (extract (get_unsigned distance_max) data (Some a)) as [d c].
  inv_bind H. inv_bind H. injection H as _ <-. eauto.
Qed.

(** A property of the matrix kept by every mirrored write is kept by rows
    of mirrored reads, whatever the bounds of the two loops. *)
Lemma mirrored_rows_preserve (Q : matrix -> Prop) (lo hi : N) (jlo jhi : N -> N)
    (s s' : istringstream * option N * matrix) :
  (forall m m1 m2 i j v,
      Q m -> matrix_set m i j v = Ok m1 -> matrix_set m1 j i v = Ok m2 -> Q m2) ->
  Q (snd s) ->
  for_loop lo hi
    (fun i s => for_loop (jlo i) (jhi i)
                  (fun j s => read_mirrored distance_max i j s) s) s = Ok s' ->
  Q (snd s').
Proof.
  intros Hset HQ Hrun.
  apply (for_loop_preserves (fun t => Q (snd t))) in Hrun; [exact Hrun|exact HQ|].
  intros i t t' _ Ht Hrow.
  apply (for_loop_preserves (fun t => Q (snd t))) in Hrow; [exact Hrow|exact Ht|].
  intros j [[d c] m] [[d' c'] m'] _ Hm Hread. simpl in *.
  apply read_mirrored_Ok in Hread as (v & m1 & H1 & H2). eauto.
Qed.

Lemma full_rows_preserve (Q : matrix -> Prop) (n : N)
    (s s' : istringstream * matrix) :
  (forall m m1 i j v, Q m -> matrix_set m i j v = Ok m1 -> Q m1) ->
  Q (snd s) ->
  for_loop 0 n
    (fun i s => for_loop 0 n (fun j s => read_cell distance_max i j s) s) s = Ok s' ->
  Q (snd s').
Proof.
  intros Hset HQ Hrun.
  apply (for_loop_preserves (fun t => Q (snd t))) in Hrun; [exact Hrun|exact HQ|].
  intros i t t' _ Ht Hrow.
  apply (for_loop_preserves (fun t => Q (snd t))) in Hrow; [exact Hrow|exact Ht|].
  intros j [d m] [d' m'] _ Hm Hread. simpl in *.
  apply read_cell_Ok in Hread as (v & H1). eauto.
Qed.

Lemma mirrored_set_square (n : N) (m m1 m2 : matrix) (i j v : N) :
  square n m -> matrix_set m i j v = Ok m1 -> matrix_set m1 j i v = Ok m2 ->
  square n m2.
Proof. eauto using matrix_set_square. Qed.

(** The three mirrored layouts: rows of mirrored reads, then the diagonal. *)
Lemma mirrored_fill_spec (n lo hi : N) (jlo jhi : N -> N)
    (data : istringstream) (m m' : matrix) :
  square n m -> symmetric n m ->
  (let* (_, _, m) :=
     for_loop lo hi
       (fun i s => for_loop (jlo i) (jhi i)
                     (fun j s => read_mirrored distance_max i j s) s)
       (data, None, m) in
   zero_diagonal n m) = Ok m' ->
  square n m' /\ symmetric n m' /\ zero_diag n m'.
Proof.
  intros Hsq Hsym Hrun. inv_bind Hrun. destruct a as [[d c] m0].
  pose proof (mirrored_rows_preserve (square n) _ _ _ _ (data, None, m) _
                (mirrored_set_square n) Hsq Ha) as Hsq0.
  pose proof (mirrored_rows_preserve (symmetric n) _ _ _ _ (data, None, m) _
                (mirrored_set_symmetric n) Hsym Ha) as Hsym0.
  simpl in Hsq0, Hsym0.
  apply zero_diagonal_spec in Hrun as (Hd & _ & Hs & Hy). auto.
Qed.

Lemma fill_full_matrix_spec (n : N) (data : istringstream) (m m' : matrix) :
  square n m ->
  fill_full_matrix distance_max n data m = Ok m' ->
  square n m' /\ zero_diag n m'.
Proof.
  intros Hsq Hrun. unfold fill_full_matrix in Hrun. inv_bind Hrun.
  destruct a as [d m0].
  pose proof (full_rows_preserve (square n) _ (data, m) _
                (fun m m1 i j v H => matrix_set_square n m m1 i j v H) Hsq Ha) as Hsq0.
  simpl in Hsq0.
  apply zero_diagonal_spec in Hrun as (Hd & _ & Hs & _). auto.
Qed.

(** The coordinate types. *)
Lemma fill_from_nodes_spec (ewt : EWT) (n : N) (nodes : list Node)
    (m m' : matrix) :
  n <= SIZE_MAX ->
  square n m -> symmetric n m ->
  fill_from_nodes distance_max ewt n nodes m = Ok m' ->
  square n m' /\ symmetric n m' /\ zero_diag n m'.
Proof.
  intros Hn Hsq Hsym Hrun. unfold fill_from_nodes in Hrun.
  pose (P := fun (k : N) (t : matrix) =>
    square n t /\ symmetric n t /\ forall a, a < k -> matrix_get t a a = Ok 0).
  apply (for_loop_invariant P) in Hrun; [|lia| |].
  - destruct Hrun as (H1 & H2 & H3). auto.
  - unfold P. split; [exact Hsq|split; [exact Hsym|]]. intros a Ha. lia.
  - intros i t t' Hi (Hs & Hy & Hd) Hbody. inv_bind Hbody.
    assert (Hsucc : size_succ i = N.succ i).
    { unfold size_succ, SIZE_MAX in *. rewrite N.mod_small; lia. }
    rewrite Hsucc in Hbody.
    pose (R := fun (j : N) (u : matrix) =>
      square n u /\ symmetric n u /\ forall b, b <= i -> matrix_get u b b = Ok 0).
    apply (for_loop_invariant R) in Hbody; [| lia | |].
    + destruct Hbody as (H1 & H2 & H3). unfold P. split; [exact H1|split; [exact H2|]].
      intros b Hb. apply H3. lia.
    + unfold R. split; [|split].
      * eapply matrix_set_square; eassumption.
      * eapply diagonal_set_symmetric; eassumption.
      * intros b Hb. destruct (N.eq_dec b i) as [->|Hne].
        -- exact (matrix_get_set_eq _ _ _ _ _ Ha).
        -- rewrite (matrix_get_set_ne _ _ _ _ _ _ _ Ha) by auto. apply Hd. lia.
    + intros j u u' Hj (Hs' & Hy' & Hd') Hin.
      inv_bind Hin. inv_bind Hin. inv_bind Hin. inv_bind Hin.
      unfold R. split; [|split].
      * eapply mirrored_set_square; eassumption.
      * eapply mirrored_set_symmetric; eassumption.
      * intros b Hb.
        rewrite (matrix_get_set_ne _ _ _ _ _ _ _ Hin) by (left; lia).
        rewrite (matrix_get_set_ne _ _ _ _ _ _ _ Ha3) by (right; lia).
        apply Hd'. exact Hb.
Qed.

End Fill.

(** ** What a loaded instance satisfies *)

Lemma parse_dimension_bound (input : string) (n : N) :
  parse_dimension input = Ok n -> n <= SIZE_MAX.
Proof.
  unfold parse_dimension, stoul.
  destruct (regex_search dim_rgx input) as [d|]; [|discriminate].
  destruct (N.leb_spec (decimal d) SIZE_MAX) as [Hle|Hgt]; [|discriminate].
  intros H. injection H as <-. exact Hle.
Qed.

Section Loaded.

Variable distance_max : N.
Variable get_index : string -> N * bool * string.
Variable get_double : string -> R * bool * string.

Abbreviation load := (tsplib_loader_new distance_max get_index get_double).

(** Every instance the constructor returns has a square matrix of its
    dimension with a zero diagonal, symmetric unless it was read as a
    FULL_MATRIX. *)
Lemma loaded_matrix (input : string) (ld : tsplib_loader) :
  load input = Ok ld ->
  square (_dimension ld) (_matrix ld) /\
  zero_diag (_dimension ld) (_matrix ld) /\
  (_ewf ld <> FULL_MATRIX -> symmetric (_dimension ld) (_matrix ld)).
Proof.
  intros H. unfold tsplib_loader_new in H.
  inv_bind H. rename a into n, Ha into Hn.
  inv_bind H. rename a into ewt, Ha into Hewt.
  inv_bind H. rename a into ewf, Ha into Hewf.
  inv_bind H. rename a into ds, Ha into Hds.
  inv_bind H. rename Ha into Hfill. destruct a as [m nodes].
  injection H as <-. simpl.
  pose proof (parse_dimension_bound _ _ Hn) as Hbound.
  pose proof (matrix_new_square n) as Hsq.
  pose proof (matrix_new_symmetric n) as Hsym.
  assert (Hcoord :
    (let* (_, nodes) :=
       for_loop 0 n (fun _ s => read_node get_index get_double s)
         (istringstream_new ds, []) in
     let* m := fill_from_nodes distance_max ewt n nodes (matrix_new n) in
     Ok (m, nodes)) = Ok (m, nodes) ->
    square n m /\ zero_diag n m /\ (ewf <> FULL_MATRIX -> symmetric n m)).
  { intros Hc. inv_bind Hc. destruct a as [d nodes']. inv_bind Hc.
    injection Hc as <- <-.
    apply fill_from_nodes_spec in Ha0 as (H1 & H2 & H3); auto. }
  destruct ewt; try (apply Hcoord; exact Hfill).
  clear Hcoord. inv_bind Hfill. injection Hfill as <- <-.
  destruct ewf; try discriminate.
  - apply fill_full_matrix_spec in Ha as (H1 & H2); [|exact Hsq].
    split; [exact H1|split; [exact H2|]]. intros Hne. congruence.
  - apply mirrored_fill_spec in Ha as (H1 & H2 & H3); auto.
  - apply mirrored_fill_spec in Ha as (H1 & H2 & H3); auto.
  - apply mirrored_fill_spec in Ha as (H1 & H2 & H3); auto.
Qed.

End Loaded.

(** The fill that gave the matrix of a loaded EXPLICIT instance; only such
    an instance has a format. *)
Lemma loaded_explicit_fill (distance_max : N)
    (get_index : string -> N * bool * string)
    (get_double : string -> R * bool * string)
    (input : string) (ld : tsplib_loader) :
  tsplib_loader_new distance_max get_index get_double input = Ok ld ->
  _ewf ld <> EWF_NONE ->
  let n := _dimension ld in
  let data := istringstream_new (_data_section ld) in
  match _ewf ld with
  | FULL_MATRIX => fill_full_matrix distance_max n data (matrix_new n)
  | UPPER_ROW => fill_upper_row distance_max n data (matrix_new n)
  | UPPER_DIAG_ROW => fill_upper_diag_row distance_max n data (matrix_new n)
  | LOWER_DIAG_ROW => fill_lower_diag_row distance_max n data (matrix_new n)
  | EWF_NONE => Undefined
  end = Ok (_matrix ld).
Proof.
  intros H Hewf. unfold tsplib_loader_new in H.
  inv_bind H. rename a into n, Ha into Hn.
  inv_bind H. rename a into ewt, Ha into Hewt.
  inv_bind H. rename a into ewf, Ha into Hf.
  inv_bind H. rename a into ds, Ha into Hds.
  inv_bind H. rename Ha into Hfill. destruct a as [m nodes].
  injection H as <-. simpl in *.
  destruct ewt; simpl in Hf; try (injection Hf as <-; contradiction).
  inv_bind Hfill. injection Hfill as <- _.
  destruct ewf; exact Ha.
Qed.

(** ** Dimension zero *)

Lemma parse_ewf_not_none (input : string) (ewf : EWF) :
  parse_ewf EXPLICIT input = Ok ewf -> ewf <> EWF_NONE.
Proof.
  simpl. destruct (regex_search ewf_rgx input) as [format|]; [|discriminate].
  destruct (ewf_of_string format); intros H; try discriminate;
    injection H as <-; discriminate.
Qed.

(** ** What the matcher accepts *)

Lemma matches_length (r : regex) (s s' : string) :
  matches r s s' -> (String.length s' <= String.length s)%nat.
Proof. induction 1; simpl; lia. Qed.

Lemma star_loop_sound {A : Type} (r : regex)
    (body : string -> (string -> option A) -> option A) (k : string -> option A) :
  (forall s k' x, body s k' = Some x ->
                  exists s', matches r s s' /\ k' s' = Some x) ->
  forall fuel s x, star_loop body k fuel s = Some x ->
                   exists s', matches (Star r) s s' /\ k s' = Some x.
Proof.
  intros Hbody. induction fuel as [|fuel IH]; intros s x H; simpl in H.
  - exists s. split; [apply matches_star_nil|exact H].
  - destruct (body s _) as [y|] eqn:E.
    + injection H as ->. apply Hbody in E as (s1 & Hm & Hk).
      destruct (String.length s1 <? String.length s)%nat; [|discriminate].
      apply IH in Hk as (s2 & Hm2 & Hk2).
      exists s2. split; [eapply matches_star_cons; eassumption|exact Hk2].
    + exists s. split; [apply matches_star_nil|exact H].
Qed.

(** The matcher is sound: a result comes from the continuation, called on
    what a match of the expression leaves. *)
Lemma rmatch_sound {A : Type} (r : regex) :
  forall s (k : string -> option A) x,
    rmatch r s k = Some x -> exists s', matches r s s' /\ k s' = Some x.
Proof.
  induction r as [|c|p|r1 IH1 r2 IH2|r1 IH1|r1 IH1]; intros s k x H; simpl in H.
  - exists s. split; [constructor|exact H].
  - destruct s as [|c' s']; [discriminate|].
    destruct (Ascii.eqb_spec c c') as [->|]; [|discriminate].
    exists s'. split; [constructor|exact H].
  - destruct s as [|c' s']; [discriminate|].
    destruct (p c') eqn:E; [|discriminate].
    exists s'. split; [constructor; exact E|exact H].
  - apply IH1 in H as (s1 & Hm1 & H). apply IH2 in H as (s2 & Hm2 & H).
    exists s2. split; [econstructor; eassumption|exact H].
  - destruct (rmatch r1 s k) as [y|] eqn:E.
    + injection H as ->. apply IH1 in E as (s1 & Hm & Hk).
      exists s1. split; [apply matches_opt_some; exact Hm|exact Hk].
    + exists s. split; [apply matches_opt_none|exact H].
  - eapply star_loop_sound; [|exact H]. intros s0 k' y. apply IH1.
Qed.

(** The three parts of a pattern that matched, and the text of its group. *)
Lemma match_here_sound (p : pattern) (s g : string) :
  match_here p s = Some g ->
  exists s1 s2 s3,
    matches (before p) s s1 /\ matches (group1 p) s1 s2 /\
    matches (after p) s2 s3 /\
    g = take_prefix (String.length s1 - String.length s2) s1.
Proof.
  unfold match_here. intros H.
  apply rmatch_sound in H as (s1 & H1 & H).
  apply rmatch_sound in H as (s2 & H2 & H).
  apply rmatch_sound in H as (s3 & H3 & H).
  injection H as <-. exists s1, s2, s3. auto.
Qed.

Lemma regex_search_sound (p : pattern) (s g : string) :
  regex_search p s = Some g ->
  exists s1 s2,
    matches (group1 p) s1 s2 /\
    g = take_prefix (String.length s1 - String.length s2) s1.
Proof.
  induction s as [|c s IH]; simpl; intros H.
  - destruct (match_here p EmptyString) as [g'|] eqn:E; [|discriminate].
    injection H as ->. apply match_here_sound in E as (s1 & s2 & s3 & _ & H2 & _ & Hg).
    eauto.
  - destruct (match_here p (String c s)) as [g'|] eqn:E.
    + injection H as ->.
      apply match_here_sound in E as (s1 & s2 & s3 & _ & H2 & _ & Hg). eauto.
    + apply IH, H.
Qed.

Lemma digit_not_space (c : ascii) : is_digit c = true -> is_space c = false.
Proof.
  unfold is_digit, is_space. generalize (N_of_ascii c). intros n H.
  apply andb_prop in H as [H1 H2].
  apply N.leb_le in H1. apply N.leb_le in H2.
  apply orb_false_intro.
  - apply N.eqb_neq. lia.
  - apply andb_false_intro2. apply N.leb_gt. lia.
Qed.

Lemma matches_cat_inv (r1 r2 : regex) (s s2 : string) :
  matches (Cat r1 r2) s s2 -> exists s1, matches r1 s s1 /\ matches r2 s1 s2.
Proof. inversion 1; subst; eauto. Qed.

Lemma matches_cls_inv (p : ascii -> bool) (s s' : string) :
  matches (Cls p) s s' -> exists c, s = String c s' /\ p c = true.
Proof. inversion 1; subst; eauto. Qed.

(** The data section of an EXPLICIT instance starts with a digit. *)
Lemma edge_weight_section_digit (input ds : string) :
  regex_search ews_rgx input = Some ds ->
  exists c ds', ds = String c ds' /\ is_digit c = true.
Proof.
  intros H. apply regex_search_sound in H as (s1 & s2 & Hm & ->).
  simpl in Hm. unfold Plus, digits in Hm.
  apply matches_cat_inv in Hm as (t1 & Hrow & Hmore).
  apply matches_cat_inv in Hrow as (t2 & Hdig & Hsp).
  apply matches_cat_inv in Hdig as (t3 & Hc & Hcs).
  apply matches_cls_inv in Hc as (c & -> & Hd).
  apply matches_length in Hmore, Hsp, Hcs.
  exists c. simpl.
  destruct (String.length t3 - String.length s2)%nat eqn:E.
  - replace (S (String.length t3) - String.length s2)%nat with 1%nat by lia.
    simpl. eauto.
  - replace (S (String.length t3) - String.length s2)%nat with (S (S n)) by lia.
    simpl. eauto.
Qed.

Lemma string_all_app (P : ascii -> Prop) (a b : string) :
  string_all P a -> string_all P b -> string_all P (a ++ b).
Proof. induction a as [|c a IH]; simpl; [auto|]. intros [Hc Ha] Hb. auto. Qed.

(** What a match consumes is made of characters of the expression. *)
Lemma matches_within (P : ascii -> Prop) (r : regex) (s s' : string) :
  regex_within P r -> matches r s s' ->
  exists p, s = (p ++ s')%string /\ string_all P p.
Proof.
  intros Hr Hm. induction Hm as
    [s|c s|q c s Hq|r1 r2 s s1 s2 _ IH1 _ IH2|r s s1 _ IH|r s|r s
    |r s s1 s2 _ IH1 _ IH2]; simpl in Hr.
  - exists EmptyString. split; [reflexivity|exact I].
  - exists (String c EmptyString). simpl. auto.
  - exists (String c EmptyString). simpl. auto.
  - destruct Hr as [Hr1 Hr2].
    destruct (IH1 Hr1) as (p1 & -> & H1), (IH2 Hr2) as (p2 & -> & H2).
    exists (p1 ++ p2)%string. split; [|apply string_all_app; assumption].
    clear. induction p1 as [|c p1 IH]; simpl; [reflexivity|now rewrite IH].
  - exact (IH Hr).
  - exists EmptyString. split; [reflexivity|exact I].
  - exists EmptyString. split; [reflexivity|exact I].
  - destruct (IH1 Hr) as (p1 & -> & H1), (IH2 Hr) as (p2 & -> & H2).
    exists (p1 ++ p2)%string. split; [|apply string_all_app; assumption].
    clear. induction p1 as [|c p1 IH]; simpl; [reflexivity|now rewrite IH].
Qed.

Lemma take_prefix_app (p s : string) :
  take_prefix (String.length (p ++ s) - String.length s) (p ++ s) = p.
Proof.
  induction p as [|c p IH]; simpl.
  - rewrite Nat.sub_diag. destruct s; reflexivity.
  - assert (Hlen : (String.length s <= String.length (p ++ s))%nat).
    { clear. induction p as [|c p IH]; simpl; lia. }
    rewrite Nat.sub_succ_l by exact Hlen. simpl. now rewrite IH.
Qed.

(** A match that consumes nothing leaves the text as it is. *)
Lemma matches_same_length (r : regex) (s s' : string) :
  matches r s s' -> String.length s' = String.length s -> s' = s.
Proof.
  intros Hm Hlen.
  destruct (matches_within (fun _ => True) r s s') as (p & -> & _);
    [clear; induction r; simpl; auto|exact Hm|].
  destruct p as [|c p]; [reflexivity|]. exfalso. simpl in Hlen.
  assert (String.length s' <= String.length (p ++ s'))%nat
    by (clear; induction p; simpl; lia).
  lia.
Qed.

Lemma star_loop_complete {A : Type} (r : regex)
    (body : string -> (string -> option A) -> option A) (k : string -> option A) :
  (forall s s' k', matches r s s' -> body s k' = None -> k' s' = None) ->
  forall s s', matches (Star r) s s' ->
  forall fuel, (String.length s <= fuel)%nat ->
               star_loop body k fuel s = None -> k s' = None.
Proof.
  intros Hbody s s' Hm. remember (Star r) as R eqn:HR.
  induction Hm as [| | | | | |r0 s|r0 s s1 s2 Hm1 _ Hm2 IH2];
    try discriminate; injection HR as ->; intros fuel Hfuel H.
  - destruct fuel as [|fuel]; simpl in H; [exact H|].
    destruct (body s _); [discriminate|exact H].
  - specialize (IH2 eq_refl).
    pose proof (matches_length _ _ _ Hm1) as Hle.
    destruct (Nat.eq_dec (String.length s1) (String.length s)) as [Heq|Hne].
    + rewrite (matches_same_length _ _ _ Hm1 Heq) in IH2.
      exact (IH2 fuel Hfuel H).
    + destruct fuel as [|fuel]; [lia|]. simpl in H.
      destruct (body s _) as [x|] eqn:E; [discriminate|].
      apply (Hbody _ _ _ Hm1) in E. cbv beta in E.
      replace (String.length s1 <? String.length s)%nat with true in E
        by (symmetry; apply Nat.ltb_lt; lia).
      apply (IH2 fuel); [lia|exact E].
Qed.

(** The matcher is complete: when it fails, the continuation fails on what
    every match of the expression leaves. *)
Lemma rmatch_complete {A : Type} (r : regex) :
  forall s s' (k : string -> option A),
    matches r s s' -> rmatch r s k = None -> k s' = None.
Proof.
  induction r as [|c|p|r1 IH1 r2 IH2|r1 IH1|r1 IH1]; intros s s' k Hm H.
  - inversion Hm; subst. exact H.
  - inversion Hm; subst. simpl in H. now rewrite Ascii.eqb_refl in H.
  - inversion Hm as [| |? ? ? Hp| | | | |]; subst. simpl in H. now rewrite Hp in H.
  - apply matches_cat_inv in Hm as (s1 & H1 & H2). simpl in H.
    apply (IH2 _ _ _ H2). exact (IH1 _ _ _ H1 H).
  - simpl in H. destruct (rmatch r1 s k) as [x|] eqn:E; [discriminate|].
    inversion Hm; subst; [exact (IH1 _ _ _ H1 E)|exact H].
  - simpl in H.
    exact (star_loop_complete r1 (rmatch r1) k IH1 s s' Hm _ (Nat.le_refl _) H).
Qed.

Lemma match_here_complete (p : pattern) (s s1 s2 s3 : string) :
  matches (before p) s s1 -> matches (group1 p) s1 s2 ->
  matches (after p) s2 s3 ->
  match_here p s <> None.
Proof.
  intros H1 H2 H3 Hnone. unfold match_here in Hnone.
  apply (rmatch_complete _ _ _ _ H1) in Hnone.
  apply (rmatch_complete _ _ _ _ H2) in Hnone.
  apply (rmatch_complete _ _ _ _ H3) in Hnone. discriminate.
Qed.

(** [regex_search] finds a match exactly when the pattern occurs. *)
Lemma regex_search_occurs (p : pattern) (input : string) :
  occurs p input <-> exists g, regex_search p input = Some g.
Proof.
  split.
  - intros (pre & s & s1 & s2 & s3 & -> & H1 & H2 & H3).
    induction pre as [|c pre IH].
    + simpl. pose proof (match_here_complete p s s1 s2 s3 H1 H2 H3) as Hh.
      destruct s; simpl; destruct (match_here p _); eauto; contradiction.
    + destruct IH as [g Hg]. simpl.
      destruct (match_here p (String c (pre ++ s))); eauto.
  - intros [g Hg]. induction input as [|c input IH]; simpl in Hg.
    + destruct (match_here p EmptyString) as [g'|] eqn:E; [|discriminate].
      apply match_here_sound in E as (s1 & s2 & s3 & H1 & H2 & H3 & _).
      exists EmptyString, EmptyString, s1, s2, s3. auto.
    + destruct (match_here p (String c input)) as [g'|] eqn:E.
      * apply match_here_sound in E as (s1 & s2 & s3 & H1 & H2 & H3 & _).
        exists EmptyString, (String c input), s1, s2, s3. auto.
      * destruct (IH Hg) as (pre & s & s1 & s2 & s3 & -> & H1 & H2 & H3).
        exists (String c pre), s, s1, s2, s3. auto.
Qed.

(** The data section of an EXPLICIT instance holds digits and white space
    only: [get_unsigned] never meets a sign. *)
Lemma edge_weight_section_chars (input ds : string) :
  regex_search ews_rgx input = Some ds ->
  string_all (fun c => is_digit c = true \/ is_space c = true) ds.
Proof.
  intros H. apply regex_search_sound in H as (s1 & s2 & Hm & ->).
  apply (matches_within (fun c => is_digit c = true \/ is_space c = true))
    in Hm as (p & -> & Hp).
  - rewrite take_prefix_app. exact Hp.
  - simpl. repeat split; auto.
Qed.

(** ** The EXPLICIT layouts always complete *)

Lemma for_loop_runs {St : Type} (Q : St -> Prop)
    (body : N -> St -> outcome St) (lo hi : N) (s : St) :
  Q s ->
  (forall k t, lo <= k < hi -> Q t -> exists t', body k t = Ok t' /\ Q t') ->
  exists s', for_loop lo hi body s = Ok s' /\ Q s'.
Proof.
  intros HQ Hstep. unfold for_loop.
  apply (iterate_total (fun _ => Q) body _ lo s HQ).
  intros k t Hk. apply Hstep. lia.
Qed.

Lemma extract_ready (get : string -> N * bool * string)
    (data : istringstream) (v : option N) :
  ready data v ->
  exists data' a, extract get data v = (data', Some a).
Proof.
  intros Hr. unfold extract.
  destruct (failed data) eqn:Hf.
  - destruct Hr as [Hv|[Hg _]]; [|congruence].
    destruct v as [a|]; [eauto|congruence].
  - destruct (skip_spaces (rest data)) as [|c s] eqn:Hs.
    + destruct Hr as [Hv|[_ Hn]]; [|congruence].
      destruct v as [a|]; [eauto|congruence].
    + destruct (get (String c s)) as [[a good] s']. eauto.
Qed.

Lemma zero_diagonal_total (n : N) (m : matrix) :
  square n m -> exists m', zero_diagonal n m = Ok m' /\ square n m'.
Proof.
  intros Hsq. unfold zero_diagonal.
  apply (for_loop_runs (square n)); [exact Hsq|].
  intros k t Hk Ht.
  destruct (matrix_set_total n t k k 0 Ht) as [t' Hset]; [lia|lia|].
  exists t'. split; [exact Hset|]. eapply matrix_set_square; eassumption.
Qed.

Section Completion.

Variable distance_max : N.

Lemma read_mirrored_total (n i j : N) (data : istringstream) (cv : option N)
    (m : matrix) :
  square n m -> i < n -> j < n -> ready data cv ->
  exists data' v m',
    read_mirrored distance_max i j (data, cv, m) = Ok (data', Some v, m') /\
    square n m'.
Proof.
  intros Hsq Hi Hj Hr. unfold read_mirrored.
  destruct (extract_ready (get_unsigned distance_max) data cv Hr) as (d & v & ->).
  simpl.
  destruct (matrix_set_total n m i j v Hsq Hi Hj) as [m1 H1].
  pose proof (matrix_set_square _ _ _ _ _ _ Hsq H1) as Hsq1.
  destruct (matrix_set_total n m1 j i v Hsq1 Hj Hi) as [m2 H2].
  rewrite H1. simpl. rewrite H2. simpl.
  exists d, v, m2. split; [reflexivity|]. eapply matrix_set_square; eassumption.
Qed.

Lemma read_cell_total (n i j : N) (data : istringstream) (m : matrix) :
  square n m -> i < n -> j < n ->
  exists data' m',
    read_cell distance_max i j (data, m) = Ok (data', m') /\ square n m'.
Proof.
  intros Hsq Hi Hj. unfold read_cell.
  destruct (matrix_get_total n m i j Hsq Hi Hj) as [old ->]. simpl.
  destruct (extract_ready (get_unsigned distance_max) data (Some old))
    as (d & v & ->); [left; discriminate|].
  simpl.
  destruct (matrix_set_total n m i j v Hsq Hi Hj) as [m1 H1].
  rewrite H1. simpl. exists d, m1. split; [reflexivity|].
  eapply matrix_set_square; eassumption.
Qed.

(** Rows of mirrored reads whose indices stay below [n] complete, on a
    stream that holds something to read. *)
Lemma mirrored_rows_total (n lo hi : N) (jlo jhi : N -> N)
    (data : istringstream) (cv : option N) (m : matrix) :
  (forall i j, lo <= i < hi -> jlo i <= j < jhi i -> i < n /\ j < n) ->
  square n m -> ready data cv ->
  exists s',
    for_loop lo hi
      (fun i s => for_loop (jlo i) (jhi i)
                    (fun j s => read_mirrored distance_max i j s) s)
      (data, cv, m) = Ok s' /\
    square n (snd s').
Proof.
  intros Hrange Hsq Hr.
  pose (Q := fun s : istringstream * option N * matrix =>
               square n (snd s) /\ ready (fst (fst s)) (snd (fst s))).
  destruct (for_loop_runs Q
              (fun i s => for_loop (jlo i) (jhi i)
                            (fun j s => read_mirrored distance_max i j s) s)
              lo hi (data, cv, m)) as (s' & Hrun & Hs' & _).
  - split; assumption.
  - intros i t Hi Ht. apply (for_loop_runs Q); [exact Ht|].
    intros j [[d c] u] Hj [Hu Hc]. simpl in Hu, Hc.
    destruct (Hrange i j Hi Hj) as [Hin Hjn].
    destruct (read_mirrored_total n i j d c u Hu Hin Hjn Hc)
      as (d' & v & u' & Hread & Hu').
    exists (d', Some v, u'). split; [exact Hread|].
    split; [exact Hu'|left; discriminate].
  - exists s'. split; assumption.
Qed.

Lemma mirrored_fill_total (n lo hi : N) (jlo jhi : N -> N)
    (data : istringstream) (cv : option N) (m : matrix) :
  (forall i j, lo <= i < hi -> jlo i <= j < jhi i -> i < n /\ j < n) ->
  square n m -> ready data cv ->
  exists m',
    (let* (_, _, m) :=
       for_loop lo hi
         (fun i s => for_loop (jlo i) (jhi i)
                       (fun j s => read_mirrored distance_max i j s) s)
         (data, cv, m) in
     zero_diagonal n m) = Ok m' /\ square n m'.
Proof.
  intros Hrange Hsq Hr.
  destruct (mirrored_rows_total n lo hi jlo jhi data cv m Hrange Hsq Hr)
    as ([[d c] m0] & -> & Hsq0).
  simpl. apply zero_diagonal_total. exact Hsq0.
Qed.

Lemma fill_full_matrix_total (n : N) (data : istringstream) (m : matrix) :
  square n m ->
  exists m', fill_full_matrix distance_max n data m = Ok m' /\ square n m'.
Proof.
  intros Hsq. unfold fill_full_matrix.
  pose (Q := fun s : istringstream * matrix => square n (snd s)).
  destruct (for_loop_runs Q
              (fun i s => for_loop 0 n
                            (fun j s => read_cell distance_max i j s) s)
              0 n (data, m)) as ([d m0] & -> & Hsq0).
  - exact Hsq.
  - intros i t Hi Ht. apply (for_loop_runs Q); [exact Ht|].
    intros j [d u] Hj Hu. unfold Q in Hu. simpl in Hu.
    destruct (read_cell_total n i j d u Hu) as (d' & u' & Hread & Hu'); [lia|lia|].
    exists (d', u'). split; [exact Hread|exact Hu'].
  - simpl. apply zero_diagonal_total. exact Hsq0.
Qed.

(** Every EXPLICIT layout completes on a data section that starts with a
    number, whatever else the section holds. *)
Lemma explicit_fill_total (n : N) (ewf : EWF) (ds : string) :
  n <= SIZE_MAX ->
  ewf <> EWF_NONE ->
  skip_spaces ds <> EmptyString ->
  exists m',
    match ewf with
    | FULL_MATRIX => fill_full_matrix distance_max n (istringstream_new ds) (matrix_new n)
    | UPPER_ROW => fill_upper_row distance_max n (istringstream_new ds) (matrix_new n)
    | UPPER_DIAG_ROW => fill_upper_diag_row distance_max n (istringstream_new ds) (matrix_new n)
    | LOWER_DIAG_ROW => fill_lower_diag_row distance_max n (istringstream_new ds) (matrix_new n)
    | EWF_NONE => Undefined
    end = Ok m' /\ square n m'.
Proof.
  intros Hn Hewf Hds.
  pose proof (matrix_new_square n) as Hsq.
  assert (Hr : ready (istringstream_new ds) None) by (right; auto).
  destruct ewf; [contradiction| | | |].
  - apply fill_full_matrix_total, Hsq.
  - apply mirrored_fill_total; [|exact Hsq|exact Hr].
    intros i j Hi Hj. split; [|lia].
    unfold size_sub, SIZE_MAX in *.
    assert (E : (n + 2 ^ 64 - 1) mod 2 ^ 64 = n - 1).
    { replace (n + 2 ^ 64 - 1) with (n - 1 + 1 * 2 ^ 64) by lia.
      rewrite N.Div0.mod_add. apply N.mod_small. lia. }
    lia.
  - apply mirrored_fill_total; [|exact Hsq|exact Hr].
    intros i j Hi Hj. lia.
  - apply mirrored_fill_total; [|exact Hsq|exact Hr].
    intros i j Hi Hj. lia.
Qed.

End Completion.

(** ** Decimal text *)

Lemma decimal_from_acc (s : string) :
  forall a, decimal_from a s = a * 10 ^ N.of_nat (String.length s) + decimal_from 0 s.
Proof.
  induction s as [|c s IH]; intros a.
  - simpl. lia.
  - cbn [decimal_from String.length]. rewrite (IH (10 * a + digit_value c)).
    rewrite (IH (10 * 0 + digit_value c)).
    rewrite Nat2N.inj_succ, N.pow_succ_r'. lia.
Qed.

Lemma digit_value_char (d : N) : d < 10 -> digit_value (digit_char d) = d.
Proof.
  intros Hd. unfold digit_value, digit_char.
  rewrite N_ascii_embedding by lia. lia.
Qed.

Lemma to_string_from_decimal (fuel : nat) :
  forall n acc,
    n < 2 ^ N.of_nat fuel ->
    decimal (to_string_from fuel n acc) =
      n * 10 ^ N.of_nat (String.length acc) + decimal acc.
Proof.
  unfold decimal. induction fuel as [|fuel IH]; intros n acc Hn.
  - simpl in *. assert (n = 0) by lia. subst n. lia.
  - cbn [to_string_from].
    assert (Hdiv : n = 10 * (n / 10) + n mod 10) by (apply N.div_mod; lia).
    assert (Hmod : n mod 10 < 10) by (apply N.mod_lt; lia).
    assert (Hstep : decimal_from 0 (String (digit_char (n mod 10)) acc) =
                    n mod 10 * 10 ^ N.of_nat (String.length acc)
                    + decimal_from 0 acc).
    { cbn [decimal_from]. rewrite decimal_from_acc, digit_value_char by exact Hmod.
      lia. }
    destruct (N.eqb_spec (n / 10) 0) as [Hz|Hnz].
    + rewrite Hstep. rewrite Hz in Hdiv. rewrite Hdiv at 2. lia.
    + rewrite IH.
      * rewrite Hstep. cbn [String.length].
        rewrite Nat2N.inj_succ, N.pow_succ_r'. rewrite Hdiv at 3. lia.
      * rewrite Nat2N.inj_succ, N.pow_succ_r' in Hn.
        apply N.Div0.div_lt_upper_bound. lia.
Qed.

(** [to_string] writes the decimal digits that [decimal] reads. *)
Lemma to_string_decimal (n : N) : decimal (to_string n) = n.
Proof.
  unfold to_string. rewrite to_string_from_decimal.
  - unfold decimal. simpl. lia.
  - rewrite Nat2N.inj_succ, N2Nat.id.
    destruct (N.eq_dec n 0) as [->|Hn]; [reflexivity|].
    apply N.log2_spec. lia.
Qed.

(** ** Strings built with trailing commas *)

Lemma append_assoc (a b c : string) : ((a ++ b) ++ c = a ++ (b ++ c))%string.
Proof. induction a as [|x a IH]; simpl; [reflexivity|now rewrite IH]. Qed.

Lemma append_empty_r (a : string) : (a ++ EmptyString)%string = a.
Proof. induction a as [|x a IH]; simpl; [reflexivity|now rewrite IH]. Qed.

Lemma pop_back_append (a b : string) :
  b <> EmptyString -> pop_back (a ++ b) = (a ++ pop_back b)%string.
Proof.
  intros Hb. induction a as [|x a IH]; simpl; [reflexivity|].
  rewrite IH. destruct (a ++ b)%string eqn:E; [|reflexivity].
  destruct a; simpl in E; [contradiction|discriminate].
Qed.

Lemma pop_back_comma (a : string) : pop_back (a ++ ",") = a.
Proof.
  rewrite pop_back_append by discriminate. simpl. apply append_empty_r.
Qed.

(** Dropping the last character of a list with trailing commas leaves the
    items separated by commas, when there is an item. *)
Lemma pop_back_trailing (l : list string) :
  l <> [] ->
  forall p, pop_back (p ++ trailing l) = (p ++ String.concat "," l)%string.
Proof.
  induction l as [|x l IH]; intros Hl p; [contradiction|].
  destruct l as [|y l].
  - simpl. rewrite append_empty_r, <- append_assoc. apply pop_back_comma.
  - change (trailing (x :: y :: l)) with ((x ++ ",") ++ trailing (y :: l))%string.
    change (String.concat "," (x :: y :: l))
      with (x ++ "," ++ String.concat "," (y :: l))%string.
    rewrite <- append_assoc, IH by discriminate.
    now rewrite !append_assoc.
Qed.

(** ** The route *)

Section Route.

Variable to_string_double : R -> string.
Variable index_max : N.

Lemma tour_steps_trailing (tour : list N) (result : string) :
  tour_steps index_max tour result =
    (result ++ trailing (map (fun step => to_string (rank index_max step)) tour))%string.
Proof.
  revert result. induction tour as [|step tour IH]; intros result; simpl.
  - now rewrite append_empty_r.
  - rewrite IH. now rewrite append_assoc.
Qed.

Lemma route_steps_trailing (nodes : list Node) (tour : list N) (route : string) :
  Forall (fun step => (N.to_nat step < length nodes)%nat) tour ->
  route_steps to_string_double nodes tour route =
    Ok (route ++ trailing (map (pair_text to_string_double nodes) tour))%string.
Proof.
  intros Hin. revert route. induction Hin as [|step tour Hstep Htour IH];
    intros route; simpl.
  - now rewrite append_empty_r.
  - unfold pair_text at 1.
    destruct (lookup_lt_is_Some_2 nodes (N.to_nat step) Hstep) as [n Hn].
    rewrite Hn. simpl. rewrite IH. f_equal.
    repeat (rewrite !append_assoc; simpl). reflexivity.
Qed.

(** [get_route] on a tour with at least one step, all of them nodes of the
    instance when it has coordinates. *)
Lemma get_route_steps (ld : tsplib_loader) (tour : list N) :
  tour <> [] ->
  (coordinate_based (_ewt ld) = true ->
   Forall (fun step => (N.to_nat step < length (_nodes ld))%nat) tour) ->
  get_route to_string_double index_max ld tour =
    Ok ((if coordinate_based (_ewt ld)
         then quoted "route" ++ ":["
                ++ String.concat "," (map (pair_text to_string_double (_nodes ld)) tour) ++ "],"
         else EmptyString)
        ++ quoted "tour" ++ ":["
        ++ String.concat "," (map (fun step => to_string (rank index_max step)) tour)
        ++ "],")%string.
Proof.
  intros Htour Hnodes. unfold get_route.
  assert (Htail : forall prefix : string,
    (pop_back (tour_steps index_max tour (prefix ++ (quoted "tour" ++ ":[")))
       ++ "],")%string =
    (prefix ++ quoted "tour" ++ ":["
       ++ String.concat "," (map (fun step => to_string (rank index_max step)) tour)
       ++ "],")%string).
  { intros prefix. rewrite tour_steps_trailing, pop_back_trailing.
    - now rewrite !append_assoc.
    - destruct tour; [contradiction|discriminate]. }
  destruct (coordinate_based (_ewt ld)) eqn:C.
  - replace (negb (EWT_eqb (_ewt ld) EWT_NONE) && negb (EWT_eqb (_ewt ld) EXPLICIT))
      with true by (destruct (_ewt ld); simpl in *; congruence).
    rewrite (route_steps_trailing _ _ _ (Hnodes eq_refl)). cbn [bind]. cbv zeta.
    rewrite Htail. f_equal.
    rewrite pop_back_trailing by (destruct tour; [contradiction|discriminate]).
    f_equal; rewrite ?append_assoc; reflexivity.
  - replace (negb (EWT_eqb (_ewt ld) EWT_NONE) && negb (EWT_eqb (_ewt ld) EXPLICIT))
      with false by (destruct (_ewt ld); simpl in *; congruence).
    cbn [bind]. cbv zeta. now rewrite Htail.
Qed.

End Route.

(** The constructor never leaves the edge weight type unset, and reads one
    node for each city of an instance with coordinates. *)
Lemma parse_ewt_not_none (input : string) (ewt : EWT) :
  parse_ewt input = Ok ewt -> ewt <> EWT_NONE.
Proof.
  unfold parse_ewt. destruct (regex_search ewt_rgx input) as [type|]; [|discriminate].
  destruct (ewt_of_string type); intros H; try discriminate;
    injection H as <-; discriminate.
Qed.

Lemma read_node_length (get_index : string -> N * bool * string)
    (get_double : string -> R * bool * string)
    (data data' : istringstream) (nodes nodes' : list Node) :
  read_node get_index get_double (data, nodes) = Ok (data', nodes') ->
  length nodes' = S (length nodes).
Proof.
  unfold read_node.
  destruct (extract get_index data None) as [d1 index].
  destruct (extract get_double d1 None) as [d2 x].
  destruct (extract get_double d2 None) as [d3 y].
  intros H. inv_bind H. inv_bind H. inv_bind H. injection H as _ <-.
  rewrite length_app. simpl. lia.
Qed.

Lemma loaded_nodes (distance_max : N) (get_index : string -> N * bool * string)
    (get_double : string -> R * bool * string)
    (input : string) (ld : tsplib_loader) :
  tsplib_loader_new distance_max get_index get_double input = Ok ld ->
  _ewt ld <> EWT_NONE /\
  (_ewt ld <> EXPLICIT -> length (_nodes ld) = N.to_nat (_dimension ld)).
Proof.
  intros H. unfold tsplib_loader_new in H.
  inv_bind H. rename a into n, Ha into Hn.
  inv_bind H. rename a into ewt, Ha into Hewt.
  inv_bind H. rename a into ewf, Ha into Hewf.
  inv_bind H. rename a into ds, Ha into Hds.
  inv_bind H. rename Ha into Hfill. destruct a as [m nodes].
  injection H as <-. simpl.
  split; [exact (parse_ewt_not_none _ _ Hewt)|]. intros Hne.
  assert (Hcoord :
    (let* (_, nodes) :=
       for_loop 0 n (fun _ s => read_node get_index get_double s)
         (istringstream_new ds, []) in
     let* m := fill_from_nodes distance_max ewt n nodes (matrix_new n) in
     Ok (m, nodes)) = Ok (m, nodes) ->
    length nodes = N.to_nat n).
  { intros Hc. inv_bind Hc. destruct a as [d nodes']. inv_bind Hc.
    injection Hc as _ <-.
    apply (for_loop_invariant
             (fun k (t : istringstream * list Node) => length (snd t) = N.to_nat k))
      in Ha; [exact Ha|lia|reflexivity|].
    intros k [d1 l1] [d2 l2] _ Hl Hread. simpl in *.
    apply read_node_length in Hread. lia. }
  destruct ewt; try (apply Hcoord; exact Hfill). contradiction.
Qed.

(** ** Conversions of a [double] *)

Local Open Scope R_scope.

Lemma trunc_nonneg (x : R) : 0 <= x -> trunc x = Zfloor x.
Proof. intros H. unfold trunc. destruct (Rle_dec 0 x); [reflexivity|contradiction]. Qed.

(** On a value that is not negative and below [2^31] the conversion to
    [int] is the floor. *)
Lemma double_to_int_floor (x : R) :
  0 <= x -> x < IZR (INT_MAX + 1) ->
  double_to_int x = Ok (Zfloor x) /\ (0 <= Zfloor x <= INT_MAX)%Z.
Proof.
  intros H0 H1. unfold double_to_int. rewrite (trunc_nonneg x H0).
  assert (Hlo : (0 <= Zfloor x)%Z) by (apply Zfloor_lub; exact H0).
  assert (Hhi : (Zfloor x <= INT_MAX)%Z).
  { apply Z.lt_succ_r. apply lt_IZR. unfold Z.succ.
    destruct (Zfloor_bound x) as [Hb _]. lra. }
  split; [|lia].
  assert (Hmin : (INT_MIN <= Zfloor x)%Z) by (unfold INT_MIN; lia).
  apply Z.leb_le in Hmin, Hhi. rewrite Hmin, Hhi.
  reflexivity.
Qed.

Lemma int_to_distance_small (distance_max : N) (z : Z) :
  (0 <= z <= Z.of_N distance_max)%Z -> int_to_distance distance_max z = Z.to_N z.
Proof. intros H. unfold int_to_distance. rewrite Z.mod_small by lia. reflexivity. Qed.

Local Close Scope R_scope.

(** ** Coordinates in degrees and minutes *)

Local Open Scope R_scope.

Lemma geo_radians_formula (c : R) :
  int_coordinate c -> geo_radians c = Ok (degrees_minutes_radians c).
Proof.
  intros [Hlo Hhi]. unfold geo_radians, double_to_int. cbv zeta.
  apply Z.leb_le in Hlo, Hhi. rewrite Hlo, Hhi.
  cbn [andb bind]. unfold degrees_minutes_radians, PI. cbv zeta.
  change (whole_degrees c) with (trunc c).
  f_equal. lra.
Qed.

Lemma trunc_IZR (z : Z) : trunc (IZR z) = z.
Proof.
  unfold trunc, Zceil. destruct (Rle_dec 0 (IZR z)).
  - apply ZfloorZ.
  - rewrite ZfloorNZ. lia.
Qed.

Lemma int_coordinate_IZR (z : Z) :
  (INT_MIN <= z <= INT_MAX)%Z -> int_coordinate (IZR z).
Proof. intros H. unfold int_coordinate. now rewrite trunc_IZR. Qed.

Local Close Scope R_scope.

(** ** The UPPER_ROW layout *)

Lemma row_start_mono (n i i' : nat) :
  (i <= i')%nat -> (row_start n i <= row_start n i')%nat.
Proof. induction 1; simpl; lia. Qed.

(** The values of a matrix of dimension [n] in UPPER_ROW number
    [n (n - 1) / 2]. *)
Lemma row_start_total (n : nat) : (2 * row_start n n = n * (n - 1))%nat.
Proof.
  assert (H : forall i, (i <= n)%nat ->
                        (2 * row_start n i + i * (i + 1) = 2 * i * n)%nat).
  { induction i as [|i IH]; intros Hi; simpl; [lia|].
    specialize (IH ltac:(lia)). nia. }
  specialize (H n (Nat.le_refl n)). nia.
Qed.

Section UpperRow.

Variable distance_max : N.
Variable n : N.
Variable vs : list N.

Lemma read_mirrored_yields (i j : N) (k : nat) (data data' : istringstream)
    (cv cv' : option N) (m m' : matrix) :
  yields distance_max data (drop k vs) -> (k < length vs)%nat ->
  read_mirrored distance_max i j (data, cv, m) = Ok (data', cv', m') ->
  exists v m1,
    vs !! k = Some v /\ yields distance_max data' (drop (S k) vs) /\
    matrix_set m i j v = Ok m1 /\ matrix_set m1 j i v = Ok m'.
Proof.
  intros Hy Hk Hread.
  destruct (lookup_lt_is_Some_2 vs k Hk) as [v Hv].
  rewrite (drop_S _ _ _ Hv) in Hy. destruct Hy as (d & Hex & Hy).
  unfold read_mirrored in Hread. rewrite Hex in Hread. simpl in Hread.
  inv_bind Hread. inv_bind Hread. injection Hread as <- _ <-.
  exists v, a. auto.
Qed.

Lemma entry_mirrored_set (m m1 m2 : matrix) (i j v a b : N) :
  entry n vs m a b -> a < b -> i < j -> a <> i \/ b <> j ->
  matrix_set m i j v = Ok m1 -> matrix_set m1 j i v = Ok m2 ->
  entry n vs m2 a b.
Proof.
  intros (w & Hw & Hab & Hba) Hlt Hij Hne H1 H2. exists w.
  split; [exact Hw|]. split.
  - rewrite (matrix_get_set_ne _ _ _ _ _ _ _ H2) by lia.
    rewrite (matrix_get_set_ne _ _ _ _ _ _ _ H1) by exact Hne. exact Hab.
  - rewrite (matrix_get_set_ne _ _ _ _ _ _ _ H2) by lia.
    rewrite (matrix_get_set_ne _ _ _ _ _ _ _ H1) by lia. exact Hba.
Qed.

(** After the rows of reads every pair above the diagonal holds the value
    of its place, mirrored. *)
Lemma upper_rows_layout (data : istringstream) (m : matrix)
    (s' : istringstream * option N * matrix) :
  1 <= n -> n <= SIZE_MAX ->
  length vs = row_start (N.to_nat n) (N.to_nat n) ->
  yields distance_max data vs ->
  for_loop 0 (size_sub n 1)
    (fun i s => for_loop (size_succ i) n
                  (fun j s => read_mirrored distance_max i j s) s)
    (data, None, m) = Ok s' ->
  forall a b, a < b -> b < n -> entry n vs (snd s') a b.
Proof.
  intros Hn1 Hn Hlen Hy Hrun.
  assert (Hsub : size_sub n 1 = n - 1).
  { unfold size_sub, SIZE_MAX in *.
    replace (n + 2 ^ 64 - 1) with (n - 1 + 1 * 2 ^ 64) by lia.
    rewrite N.Div0.mod_add. apply N.mod_small. lia. }
  rewrite Hsub in Hrun.
  pose (P := fun (i : N) (s : istringstream * option N * matrix) =>
    yields distance_max (fst (fst s))
      (drop (row_start (N.to_nat n) (N.to_nat i)) vs) /\
    forall a b, a < i -> a < b -> b < n -> entry n vs (snd s) a b).
  apply (for_loop_invariant P) in Hrun; [|lia| |].
  - destruct Hrun as [_ H]. intros a b Hab Hb. apply H; lia.
  - unfold P. simpl. split; [exact Hy|]. intros a b Ha. lia.
  - intros i t t' Hi [Hyi Hrows] Hrow.
    assert (Hsucc : size_succ i = N.succ i).
    { unfold size_succ, SIZE_MAX in *. rewrite N.mod_small; lia. }
    rewrite Hsucc in Hrow.
    pose (Q := fun (j : N) (s : istringstream * option N * matrix) =>
      yields distance_max (fst (fst s))
        (drop (row_start (N.to_nat n) (N.to_nat i)
               + (N.to_nat j - N.to_nat i - 1)) vs) /\
      (forall a b, a < i -> a < b -> b < n -> entry n vs (snd s) a b) /\
      (forall b, i < b -> b < j -> entry n vs (snd s) i b)).
    apply (for_loop_invariant Q) in Hrow; [|lia| |].
    + destruct Hrow as (Hy' & Hrows' & Hrow'). unfold P. split.
      * rewrite N2Nat.inj_succ. simpl.
        replace (N.to_nat n - 1 - N.to_nat i)%nat
          with (N.to_nat n - N.to_nat i - 1)%nat by lia.
        exact Hy'.
      * intros a b Ha Hab Hb. destruct (N.eq_dec a i) as [->|Hne].
        -- apply Hrow'; assumption.
        -- apply Hrows'; [lia|assumption|assumption].
    + unfold Q. split; [|split].
      * replace (N.to_nat (N.succ i) - N.to_nat i - 1)%nat with 0%nat by lia.
        rewrite Nat.add_0_r. exact Hyi.
      * exact Hrows.
      * intros b Hb1 Hb2. lia.
    + intros j [[d c] u] [[d' c'] u'] Hj (Hyj & Hrj & Hcj) Hread. simpl in *.
      pose proof (row_start_mono (N.to_nat n) (S (N.to_nat i)) (N.to_nat n)
                    ltac:(lia)) as Hmono.
      simpl in Hmono.
      apply (read_mirrored_yields i j _ _ _ _ _ _ _ Hyj) in Hread
        as (v & m1 & Hv & Hy' & H1 & H2); [|lia].
      unfold Q. simpl. split; [|split].
      * replace (row_start (N.to_nat n) (N.to_nat i)
                 + (N.to_nat (N.succ j) - N.to_nat i - 1))%nat
          with (S (row_start (N.to_nat n) (N.to_nat i)
                   + (N.to_nat j - N.to_nat i - 1)))%nat by lia.
        exact Hy'.
      * intros a b Ha Hab Hb.
        apply (entry_mirrored_set u m1 u' i j v a b); auto; lia.
      * intros b Hb1 Hb2. destruct (N.eq_dec b j) as [->|Hne].
        -- exists v. split; [exact Hv|]. split.
           ++ rewrite (matrix_get_set_ne _ _ _ _ _ _ _ H2) by lia.
              exact (matrix_get_set_eq _ _ _ _ _ H1).
           ++ exact (matrix_get_set_eq _ _ _ _ _ H2).
        -- apply (entry_mirrored_set u m1 u' i j v i b); auto; try lia.
           apply Hcj; lia.
Qed.

End UpperRow.

(** ** The FULL_MATRIX layout *)

Section FullMatrix.

Variable distance_max : N.
Variable n : N.
Variable vs : list N.




End FullMatrix.


(** Two square matrices with the same entries are equal. *)
Lemma matrix_ext (n : N) (m m' : matrix) :
  square n m -> square n m' ->
  (forall i j, i < n -> j < n -> matrix_get m i j = matrix_get m' i j) ->
  m = m'.
Proof.
  intros [Hlen Hrows] [Hlen' Hrows'] Hget.
  apply (list_eq_same_length _ _ (N.to_nat n)); [exact Hlen'|exact Hlen|].
  intros i row row' Hi Hrow Hrow'.
  rewrite Forall_lookup in Hrows, Hrows'.
  apply (list_eq_same_length _ _ (N.to_nat n));
    [exact (Hrows' _ _ Hrow')|exact (Hrows _ _ Hrow)|].
  intros j x y Hj Hx Hy.
  specialize (Hget (N.of_nat i) (N.of_nat j) ltac:(lia) ltac:(lia)).
  unfold matrix_get in Hget. rewrite !Nat2N.id in Hget.
  rewrite Hrow, Hrow', Hx, Hy in Hget. simpl in Hget. congruence.
Qed.

(** The layout of a loaded UPPER_ROW instance whose data section yields the
    [n (n - 1) / 2] values [vs]: [m[i][j]] and [m[j][i]], [i < j], hold the
    value of place [upper_index n i j], in row order. *)
Lemma fill_upper_row_layout (distance_max n : N) (vs : list N)
    (data : istringstream) (m m' : matrix) :
  n <= SIZE_MAX ->
  length vs = row_start (N.to_nat n) (N.to_nat n) ->
  yields distance_max data vs ->
  fill_upper_row distance_max n data m = Ok m' ->
  forall i j, i < j -> j < n -> entry n vs m' i j.
Proof.
  intros Hn Hlen Hy Hfill i j Hij Hj. unfold fill_upper_row in Hfill.
  inv_bind Hfill. destruct a as [[d c] m0].
  pose proof (upper_rows_layout distance_max n vs data m _ ltac:(lia) Hn Hlen Hy Ha
                i j Hij Hj) as (v & Hv & H1 & H2).
  simpl in H1, H2.
  apply zero_diagonal_spec in Hfill as (_ & Hoff & _).
  exists v. split; [exact Hv|]. rewrite !Hoff by lia. auto.
Qed.

(** Extracting a number that fits [distance_t] from a good stream. *)
Lemma extract_number (distance_max : N) (s s0 d s' : string) (v : N)
    (cv : option N) :
  skip_spaces s = s0 -> s0 <> EmptyString ->
  span_digits s0 = (d, s') -> d <> EmptyString ->
  decimal d = v -> v <= distance_max ->
  extract (get_unsigned distance_max) {| rest := s; failed := false |} cv =
    ({| rest := s'; failed := false |}, Some v).
Proof.
  intros Hs Hs0 Hspan Hd Hv Hle. unfold extract. cbn [failed rest].
  rewrite Hs. destruct s0 as [|c s0]; [contradiction|].
  unfold get_unsigned. rewrite Hspan. destruct d as [|c' d]; [contradiction|].
  rewrite Hv. apply N.leb_le in Hle. rewrite Hle. reflexivity.
Qed.

(** ** The instances *)

Lemma full2_load : load32 full2_text = Ok full2_loaded.
Proof. vm_compute. reflexivity. Qed.

Lemma upper3_load : load32 upper3_text = Ok upper3_loaded.
Proof. vm_compute. reflexivity. Qed.

Lemma upper3_yields (distance_max : N) :
  20 <= distance_max ->
  yields distance_max (istringstream_new (lines ["10 15 20"])) [10; 15; 20].
Proof.
  intros Hmax. unfold istringstream_new.
  eexists. split.
  { intros cv. eapply (extract_number distance_max _ _ _ _ 10);
      [vm_compute; reflexivity|discriminate|vm_compute; reflexivity
      |discriminate|reflexivity|lia]. }
  eexists. split.
  { intros cv. eapply (extract_number distance_max _ _ _ _ 15);
      [vm_compute; reflexivity|discriminate|vm_compute; reflexivity
      |discriminate|reflexivity|lia]. }
  eexists. split.
  { intros cv. eapply (extract_number distance_max _ _ _ _ 20);
      [vm_compute; reflexivity|discriminate|vm_compute; reflexivity
      |discriminate|reflexivity|lia]. }
  exact I.
Qed.

(** The ATT distance of the points (0,0) and (1,0), step by step. *)
Lemma sqrt_tenth_bounds : (0 < sqrt (1 / 10) < 1 / 2)%R.
Proof.
  split.
  - apply sqrt_lt_R0. lra.
  - replace (1 / 2)%R with (sqrt (1 / 2 * (1 / 2))) by (apply sqrt_square; lra).
    apply sqrt_lt_1; lra.
Qed.

Lemma nint_sqrt_tenth (distance_max : N) :
  nint distance_max (sqrt (1 / 10)) = Ok 0.
Proof.
  pose proof sqrt_tenth_bounds as Hr.
  unfold nint, double_to_int. rewrite trunc_nonneg by lra.
  replace (Zfloor (sqrt (1 / 10) + 0.5)) with 0%Z
    by (symmetry; apply Zfloor_eq; lra).
  reflexivity.
Qed.

Lemma att_unit_apart (distance_max : N) (index_i index_j : N) :
  1 <= distance_max ->
  att distance_max {| Node_index := index_i; Node_x := 0; Node_y := 0 |}
                   {| Node_index := index_j; Node_x := 1; Node_y := 0 |} = Ok 1.
Proof.
  intros Hmax. pose proof sqrt_tenth_bounds as Hr. unfold att. simpl.
  replace ((0 - 1) * (0 - 1) + (0 - 0) * (0 - 0))%R with 1%R by lra.
  replace (1 / 10.0)%R with (1 / 10)%R by lra.
  rewrite nint_sqrt_tenth. simpl.
  destruct (Rlt_dec (distance_to_double 0) (sqrt (1 / 10))) as [_|Hn].
  - f_equal. apply N.mod_small. lia.
  - exfalso. apply Hn. unfold distance_to_double. simpl. lra.
Qed.

(** The matrix of two nodes at ATT distance 1. *)
Lemma fill_att_pair (distance_max : N) (i j : Node) :
  att distance_max i j = Ok 1 ->
  fill_from_nodes distance_max ATT 2 [i; j] (matrix_new 2) = Ok [[0; 1]; [1; 0]].
Proof.
  intros Hatt. unfold fill_from_nodes, for_loop. simpl.
  unfold size_succ. simpl. unfold for_loop. simpl. rewrite Hatt. reflexivity.
Qed.

Lemma att2_load : load32 att2_text = Ok att2_loaded.
Proof.
  unfold load32, tsplib_loader_new.
  replace (parse_dimension att2_text) with (Ok (A:=N) 2)
    by (vm_compute; reflexivity).
  replace (parse_ewt att2_text) with (Ok ATT) by (vm_compute; reflexivity).
  cbn [bind parse_ewf].
  replace (parse_data_section ATT att2_text)
    with (Ok (lines ["1 0 0"; "2 1 0"])) by (vm_compute; reflexivity).
  cbn [bind].
  replace (for_loop 0 2
             (fun _ s => read_node get_index_decimal get_double_integral s)
             (istringstream_new (lines ["1 0 0"; "2 1 0"]), []))
    with (Ok ({| rest := String lf EmptyString; failed := false |},
              _nodes att2_loaded))
    by (cbv -[IZR]; reflexivity).
  cbn [bind _nodes att2_loaded].
  rewrite (fill_att_pair UINT32_MAX _ _
             (att_unit_apart UINT32_MAX 1 2 ltac:(vm_compute; discriminate))).
  reflexivity.
Qed.

(** ** The rounding distance functions, run on binary64 *)

Module Binary64_run.

Import PrimFloat.
Local Open Scope float_scope.

(** A half rounds up, where rounding to even would give 0, 2 and 2. *)
Lemma nint_halves :
  Binary64.nint 0.5 = Ok 1%N /\ Binary64.nint 1.5 = Ok 2%N /\
  Binary64.nint 2.5 = Ok 3%N.
Proof. repeat split; vm_compute; reflexivity. Qed.

(** A negative number is truncated towards zero. *)
Lemma nint_minus_one : Binary64.nint (-1) = Ok 0%N.
Proof. vm_compute. reflexivity. Qed.

(** The sum [x + 0.5] is itself rounded: below one half it can be 1. *)
Lemma nint_below_half : Binary64.nint Binary64.below_half = Ok 1%N.
Proof. vm_compute. reflexivity. Qed.

(** The ATT distance of (0,0) and (1,0). *)
Lemma att_unit_apart_binary64 :
  Binary64.att (Binary64.point 0 0) (Binary64.point 1 0) = Ok 1%N.
Proof. vm_compute. reflexivity. Qed.

(** The EUC_2D distances of (0,0), (3,4) and (6,0): 5, 5 and 6. *)
Lemma euc_2D_triangle :
  Binary64.euc_2D (Binary64.point 0 0) (Binary64.point 3 4) = Ok 5%N /\
  Binary64.euc_2D (Binary64.point 3 4) (Binary64.point 6 0) = Ok 5%N /\
  Binary64.euc_2D (Binary64.point 0 0) (Binary64.point 6 0) = Ok 6%N.
Proof. repeat split; vm_compute; reflexivity. Qed.

End Binary64_run.

(** ** Binary64 arithmetic, from the specification of the format *)

Module Binary64_arith.

Import PrimFloat FloatOps SpecFloat FloatAxioms.
Local Open Scope Z_scope.



(** *** Shifts of a mantissa *)

Lemma iter_pos_nat {A : Type} (f : A -> A) (n : positive) :
  forall x, iter_pos f n x = Nat.iter (Pos.to_nat n) f x.
Proof.
  induction n as [n IH|n IH|]; intros x; cbn [iter_pos].
  - rewrite !IH, Pos2Nat.inj_xI.
    replace (S (2 * Pos.to_nat n))%nat with (Pos.to_nat n + (Pos.to_nat n + 1))%nat by lia.
    rewrite !Nat.iter_add. reflexivity.
  - rewrite !IH, Pos2Nat.inj_xO.
    replace (2 * Pos.to_nat n)%nat with (Pos.to_nat n + Pos.to_nat n)%nat by lia.
    rewrite Nat.iter_add. reflexivity.
  - reflexivity.
Qed.

Lemma shr_1_nonneg (m : Z) (r s : bool) :
  0 <= m ->
  shr_1 {| shr_m := m; shr_r := r; shr_s := s |} =
    {| shr_m := m / 2; shr_r := Z.odd m; shr_s := r || s |}.
Proof.
  intros Hm. rewrite <- Z.div2_div.
  destruct m as [|p|p]; [reflexivity| |lia].
  destruct p; reflexivity.
Qed.

(** The remainder of a division by [2 * b], from the one by [b]. *)
Lemma mod_double (M b : Z) :
  0 < b -> M mod (2 * b) = M mod b + (if Z.odd (M / b) then b else 0).
Proof.
  intros Hb.
  pose proof (Z.div_mod M b ltac:(lia)) as H1.
  pose proof (Z.mod_pos_bound M b Hb) as H2.
  pose proof (Zdiv2_odd_eqn (M / b)) as H3.
  symmetry. apply Z.mod_unique with (q := Z.div2 (M / b)).
  - left. destruct (Z.odd (M / b)); lia.
  - destruct (Z.odd (M / b)); nia.
Qed.

(** [k] steps of [shr_1] on [M]: the quotient by [2^k], the bit that was
    shifted out last, and whether a bit shifted out before it was set. *)
Lemma shr_steps (M : Z) (k : nat) :
  0 <= M ->
  Nat.iter (S k) shr_1 {| shr_m := M; shr_r := false; shr_s := false |} =
    {| shr_m := M / 2 ^ Z.of_nat (S k);
       shr_r := Z.odd (M / 2 ^ Z.of_nat k);
       shr_s := negb (M mod 2 ^ Z.of_nat k =? 0) |}.
Proof.
  intros HM. induction k as [|k IH].
  - cbn [Nat.iter]. rewrite shr_1_nonneg by exact HM.
    change (2 ^ Z.of_nat 1) with 2. change (2 ^ Z.of_nat 0) with 1.
    rewrite Z.div_1_r, Z.mod_1_r. reflexivity.
  - change (Nat.iter (S (S k)) shr_1 ?x) with (shr_1 (Nat.iter (S k) shr_1 x)).
    rewrite IH.
    assert (Hp : 0 < 2 ^ Z.of_nat k) by (apply Z.pow_pos_nonneg; lia).
    assert (HS : 2 ^ Z.of_nat (S k) = 2 * 2 ^ Z.of_nat k)
      by (rewrite Nat2Z.inj_succ, Z.pow_succ_r by lia; reflexivity).
    assert (HSS : 2 ^ Z.of_nat (S (S k)) = 2 ^ Z.of_nat (S k) * 2)
      by (rewrite (Nat2Z.inj_succ (S k)), Z.pow_succ_r by lia; lia).
    rewrite shr_1_nonneg by (apply Z.div_pos; lia).
    f_equal.
    + rewrite HSS, Z.div_div by lia. reflexivity.
    + rewrite HS, (mod_double M _ Hp).
      pose proof (Z.mod_pos_bound M _ Hp) as Hb.
      destruct (Z.odd (M / 2 ^ Z.of_nat k)); cbn [orb].
      * symmetry. apply negb_true_iff, Z.eqb_neq. lia.
      * rewrite Z.add_0_r. reflexivity.
Qed.


Lemma shr_positive (M e n : Z) :
  0 <= M -> 0 < n ->
  exists mrs,
    shr {| shr_m := M; shr_r := false; shr_s := false |} e n = (mrs, e + n) /\
    shr_m mrs = M / 2 ^ n /\
    loc_of_shr_record mrs = shifted_location M n.
Proof.
  intros HM Hn. destruct n as [|p|p]; try lia.
  unfold shr. rewrite iter_pos_nat.
  destruct (Pos.to_nat p) as [|k] eqn:Ek; [lia|].
  rewrite shr_steps by exact HM.
  assert (Hp : Z.pos p = Z.of_nat (S k)) by lia.
  eexists. split; [reflexivity|]. cbn [shr_m]. rewrite Hp. split; [reflexivity|].
  unfold shifted_location.
  replace (Z.of_nat (S k) - 1) with (Z.of_nat k) by lia.
  assert (Hk : 0 < 2 ^ Z.of_nat k) by (apply Z.pow_pos_nonneg; lia).
  assert (HS : 2 ^ Z.of_nat (S k) = 2 * 2 ^ Z.of_nat k)
    by (rewrite Nat2Z.inj_succ, Z.pow_succ_r by lia; reflexivity).
  rewrite HS, (mod_double M _ Hk).
  pose proof (Z.mod_pos_bound M _ Hk) as Hb.
  unfold loc_of_shr_record.
  destruct (Z.odd (M / 2 ^ Z.of_nat k));
    destruct (Z.eqb_spec (M mod 2 ^ Z.of_nat k) 0) as [E|E]; cbn [negb].
  - rewrite E, Z.add_0_l. destruct (Z.eqb_spec (2 ^ Z.of_nat k) 0); [lia|].
    rewrite Z.compare_refl. reflexivity.
  - destruct (Z.eqb_spec (M mod 2 ^ Z.of_nat k + 2 ^ Z.of_nat k) 0); [lia|].
    replace (M mod 2 ^ Z.of_nat k + 2 ^ Z.of_nat k ?= 2 ^ Z.of_nat k) with Gt
      by (symmetry; apply Z.compare_gt_iff; lia).
    reflexivity.
  - rewrite E. reflexivity.
  - rewrite Z.add_0_r. destruct (Z.eqb_spec (M mod 2 ^ Z.of_nat k) 0); [lia|].
    replace (M mod 2 ^ Z.of_nat k ?= 2 ^ Z.of_nat k) with Lt
      by (symmetry; apply Z.compare_lt_iff; lia).
    reflexivity.
Qed.


(** *** The number of digits *)

Lemma digits2_pos_bounds (p : positive) :
  2 ^ (Z.pos (digits2_pos p) - 1) <= Z.pos p < 2 ^ Z.pos (digits2_pos p).
Proof.
  induction p as [p IH|p IH|]; cbn [digits2_pos].
  - rewrite Pos2Z.inj_succ.
    replace (Z.succ (Z.pos (digits2_pos p)) - 1) with (Z.succ (Z.pos (digits2_pos p) - 1)) by lia.
    rewrite !Z.pow_succ_r by lia. lia.
  - rewrite Pos2Z.inj_succ.
    replace (Z.succ (Z.pos (digits2_pos p)) - 1) with (Z.succ (Z.pos (digits2_pos p) - 1)) by lia.
    rewrite !Z.pow_succ_r by lia. lia.
  - cbn. lia.
Qed.

Lemma Zdigits2_unique (M d : Z) :
  2 ^ (d - 1) <= M < 2 ^ d -> 0 < M -> Zdigits2 M = d.
Proof.
  intros [Hlo Hhi] HM. destruct M as [|p|p]; try lia. cbn [Zdigits2].
  pose proof (digits2_pos_bounds p) as [Hlo' Hhi'].
  assert (Hd : 0 < d).
  { destruct (Z.ltb_spec 0 d) as [|Hle]; [assumption|].
    destruct d as [|q|q]; [cbn in Hhi; lia|lia|]. rewrite Z.pow_neg_r in Hhi by lia. lia. }
  destruct (Z.lt_trichotomy (Z.pos (digits2_pos p)) d) as [Hlt|[Heq|Hgt]];
    [|exact Heq|].
  - assert (2 ^ Z.pos (digits2_pos p) <= 2 ^ (d - 1))
      by (apply Z.pow_le_mono_r; lia). lia.
  - assert (2 ^ d <= 2 ^ (Z.pos (digits2_pos p) - 1))
      by (apply Z.pow_le_mono_r; lia). lia.
Qed.

(** *** Shifts to the left *)

Lemma iter_xO (m d : positive) : Z.pos (Pos.iter xO m d) = Z.pos m * 2 ^ Z.pos d.
Proof.
  induction d as [|d IH] using Pos.peano_ind.
  - cbn [Pos.iter]. lia.
  - rewrite Pos.iter_succ, Pos2Z.inj_xO, IH, Pos2Z.inj_succ, Z.pow_succ_r by lia. lia.
Qed.

Lemma shl_align_shift (m : positive) (e e' : Z) :
  e' <= e ->
  exists m', shl_align m e e' = (m', e') /\ Z.pos m' = Z.pos m * 2 ^ (e - e').
Proof.
  intros He. unfold shl_align.
  destruct (e' - e) as [|d|d] eqn:E; try lia.
  - exists m. assert (e' = e) as -> by lia. rewrite Z.sub_diag. split; [reflexivity|]. lia.
  - eexists. split; [reflexivity|]. rewrite iter_xO. f_equal. f_equal. lia.
Qed.

Lemma shl_align_none (m : positive) (e e' : Z) :
  e <= e' -> shl_align m e e' = (m, e).
Proof.
  intros He. unfold shl_align. destruct (e' - e) eqn:E; try reflexivity. lia.
Qed.

(** *** Rounding a mantissa *)

Local Abbreviation fexp64 := (fexp 53 1024).

Lemma fexp64_spec (z : Z) : fexp64 z = Z.max (z - 53) (-1074).
Proof. reflexivity. Qed.

(** A mantissa of 53 digits at an exponent of the format is left as it
    is. *)
Lemma binary_round_aux_canonical (s : bool) (M E : Z) :
  2 ^ 52 <= M < 2 ^ 53 -> -1074 <= E <= 971 ->
  binary_round_aux 53 1024 s M E loc_Exact = S754_finite s (Z.to_pos M) E.
Proof.
  intros HM HE.
  assert (Hd : Zdigits2 M = 53) by (apply Zdigits2_unique; [exact HM|lia]).
  assert (Hshr : shr_fexp 53 1024 M E loc_Exact =
                 ({| shr_m := M; shr_r := false; shr_s := false |}, E)).
  { unfold shr_fexp. rewrite Hd, fexp64_spec.
    replace (Z.max (53 + E - 53) (-1074) - E) with 0 by lia. reflexivity. }
  unfold binary_round_aux. rewrite Hshr. cbn [shr_m loc_of_shr_record round_nearest_even].
  rewrite Hshr. cbn [shr_m].
  destruct M as [|p|p]; try lia. cbn [Z.to_pos].
  destruct (Z.leb_spec E (1024 - 53)); [reflexivity|lia].
Qed.

(** A mantissa with more digits is shifted and rounded to the nearest,
    to the even one at a tie; the lemma covers the results of 53 digits. *)
Lemma binary_round_aux_shift (s : bool) (M E n q : Z) :
  0 < M -> 0 < n ->
  fexp64 (Zdigits2 M + E) - E = n ->
  q = round_nearest_even (M / 2 ^ n) (shifted_location M n) ->
  2 ^ 52 <= q < 2 ^ 53 -> -1074 <= E + n <= 971 ->
  binary_round_aux 53 1024 s M E loc_Exact = S754_finite s (Z.to_pos q) (E + n).
Proof.
  intros HM Hn Hshift Hq Hq53 HE.
  destruct (shr_positive M E n ltac:(lia) Hn) as (mrs & Hshr & Hm & Hloc).
  assert (Hd : Zdigits2 q = 53) by (apply Zdigits2_unique; [exact Hq53|lia]).
  unfold binary_round_aux, shr_fexp at 1. cbn [shr_record_of_loc].
  rewrite Hshift, Hshr, Hm, Hloc, <- Hq.
  unfold shr_fexp. rewrite Hd, fexp64_spec.
  replace (Z.max (53 + (E + n) - 53) (-1074) - (E + n)) with 0 by lia.
  cbn [shr_record_of_loc shr shr_m].
  destruct q as [|p|p]; try lia. cbn [Z.to_pos].
  destruct (Z.leb_spec (E + n) (1024 - 53)); [reflexivity|lia].
Qed.

(** What rounding to the nearest does to the quotient. *)
Lemma round_nearest_even_bounds (M n : Z) :
  0 <= M -> 0 < n ->
  let q := M / 2 ^ n in
  let q' := round_nearest_even q (shifted_location M n) in
  q <= q' <= q + 1 /\
  (M mod 2 ^ n = 0 -> q' = q) /\
  (q' = q + 1 -> 2 ^ (n - 1) <= M mod 2 ^ n) /\
  (M mod 2 ^ n = 2 ^ (n - 1) -> q' = if Z.even q then q else q + 1).
Proof.
  intros HM Hn q q'. subst q'. unfold shifted_location.
  assert (Hp : 0 < 2 ^ (n - 1)) by (apply Z.pow_pos_nonneg; lia).
  destruct (Z.eqb_spec (M mod 2 ^ n) 0) as [E|E]; cbn [round_nearest_even].
  - repeat split; intros; lia.
  - destruct (Z.compare_spec (M mod 2 ^ n) (2 ^ (n - 1))) as [C|C|C];
      cbn [round_nearest_even].
    + destruct (Z.even q); repeat split; intros; lia.
    + repeat split; intros; lia.
    + repeat split; intros; lia.
Qed.


(** *** Normalising a sum *)

Lemma binary_normalize_shift (M E n d q : Z) :
  2 ^ (d - 1) <= M < 2 ^ d -> 0 < M ->
  fexp64 (d + E) - E = n -> 0 < n ->
  q = round_nearest_even (M / 2 ^ n) (shifted_location M n) ->
  2 ^ 52 <= q < 2 ^ 53 -> -1074 <= E + n <= 971 ->
  binary_normalize 53 1024 M E false = S754_finite false (Z.to_pos q) (E + n).
Proof.
  intros Hd HM Hshift Hn Hq Hq53 HE.
  pose proof (Zdigits2_unique M d Hd HM) as Hdig.
  destruct M as [|p|p]; try lia. cbn [binary_normalize]. unfold binary_round.
  cbn [Zdigits2] in Hdig. rewrite Hdig, shl_align_none by lia.
  apply binary_round_aux_shift; try assumption. cbn [Zdigits2]. now rewrite Hdig.
Qed.

(** A number of fewer digits is shifted to the left: nothing is lost. *)
Lemma binary_normalize_small (M E d : Z) :
  2 ^ (d - 1) <= M < 2 ^ d -> 0 < M -> d <= 53 ->
  -1074 <= d + E - 53 <= 971 ->
  binary_normalize 53 1024 M E false =
    S754_finite false (Z.to_pos (M * 2 ^ (53 - d))) (d + E - 53).
Proof.
  intros Hd HM Hd53 HE.
  pose proof (Zdigits2_unique M d Hd HM) as Hdig.
  destruct M as [|p|p]; try lia. cbn [binary_normalize]. unfold binary_round.
  cbn [Zdigits2] in Hdig. rewrite Hdig, fexp64_spec.
  replace (Z.max (d + E - 53) (-1074)) with (d + E - 53) by lia.
  destruct (shl_align_shift p E (d + E - 53) ltac:(lia)) as (m' & -> & Hm').
  replace (E - (d + E - 53)) with (53 - d) in Hm' by lia.
  rewrite <- Hm', Pos2Z.id.
  rewrite <- (Pos2Z.id m') at 2.
  apply binary_round_aux_canonical; [|lia].
  rewrite Hm'.
  assert (Hpow : 2 ^ 52 = 2 ^ (d - 1) * 2 ^ (53 - d))
    by (rewrite <- Z.pow_add_r by lia; f_equal; lia).
  assert (Hpow' : 2 ^ 53 = 2 ^ d * 2 ^ (53 - d))
    by (rewrite <- Z.pow_add_r by lia; f_equal; lia).
  assert (0 < 2 ^ (53 - d)) by (apply Z.pow_pos_nonneg; lia).
  rewrite Hpow, Hpow'. nia.
Qed.

(** *** Valid numbers *)

Lemma bounded_cases (m : positive) (e : Z) :
  bounded 53 1024 m e = true ->
  Z.pos m < 2 ^ 53 /\ -1074 <= e <= 971 /\ (e = -1074 \/ 2 ^ 52 <= Z.pos m).
Proof.
  unfold bounded, canonical_mantissa. intros H.
  apply andb_prop in H as [H1 H2]. apply Z.eqb_eq in H1. apply Z.leb_le in H2.
  rewrite fexp64_spec in H1.
  pose proof (digits2_pos_bounds m) as [Hlo Hhi].
  assert (Hd : Z.pos (digits2_pos m) <= 53) by lia.
  assert (Hle : 2 ^ Z.pos (digits2_pos m) <= 2 ^ 53) by (apply Z.pow_le_mono_r; lia).
  split; [lia|]. split; [lia|].
  destruct (Z.eq_dec e (-1074)) as [|Hne]; [left; assumption|right].
  assert (Z.pos (digits2_pos m) = 53) as E by lia. rewrite E in Hlo. exact Hlo.
Qed.




Lemma SFtrunc_negative_exponent (q e : Z) :
  0 < q -> e < 0 ->
  SFtrunc (S754_finite false (Z.to_pos q) e) = Some (q / 2 ^ (- e)).
Proof.
  intros Hq He. destruct e as [|p|p]; try lia. cbn [SFtrunc].
  rewrite Z2Pos.id by lia. reflexivity.
Qed.

(** The sum of a number below one half and one half. *)
Lemma add_half_small (m : positive) (e : Z) :
  Z.pos m < 2 ^ 53 -> -1074 <= e <= -54 ->
  Z.pos m <> 2 ^ 53 - 1 \/ e <> -54 ->
  exists q,
    SFadd 53 1024 (S754_finite false m e) half_sf = S754_finite false (Z.to_pos q) (-53) /\
    2 ^ 52 <= q < 2 ^ 53.
Proof.
  intros Hm He Hne. unfold SFadd, half_sf.
  rewrite Z.min_l by lia. rewrite shl_align_none by lia.
  destruct (shl_align_shift 4503599627370496 (-53) e ltac:(lia)) as (h & -> & Hh).
  cbn [fst cond_Zopp].
  set (n := -53 - e) in *.
  assert (Hn : 0 < n) by lia.
  assert (Hpn : 2 <= 2 ^ n).
  { change 2 with (2 ^ 1) at 1. apply Z.pow_le_mono_r; lia. }
  change (Z.pos 4503599627370496) with (2 ^ 52) in Hh.
  set (M := Z.pos m + Z.pos h).
  assert (HM : M = Z.pos m + 2 ^ 52 * 2 ^ n) by (unfold M; lia).
  assert (Hdiv : M / 2 ^ n = 2 ^ 52 + Z.pos m / 2 ^ n).
  { rewrite HM, Z.add_comm, Z.div_add_l by lia. reflexivity. }
  assert (Hmod : M mod 2 ^ n = Z.pos m mod 2 ^ n).
  { rewrite HM, Z_mod_plus_full. reflexivity. }
  pose proof (round_nearest_even_bounds M n ltac:(lia) Hn) as (Hq & Hexact & Hup & Htie).
  cbv zeta in Hq, Hexact, Hup, Htie.
  set (q := round_nearest_even (M / 2 ^ n) (shifted_location M n)) in *.
  assert (Hmq : 0 <= Z.pos m / 2 ^ n <= 2 ^ 52 - 1).
  { split; [apply Z.div_pos; lia|].
    apply Z.lt_succ_r. apply Z.div_lt_upper_bound; [lia|].
    replace (Z.succ (2 ^ 52 - 1)) with (2 ^ 52) by lia.
    change (2 ^ 53) with (2 * 2 ^ 52) in Hm. nia. }
  assert (Hq53 : q < 2 ^ 53).
  { destruct (Z.eq_dec q (2 ^ 53)) as [Eq|]; [|change (2 ^ 53) with (2 ^ 52 + 2 ^ 52) in *; lia].
    exfalso.
    assert (Hqq : Z.pos m / 2 ^ n = 2 ^ 52 - 1)
      by (change (2 ^ 53) with (2 ^ 52 + 2 ^ 52) in Eq; lia).
    assert (Hup' : 2 ^ (n - 1) <= M mod 2 ^ n)
      by (apply Hup; change (2 ^ 53) with (2 ^ 52 + 2 ^ 52) in Eq; lia).
    (* the quotient is the largest possible: the shift is by one digit *)
    assert (Hn1 : n = 1).
    { destruct (Z.eq_dec n 1) as [|Hn1]; [assumption|exfalso].
      assert (4 <= 2 ^ n).
      { change 4 with (2 ^ 2). apply Z.pow_le_mono_r; lia. }
      pose proof (Z.mul_div_le (Z.pos m) (2 ^ n) ltac:(lia)) as Hle.
      rewrite Hqq in Hle. change (2 ^ 53) with (2 * 2 ^ 52) in Hm. nia. }
    rewrite Hn1 in *. change (2 ^ 1) with 2 in *. change (2 ^ (1 - 1)) with 1 in *.
    rewrite Hmod in Hup'.
    pose proof (Z.div_mod (Z.pos m) 2 ltac:(lia)) as Hdm.
    pose proof (Z.mod_pos_bound (Z.pos m) 2 ltac:(lia)) as Hb.
    assert (Z.pos m = 2 ^ 53 - 1) by (change (2 ^ 53) with (2 * 2 ^ 52); lia).
    destruct Hne as [Hne|Hne]; [contradiction|]. unfold n in Hn1. lia. }
  exists q. split; [|lia].
  replace (-53) with (e + n) by (unfold n; lia).
  assert (Hpow : 2 ^ (53 + n) = 2 ^ 53 * 2 ^ n) by (apply Z.pow_add_r; lia).
  assert (Hpow' : 2 ^ (53 + n - 1) = 2 ^ 52 * 2 ^ n)
    by (replace (53 + n - 1) with (52 + n) by lia; apply Z.pow_add_r; lia).
  apply (binary_normalize_shift M e n (53 + n) q); try lia; try reflexivity.
  rewrite fexp64_spec. unfold n. lia.
Qed.


Lemma div_between (a b c : Z) : 0 < b -> c * b <= a < c * b + b -> a / b = c.
Proof. intros Hb H. symmetry. apply (Z.div_unique a b c (a - c * b)); lia. Qed.

(** The sum of a number from one half on, below [2^31], and one half. *)
Lemma add_half_large (m : positive) (e : Z) :
  2 ^ 52 <= Z.pos m < 2 ^ 53 -> -53 <= e <= -22 ->
  exists q e',
    SFadd 53 1024 (S754_finite false m e) half_sf = S754_finite false (Z.to_pos q) e' /\
    0 < q /\ e' < 0 /\
    q / 2 ^ (- e') = (Z.pos m + 2 ^ (- e - 1)) / 2 ^ (- e).
Proof.
  intros Hm He. unfold SFadd, half_sf.
  rewrite Z.min_r by lia.
  destruct (shl_align_shift m e (-53) ltac:(lia)) as (m' & -> & Hm').
  rewrite shl_align_none by lia. cbn [fst cond_Zopp].
  set (k := e + 53) in *.
  replace (e - -53) with k in Hm' by (unfold k; lia).
  replace (- e - 1) with (52 - k) by (unfold k; lia).
  replace (- e) with (53 - k) by (unfold k; lia).
  assert (Hk : 0 <= k <= 31) by (unfold k; lia).
  set (P := 2 ^ k) in *. set (Q := 2 ^ (52 - k)).
  assert (HP : 1 <= P) by (apply (Z.pow_le_mono_r 2 0 k); lia).
  assert (HQ : 2 <= Q) by (apply (Z.pow_le_mono_r 2 1 (52 - k)); lia).
  assert (HPQ : P * Q = 2 ^ 52)
    by (unfold P, Q; rewrite <- Z.pow_add_r by lia; f_equal; lia).
  assert (HQ2 : 2 ^ (53 - k) = 2 * Q).
  { unfold Q. replace (53 - k) with (Z.succ (52 - k)) by lia.
    apply Z.pow_succ_r. lia. }
  rewrite HQ2.
  change (Z.pos 4503599627370496) with (2 ^ 52).
  set (A := Z.pos m + Q).
  set (M := Z.pos m' + 2 ^ 52).
  assert (HM : M = A * P) by (unfold M, A; nia).
  change (2 ^ 53) with (2 * 2 ^ 52) in Hm.
  destruct (Z.lt_ge_cases A (2 * 2 ^ 52)) as [Hlt|Hge].
  - (* no carry: the sum is exact *)
    assert (Hk0 : 0 < k).
    { destruct (Z.eq_dec k 0) as [E|]; [|lia]. exfalso.
      unfold Q, A in *. rewrite E in *. change (2 ^ (52 - 0)) with (2 ^ 52) in *. lia. }
    exists A, e. split; [|split; [unfold A; lia|split; [lia|]]].
    + replace (S754_finite false (Z.to_pos A) e)
        with (S754_finite false (Z.to_pos A) (-53 + k)) by (f_equal; unfold k; lia).
      assert (Hpow : 2 ^ (53 + k) = 2 * 2 ^ 52 * P)
        by (rewrite Z.pow_add_r by lia; reflexivity).
      assert (Hpow' : 2 ^ (53 + k - 1) = 2 ^ 52 * P)
        by (replace (53 + k - 1) with (52 + k) by lia; rewrite Z.pow_add_r by lia;
            reflexivity).
      assert (H1 : 2 ^ (53 + k - 1) <= M < 2 ^ (53 + k))
        by (rewrite Hpow, Hpow', HM; unfold A in *; nia).
      assert (H2 : 0 < M) by (unfold M; lia).
      assert (H3 : fexp64 (53 + k + -53) - -53 = k) by (rewrite fexp64_spec; lia).
      assert (H4 : A = round_nearest_even (M / 2 ^ k) (shifted_location M k)).
      { pose proof (round_nearest_even_bounds M k ltac:(lia) Hk0) as (_ & Hexact & _).
        cbv zeta in Hexact. fold P in Hexact |- *. rewrite Hexact.
        - rewrite HM. rewrite Z.div_mul by lia. reflexivity.
        - rewrite HM. apply Z.mod_mul. lia. }
      assert (H5 : 2 ^ 52 <= A < 2 ^ 53)
        by (unfold A in *; change (2 ^ 53) with (2 * 2 ^ 52); lia).
      exact (binary_normalize_shift M (-53) k (53 + k) A H1 H2 H3 Hk0 H4 H5
               ltac:(lia)).
    + replace (- e) with (53 - k) by (unfold k; lia). rewrite HQ2. reflexivity.
  - (* a carry: one more digit is shifted out *)
    pose proof (round_nearest_even_bounds M (k + 1) ltac:(unfold M; lia) ltac:(lia))
      as (Hq & _ & _ & _).
    cbv zeta in Hq.
    set (q := round_nearest_even (M / 2 ^ (k + 1)) (shifted_location M (k + 1))) in *.
    assert (HP2 : 2 ^ (k + 1) = 2 * P).
    { unfold P. replace (k + 1) with (Z.succ k) by lia. apply Z.pow_succ_r. lia. }
    assert (Hdiv : M / 2 ^ (k + 1) = A / 2).
    { rewrite HP2, HM, (Z.mul_comm 2 P), (Z.mul_comm A P).
      rewrite Z.div_mul_cancel_l by lia. reflexivity. }
    rewrite Hdiv in Hq.
    pose proof (Z.div_mod A 2 ltac:(lia)) as HA.
    pose proof (Z.mod_pos_bound A 2 ltac:(lia)) as HAb.
    assert (HQe : Q = 2 * 2 ^ (51 - k)).
    { unfold Q. replace (52 - k) with (Z.succ (51 - k)) by lia.
      apply Z.pow_succ_r. lia. }
    assert (HQ' : 1 <= 2 ^ (51 - k)) by (apply (Z.pow_le_mono_r 2 0 (51 - k)); lia).
    assert (HA2 : 2 ^ 52 <= A / 2 < 2 ^ 52 + 2 ^ (51 - k)) by (unfold A in *; lia).
    exists q, (e + 1). split; [|split; [lia|split; [lia|]]].
    + replace (S754_finite false (Z.to_pos q) (e + 1))
        with (S754_finite false (Z.to_pos q) (-53 + (k + 1)))
        by (f_equal; unfold k; lia).
      assert (Hpow : 2 ^ (54 + k) = 4 * 2 ^ 52 * P)
        by (rewrite Z.pow_add_r by lia; reflexivity).
      assert (Hpow' : 2 ^ (54 + k - 1) = 2 * 2 ^ 52 * P)
        by (replace (54 + k - 1) with (53 + k) by lia; rewrite Z.pow_add_r by lia;
            reflexivity).
      assert (H1 : 2 ^ (54 + k - 1) <= M < 2 ^ (54 + k))
        by (rewrite Hpow, Hpow', HM; unfold A in *; nia).
      assert (H2 : 0 < M) by (unfold M; lia).
      assert (H3 : fexp64 (54 + k + -53) - -53 = k + 1) by (rewrite fexp64_spec; lia).
      assert (HQ51 : 2 ^ (51 - k) <= 2 ^ 51) by (apply Z.pow_le_mono_r; lia).
      assert (H5 : 2 ^ 52 <= q < 2 ^ 53) by lia.
      exact (binary_normalize_shift M (-53) (k + 1) (54 + k) q H1 H2 H3 ltac:(lia)
               eq_refl H5 ltac:(lia)).
    + replace (- (e + 1)) with (52 - k) by (unfold k; lia). fold Q.
      rewrite (div_between q Q P) by nia.
      symmetry. apply div_between; [lia|]. unfold A in *. nia.
Qed.

(** What [nint] computes on a number that is not negative: the floor of
    the sum with one half, the largest number below one half apart. *)
Lemma add_half_floor (m : positive) (e : Z) :
  bounded 53 1024 m e = true -> e < 0 ->
  Z.pos m + 2 ^ (- e - 1) < 2 ^ 31 * 2 ^ (- e) ->
  Z.pos m <> 2 ^ 53 - 1 \/ e <> -54 ->
  SFtrunc (SFadd 53 1024 (S754_finite false m e) half_sf)
    = Some ((Z.pos m + 2 ^ (- e - 1)) / 2 ^ (- e)).
Proof.
  intros Hb He Hlt Hne.
  destruct (bounded_cases m e Hb) as (Hm & Hrange & Hnormal).
  destruct (Z.le_gt_cases e (-54)) as [Hsmall|Hlarge].
  - destruct (add_half_small m e Hm ltac:(lia) Hne) as (q & -> & Hq).
    rewrite SFtrunc_negative_exponent by lia.
    change (2 ^ (- -53)) with (2 ^ 53). rewrite (div_between q (2 ^ 53) 0) by lia.
    f_equal. symmetry. apply div_between.
    + apply Z.pow_pos_nonneg; lia.
    + assert (Hpow : 2 ^ (- e) = 2 * 2 ^ (- e - 1)).
      { replace (- e) with (Z.succ (- e - 1)) at 1 by lia. apply Z.pow_succ_r. lia. }
      assert (Hle : 2 ^ 53 <= 2 ^ (- e - 1)) by (apply Z.pow_le_mono_r; lia).
      rewrite Hpow. lia.
  - assert (Hm52 : 2 ^ 52 <= Z.pos m) by (destruct Hnormal; [lia|assumption]).
    assert (He22 : e <= -22).
    { destruct (Z.le_gt_cases e (-22)) as [|Hgt]; [assumption|exfalso].
      assert (Hpow : 2 ^ 52 = 2 ^ (52 + e) * 2 ^ (- e))
        by (rewrite <- Z.pow_add_r by lia; f_equal; lia).
      assert (Hle : 2 ^ 31 <= 2 ^ (52 + e)) by (apply Z.pow_le_mono_r; lia).
      assert (0 < 2 ^ (- e)) by (apply Z.pow_pos_nonneg; lia).
      assert (0 < 2 ^ (- e - 1)) by (apply Z.pow_pos_nonneg; lia).
      nia. }
    destruct (add_half_large m e ltac:(lia) ltac:(lia)) as (q & e' & -> & Hq & He' & Hdiv).
    rewrite SFtrunc_negative_exponent by lia. now rewrite Hdiv.
Qed.

End Binary64_arith.

Module Binary64_value.

Import PrimFloat FloatOps SpecFloat FloatAxioms Binary64_arith.
Local Open Scope Z_scope.

Lemma trunc_parts (x : float) : Binary64.trunc x = SFtrunc (Prim2SF x).
Proof. reflexivity. Qed.

Lemma value_parts (x : float) : Binary64.value x = SFvalue (Prim2SF x).
Proof. reflexivity. Qed.

Lemma half_parts : Prim2SF 0.5 = half_sf.
Proof. vm_compute. reflexivity. Qed.

(** The floor and the ceiling of a quotient of integers. *)
Lemma Zfloor_div (a b : Z) : 0 < b -> Zfloor (IZR a / IZR b) = a / b.
Proof.
  intros Hb. apply Zfloor_eq.
  pose proof (Z.div_mod a b ltac:(lia)) as Hd.
  pose proof (Z.mod_pos_bound a b Hb) as Hm.
  assert (Hb' : (0 < IZR b)%R) by (apply IZR_lt; exact Hb).
  assert (Ha : IZR a = (IZR b * IZR (a / b) + IZR (a mod b))%R)
    by (rewrite <- mult_IZR, <- plus_IZR; f_equal; exact Hd).
  assert (Hm1 : (0 <= IZR (a mod b))%R) by (apply IZR_le; lia).
  assert (Hm2 : (IZR (a mod b) < IZR b)%R) by (apply IZR_lt; lia).
  split.
  - apply (Rmult_le_reg_r (IZR b) _ _ Hb').
    unfold Rdiv. rewrite Rmult_assoc, Rinv_l by lra. lra.
  - apply (Rmult_lt_reg_r (IZR b) _ _ Hb').
    unfold Rdiv. rewrite Rmult_assoc, Rinv_l by lra. lra.
Qed.

Lemma Zceil_div (a b : Z) : 0 < b -> Zceil (IZR a / IZR b) = - (- a / b).
Proof.
  intros Hb.
  replace (IZR a / IZR b)%R with (- (IZR (- a) / IZR b))%R
    by (rewrite opp_IZR; unfold Rdiv; lra).
  rewrite ZceilN, Zfloor_div by exact Hb. reflexivity.
Qed.

(** The parts of a number that is not negative. *)
Lemma value_nonneg_parts (x : float) (r : R) :
  Binary64.value x = Some r -> (0 <= r)%R ->
  (r = 0%R /\ exists s, Prim2SF x = S754_zero s) \/
  (exists m e, Prim2SF x = S754_finite false m e /\ bounded 53 1024 m e = true /\
               SFvalue (S754_finite false m e) = Some r /\ (0 < r)%R).
Proof.
  intros Hv Hr. rewrite value_parts in Hv.
  pose proof (Prim2SF_valid x) as Hvalid.
  destruct (Prim2SF x) as [s| |  |s m e] eqn:E; try discriminate.
  - left. injection Hv as <-. split; [reflexivity|eauto].
  - right. cbn [valid_binary] in Hvalid.
    assert (Hpos : (0 < match e with
                        | Z.neg p => IZR (Z.pos m) / IZR (2 ^ Z.pos p)
                        | _ => IZR (Z.pos m * 2 ^ e)
                        end)%R).
    { destruct e as [|p|p].
      - apply IZR_lt. lia.
      - apply IZR_lt. assert (0 < 2 ^ Z.pos p) by (apply Z.pow_pos_nonneg; lia). lia.
      - apply Rdiv_lt_0_compat; apply IZR_lt; [lia|apply Z.pow_pos_nonneg; lia]. }
    cbn [SFvalue] in Hv. destruct s.
    + injection Hv as <-. lra.
    + exists m, e. injection Hv as <-. repeat split; try assumption.
Qed.

(** A number that is not negative, with [r + 0.5] below [2^31]: its
    exponent is negative. *)
Lemma value_small_parts (m : positive) (e : Z) (r : R) :
  bounded 53 1024 m e = true ->
  SFvalue (S754_finite false m e) = Some r ->
  (r + 0.5 < IZR (2 ^ 31))%R ->
  e < 0 /\ r = (IZR (Z.pos m) / IZR (2 ^ (- e)))%R /\
  Z.pos m + 2 ^ (- e - 1) < 2 ^ 31 * 2 ^ (- e).
Proof.
  intros Hb Hv Hlt.
  destruct (bounded_cases m e Hb) as (Hm & Hrange & Hnormal).
  cbn [SFvalue] in Hv. destruct e as [|p|p].
  - exfalso. injection Hv as <-. destruct Hnormal as [|H52]; [lia|].
    assert (IZR (2 ^ 52) <= IZR (Z.pos m * 2 ^ 0))%R by (apply IZR_le; lia).
    assert (IZR (2 ^ 31) < IZR (2 ^ 52))%R by (apply IZR_lt; lia). lra.
  - exfalso. injection Hv as <-. destruct Hnormal as [|H52]; [lia|].
    assert (1 <= 2 ^ Z.pos p) by (apply (Z.pow_le_mono_r 2 0); lia).
    assert (IZR (2 ^ 52) <= IZR (Z.pos m * 2 ^ Z.pos p))%R by (apply IZR_le; nia).
    assert (IZR (2 ^ 31) < IZR (2 ^ 52))%R by (apply IZR_lt; lia). lra.
  - injection Hv as <-. split; [lia|]. split; [reflexivity|].
    change (- Z.neg p) with (Z.pos p).
    assert (Hp : 0 < 2 ^ (Z.pos p - 1)) by (apply Z.pow_pos_nonneg; lia).
    assert (Hpow : 2 ^ Z.pos p = 2 * 2 ^ (Z.pos p - 1)).
    { replace (Z.pos p) with (Z.succ (Z.pos p - 1)) at 1 by lia.
      apply Z.pow_succ_r. lia. }
    apply lt_IZR. rewrite plus_IZR, mult_IZR.
    assert (Hp' : (0 < IZR (2 ^ Z.pos p))%R) by (apply IZR_lt; lia).
    assert (Hhalf : IZR (2 ^ (Z.pos p - 1)) = (0.5 * IZR (2 ^ Z.pos p))%R)
      by (rewrite Hpow, mult_IZR; lra).
    rewrite Hhalf.
    apply (Rmult_lt_compat_r _ _ _ Hp') in Hlt.
    unfold Rdiv in Hlt. rewrite Rmult_plus_distr_r, Rmult_assoc, Rinv_l in Hlt by lra.
    lra.
Qed.

(** [nint] on a number that is not negative: the floor of [x + 0.5], the
    largest number below one half apart. *)
Lemma nint_floor_of_value (x : float) (r : R) :
  Binary64.value x = Some r -> (0 <= r)%R -> (r + 0.5 < IZR (INT_MAX + 1))%R ->
  x <> Binary64.below_half ->
  Binary64.nint x = Ok (Z.to_N (Zfloor (r + 0.5))).
Proof.
  intros Hv Hr Hlt Hne.
  unfold Binary64.nint, Binary64.double_to_int.
  rewrite trunc_parts, add_spec, half_parts.
  destruct (value_nonneg_parts x r Hv Hr) as [(-> & s & E)|(m & e & E & Hb & Hval & Hpos)];
    rewrite E.
  - cbn [SF64add SFadd half_sf]. replace (Zfloor (0 + 0.5)) with 0
      by (symmetry; apply Zfloor_eq; lra).
    reflexivity.
  - change (INT_MAX + 1) with (2 ^ 31) in Hlt.
    destruct (value_small_parts m e r Hb Hval Hlt) as (He & Hr' & Hz).
    assert (Hcase : Z.pos m <> 2 ^ 53 - 1 \/ e <> -54).
    { destruct (Z.eq_dec (Z.pos m) (2 ^ 53 - 1)) as [Hm|]; [|left; assumption].
      destruct (Z.eq_dec e (-54)) as [He54|]; [|right; assumption].
      exfalso. apply Hne. apply Prim2SF_inj. rewrite E.
      injection Hm as ->. rewrite He54. vm_compute. reflexivity. }
    change (SF64add (S754_finite false m e) half_sf)
      with (SFadd 53 1024 (S754_finite false m e) half_sf).
    rewrite (add_half_floor m e Hb He Hz Hcase).
    set (z := (Z.pos m + 2 ^ (- e - 1)) / 2 ^ (- e)).
    assert (Hpe : 0 < 2 ^ (- e)) by (apply Z.pow_pos_nonneg; lia).
    assert (Hpe1 : 0 < 2 ^ (- e - 1)) by (apply Z.pow_pos_nonneg; lia).
    assert (Hz0 : 0 <= z) by (apply Z.div_pos; lia).
    assert (Hz1 : z < 2 ^ 31) by (apply Z.div_lt_upper_bound; lia).
    assert (Hfloor : Zfloor (r + 0.5) = z).
    { unfold z. rewrite <- Zfloor_div by exact Hpe. f_equal.
      rewrite Hr', plus_IZR.
      assert (Hpow : 2 ^ (- e) = 2 * 2 ^ (- e - 1)).
      { replace (- e) with (Z.succ (- e - 1)) at 1 by lia. apply Z.pow_succ_r. lia. }
      assert (Hp' : (0 < IZR (2 ^ (- e)))%R) by (apply IZR_lt; lia).
      assert (Hhalf : IZR (2 ^ (- e - 1)) = (0.5 * IZR (2 ^ (- e)))%R)
        by (rewrite Hpow, mult_IZR; lra).
      rewrite Hhalf. field. lra. }
    rewrite Hfloor.
    assert (Hint : ((INT_MIN <=? z) && (z <=? INT_MAX)) = true).
    { apply andb_true_intro. split; apply Z.leb_le.
      - unfold INT_MIN. lia.
      - change INT_MAX with (2 ^ 31 - 1). lia. }
    rewrite Hint. cbn [bind]. f_equal. unfold int_to_distance. f_equal.
    apply Z.mod_small. change (Z.of_N Binary64.distance_max + 1) with (2 ^ 32). lia.
Qed.

End Binary64_value.

Module Binary64_order.

Import PrimFloat FloatOps SpecFloat FloatAxioms Binary64_arith Binary64_value.
Local Open Scope Z_scope.

(** *** The value as a mantissa times a power of two *)

Lemma powerRZ_2_nonneg (e : Z) : 0 <= e -> powerRZ 2 e = IZR (2 ^ e).
Proof.
  intros He. destruct e as [|p|p]; try lia; [reflexivity|].
  cbn [powerRZ]. rewrite pow_IZR, positive_nat_Z. reflexivity.
Qed.

Lemma powerRZ_2_neg (p : positive) : powerRZ 2 (Z.neg p) = (/ IZR (2 ^ Z.pos p))%R.
Proof. cbn [powerRZ]. rewrite pow_IZR, positive_nat_Z. reflexivity. Qed.

Lemma SFvalue_power (m : positive) (e : Z) :
  SFvalue (S754_finite false m e) = Some (IZR (Z.pos m) * powerRZ 2 e)%R.
Proof.
  cbn [SFvalue]. f_equal. destruct e as [|p|p].
  - cbn [powerRZ]. rewrite Z.pow_0_r, Z.mul_1_r. lra.
  - rewrite mult_IZR, powerRZ_2_nonneg by lia. reflexivity.
  - rewrite powerRZ_2_neg. reflexivity.
Qed.

Lemma powerRZ_2_pos (e : Z) : (0 < powerRZ 2 e)%R.
Proof. apply powerRZ_lt. lra. Qed.

Lemma powerRZ_2_le (a b : Z) : a <= b -> (powerRZ 2 a <= powerRZ 2 b)%R.
Proof.
  intros Hab. replace b with (a + (b - a)) by lia.
  rewrite powerRZ_add by lra. rewrite (powerRZ_2_nonneg (b - a)) by lia.
  assert (1 <= IZR (2 ^ (b - a)))%R.
  { apply IZR_le. apply (Z.pow_le_mono_r 2 0); lia. }
  pose proof (powerRZ_2_pos a). nra.
Qed.

Lemma powerRZ_2_succ (a : Z) : powerRZ 2 (a + 1) = (2 * powerRZ 2 a)%R.
Proof. rewrite powerRZ_add by lra. cbn [powerRZ]. simpl. lra. Qed.

(** Of two valid numbers the one of the smaller exponent is the
    smaller. *)
Lemma value_lt_exponent (m1 m2 : positive) (e1 e2 : Z) :
  bounded 53 1024 m1 e1 = true -> bounded 53 1024 m2 e2 = true ->
  e1 < e2 ->
  (IZR (Z.pos m1) * powerRZ 2 e1 < IZR (Z.pos m2) * powerRZ 2 e2)%R.
Proof.
  intros H1 H2 He.
  destruct (bounded_cases m1 e1 H1) as (Hm1 & Hr1 & _).
  destruct (bounded_cases m2 e2 H2) as (_ & Hr2 & Hn2).
  assert (H52 : 2 ^ 52 <= Z.pos m2) by (destruct Hn2; [lia|assumption]).
  apply IZR_lt in Hm1. apply IZR_le in H52.
  pose proof (powerRZ_2_le (e1 + 1) e2 ltac:(lia)) as Hle.
  rewrite powerRZ_2_succ in Hle.
  pose proof (powerRZ_2_pos e1). pose proof (powerRZ_2_pos e2).
  change (2 ^ 53) with (2 * 2 ^ 52) in Hm1. rewrite mult_IZR in Hm1.
  assert (0 < IZR (2 ^ 52))%R by (apply IZR_lt; lia).
  apply Rlt_le_trans with (IZR (2 ^ 52) * (2 * powerRZ 2 e1))%R; [nra|].
  apply Rle_trans with (IZR (2 ^ 52) * powerRZ 2 e2)%R; nra.
Qed.

(** [<?] on two numbers that are not negative compares their values. *)
Lemma ltb_value (x y : float) (a b : R) :
  Binary64.value x = Some a -> Binary64.value y = Some b ->
  (0 <= a)%R -> (0 <= b)%R ->
  (x <? y)%float = if Rlt_dec a b then true else false.
Proof.
  intros Hx Hy Ha Hb. rewrite ltb_spec. unfold SFltb.
  destruct (value_nonneg_parts x a Hx Ha)
    as [(-> & s1 & E1)|(m1 & e1 & E1 & Hb1 & Hv1 & Hp1)];
    destruct (value_nonneg_parts y b Hy Hb)
      as [(-> & s2 & E2)|(m2 & e2 & E2 & Hb2 & Hv2 & Hp2)];
    rewrite E1, E2; cbn [SFcompare].
  - destruct (Rlt_dec 0 0); [lra|reflexivity].
  - destruct (Rlt_dec 0 b); [reflexivity|lra].
  - destruct (Rlt_dec a 0); [lra|reflexivity].
  - rewrite SFvalue_power in Hv1, Hv2. injection Hv1 as <-. injection Hv2 as <-.
    destruct (Z.compare_spec e1 e2) as [He|He|He].
    + subst e2. fold (Pos.compare m1 m2).
      pose proof (powerRZ_2_pos e1) as Hpow.
      destruct (Pos.compare_spec m1 m2) as [Hm|Hm|Hm].
      * subst m2. destruct (Rlt_dec _ _); [lra|reflexivity].
      * assert (IZR (Z.pos m1) < IZR (Z.pos m2))%R by (apply IZR_lt; lia).
        destruct (Rlt_dec _ _); [reflexivity|nra].
      * assert (IZR (Z.pos m2) < IZR (Z.pos m1))%R by (apply IZR_lt; lia).
        destruct (Rlt_dec _ _); [nra|reflexivity].
    + pose proof (value_lt_exponent m1 m2 e1 e2 Hb1 Hb2 He).
      destruct (Rlt_dec _ _); [reflexivity|lra].
    + pose proof (value_lt_exponent m2 m1 e2 e1 Hb2 Hb1 He).
      destruct (Rlt_dec _ _); [lra|reflexivity].
Qed.

(** *** A distance as a [double] *)

Lemma distance_to_double_value (t : N) :
  Z.of_N t < 2 ^ 53 ->
  Binary64.value (Binary64.distance_to_double t) = Some (IZR (Z.of_N t)).
Proof.
  intros Ht. rewrite value_parts. unfold Binary64.distance_to_double.
  rewrite of_uint63_spec.
  assert (Hz : Uint63Axioms.to_Z (Uint63.of_Z (Z.of_N t)) = Z.of_N t).
  { rewrite Uint63.of_Z_spec. apply Z.mod_small.
    change Uint63.wB with (2 ^ 63). lia. }
  rewrite Hz.
  assert (Hz53 : 0 <= Z.of_N t < 2 ^ 53) by lia.
  generalize dependent (Z.of_N t). clear t. intros z _ _ Hz53.
  destruct (Z.eq_dec z 0) as [->|Hz0]; [reflexivity|].
  pose proof (Z.log2_spec z ltac:(lia)) as Hlog.
  pose proof (Z.log2_nonneg z) as Hlog0.
  set (d := Z.succ (Z.log2 z)) in *.
  assert (Hd : 2 ^ (d - 1) <= z < 2 ^ d)
    by (unfold d; replace (Z.succ (Z.log2 z) - 1) with (Z.log2 z) by lia; exact Hlog).
  assert (Hd53 : d <= 53).
  { destruct (Z.le_gt_cases d 53) as [|Hgt]; [assumption|exfalso].
    assert (2 ^ 53 <= 2 ^ (d - 1)) by (apply Z.pow_le_mono_r; lia). lia. }
  change prec with 53. change emax with 1024.
  rewrite (binary_normalize_small z 0 d Hd ltac:(lia) Hd53 ltac:(lia)).
  replace (d + 0 - 53) with (- (53 - d)) by lia.
  assert (Hp : 0 < 2 ^ (53 - d)) by (apply Z.pow_pos_nonneg; lia).
  cbn [SFvalue]. f_equal. rewrite Z2Pos.id by nia.
  destruct (53 - d) as [|p|p] eqn:E; try lia.
  - change (- 0) with 0. cbv iota. rewrite Z.pow_0_r. f_equal. lia.
  - change (- Z.pos p) with (Z.neg p). cbv iota. rewrite mult_IZR. field.
    apply not_0_IZR. lia.
Qed.

(** *** Square roots *)

Lemma binary_round_aux_sign (s : bool) (mx ex : Z) (lx : location) :
  match binary_round_aux 53 1024 s mx ex lx with
  | S754_finite s' _ _ => s' = s
  | _ => True
  end.
Proof.
  unfold binary_round_aux.
  destruct (shr_fexp 53 1024 mx ex lx) as [mrs' e'].
  destruct (shr_fexp 53 1024 _ e' loc_Exact) as [mrs'' e''].
  destruct (shr_m mrs''); [exact I| |exact I].
  destruct (e'' <=? 1024 - 53); [reflexivity|exact I].
Qed.

(** A square root that is a number is not negative. *)
Lemma sqrt_value_nonneg (a : float) (r : R) :
  Binary64.value (sqrt a) = Some r -> (0 <= r)%R.
Proof.
  rewrite value_parts, sqrt_spec. unfold SF64sqrt, SFsqrt.
  destruct (Prim2SF a) as [s|s| |s m e].
  - cbn [SFvalue]. intros [= <-]. lra.
  - destruct s; discriminate.
  - discriminate.
  - destruct s; [discriminate|].
    destruct (SFsqrt_core_binary prec emax (Z.pos m) e) as [[mz ez] lz].
    pose proof (binary_round_aux_sign false mz ez lz) as Hs.
    change prec with 53. change emax with 1024.
    destruct (binary_round_aux 53 1024 false mz ez lz) as [s'|s'| |s' m' e'];
      try discriminate.
    + cbn [SFvalue]. intros [= <-]. lra.
    + subst s'. cbn [SFvalue]. intros [= <-].
      destruct e' as [|p|p].
      * apply IZR_le. lia.
      * apply IZR_le. assert (0 < 2 ^ Z.pos p) by (apply Z.pow_pos_nonneg; lia). lia.
      * apply Rlt_le, Rdiv_lt_0_compat; apply IZR_lt; [lia|apply Z.pow_pos_nonneg; lia].
Qed.

(** *** The ceiling *)

Lemma ceil_value (x : float) (r : R) :
  Binary64.value x = Some r -> Binary64.ceil x = Some (Zceil r).
Proof.
  unfold Binary64.value, Binary64.ceil.
  destruct (Prim2SF x) as [s|s| |s m e]; try discriminate.
  - intros [= <-]. f_equal. symmetry. apply Zceil_eq. lra.
  - intros [= <-]. f_equal.
    assert (HZ : forall z, Zceil (IZR z) = z) by (intros z; apply Zceil_eq; lra).
    destruct e as [|p|p].
    + rewrite Z.pow_0_r, Z.mul_1_r. destruct s.
      * rewrite <- opp_IZR, HZ. reflexivity.
      * rewrite HZ. reflexivity.
    + destruct s.
      * rewrite <- opp_IZR, HZ. lia.
      * rewrite HZ. reflexivity.
    + assert (Hp : 0 < 2 ^ Z.pos p) by (apply Z.pow_pos_nonneg; lia).
      destruct s.
      * rewrite ZceilN, Zfloor_div by exact Hp. reflexivity.
      * rewrite Zceil_div by exact Hp. reflexivity.
Qed.

End Binary64_order.

Module Binary64_distances.

Import PrimFloat FloatOps SpecFloat FloatAxioms.
Import Binary64_arith Binary64_value Binary64_order.
Local Open Scope Z_scope.

Lemma below_half_parts :
  Prim2SF Binary64.below_half = S754_finite false 9007199254740991 (-54).
Proof. vm_compute. reflexivity. Qed.

Lemma below_half_value :
  Binary64.value Binary64.below_half =
    Some (9007199254740991 / 18014398509481984)%R.
Proof. unfold Binary64.value. rewrite below_half_parts. reflexivity. Qed.

Lemma eq_below_half (x : float) : {x = Binary64.below_half} + {x <> Binary64.below_half}.
Proof.
  destruct (Leibniz.eqb x Binary64.below_half) eqn:E.
  - left. apply Leibniz.eqb_spec. exact E.
  - right. intros H. apply Leibniz.eqb_spec in H. congruence.
Qed.

(** What [nint] returns on a number that is not negative: an integer less
    than one below it and less than one half above it. *)
Lemma nint_cases (x : float) (r : R) :
  Binary64.value x = Some r -> (0 <= r)%R -> (r + 0.5 < IZR (INT_MAX + 1))%R ->
  exists z,
    Binary64.nint x = Ok (Z.to_N z) /\ 0 <= z < 2 ^ 31 /\
    (IZR z - 1 < r < IZR z + 0.5)%R.
Proof.
  intros Hv Hr Hlt. destruct (eq_below_half x) as [->|Hne].
  - exists 1. rewrite below_half_value in Hv. injection Hv as <-.
    split; [vm_compute; reflexivity|]. split; [lia|]. lra.
  - exists (Zfloor (r + 0.5)).
    split; [exact (nint_floor_of_value x r Hv Hr Hlt Hne)|].
    pose proof (Zfloor_bound (r + 0.5)) as [H1 H2].
    split; [|lra]. split.
    + apply Zfloor_lub. lra.
    + apply lt_IZR. change (INT_MAX + 1) with (2 ^ 31) in Hlt. lra.
Qed.

(** The body of [att] on the number [r]: its ceiling. *)
Lemma att_of_value (r : float) (v : R) :
  Binary64.value r = Some v -> (0 <= v)%R -> (v + 0.5 < IZR (INT_MAX + 1))%R ->
  (let* t := Binary64.nint r in
   if (Binary64.distance_to_double t <? r)%float
   then Ok ((t + 1) mod (Binary64.distance_max + 1))%N
   else Ok t) = Ok (Z.to_N (Zceil v)).
Proof.
  intros Hv Hv0 Hlt.
  destruct (nint_cases r v Hv Hv0 Hlt) as (z & -> & Hz & Hzv). cbn [bind].
  assert (Ht : Z.of_N (Z.to_N z) = z) by lia.
  rewrite (ltb_value _ r (IZR z) v); [|rewrite <- Ht at 2; apply distance_to_double_value; lia
                                     |exact Hv|apply IZR_le; lia|exact Hv0].
  destruct (Rlt_dec (IZR z) v) as [Hzr|Hzr]; f_equal.
  - replace (Zceil v) with (z + 1) by (symmetry; apply Zceil_eq; rewrite plus_IZR; lra).
    rewrite N.mod_small.
    + lia.
    + change (Binary64.distance_max + 1)%N with (Z.to_N (2 ^ 32)). lia.
  - f_equal. symmetry. apply Zceil_eq. lra.
Qed.

(** [euc_2D] and [ceil_2D] on the number they round. *)
Lemma euc_2D_ceil_2D_of_value (i j : Binary64.Node) (v : R) :
  Binary64.value (Binary64.distance i j) = Some v ->
  (v + 0.5 < IZR (INT_MAX + 1))%R ->
  exists a : N,
    Binary64.euc_2D i j = Ok a /\
    Binary64.ceil_2D i j = Ok (Z.to_N (Zceil v)) /\
    (a <= Z.to_N (Zceil v) <= a + 1)%N.
Proof.
  intros Hv Hlt.
  pose proof (sqrt_value_nonneg _ v Hv) as Hv0.
  destruct (nint_cases _ v Hv Hv0 Hlt) as (z & Hnint & Hz & Hzv).
  assert (Hc : z <= Zceil v <= z + 1).
  { pose proof (Zceil_bound v) as [H1 H2]. split.
    - apply Z.lt_succ_r. apply lt_IZR. rewrite succ_IZR. lra.
    - apply Z.lt_succ_r. apply lt_IZR. rewrite succ_IZR, plus_IZR. lra. }
  exists (Z.to_N z). split; [exact Hnint|]. split; [|lia].
  unfold Binary64.ceil_2D. cbv zeta.
  change (sqrt _) with (Binary64.distance i j).
  rewrite (ceil_value _ v Hv).
  replace ((0 <=? Zceil v) && (Zceil v <=? Z.of_N Binary64.distance_max)) with true;
    [reflexivity|].
  symmetry. apply andb_true_intro. split; apply Z.leb_le; [lia|].
  change (Z.of_N Binary64.distance_max) with (2 ^ 32 - 1). lia.
Qed.

End Binary64_distances.

Local Open Scope R_scope.

(** ** The GEO distance on an arithmetic *)


(** ** The example of the GEO distance *)






(** The GEO distance on the real numbers is the one of their arithmetic. *)
Lemma geo_exact (distance_max : N) (i j : Node) :
  Machine.geo Machine.exact distance_max (exact_node i) (exact_node j) =
    geo distance_max i j.
Proof. reflexivity. Qed.

Local Close Scope R_scope.

(** * The claims *)




(** C2, as amended. For an EXPLICIT instance whose dimension, type and
    format keys are found, the loader throws on the data section exactly
    when no EDGE_WEIGHT_SECTION keyword is followed by a number and white
    space ([occurs], the meaning of the expression, not a run of the
    matcher); once such a section is found the loader completes and returns
    a square matrix of the dimension, however many numbers the section
    holds and whatever follows them. *)
Theorem explicit_section_decides
    (distance_max : N) (get_index : string -> N * bool * string)
    (get_double : string -> R * bool * string)
    (input : string) (n : N) (ewf : EWF) :
  parse_dimension input = Ok n ->
  parse_ewt input = Ok EXPLICIT ->
  parse_ewf EXPLICIT input = Ok ewf ->
  (~ occurs ews_rgx input ->
   tsplib_loader_new distance_max get_index get_double input =
     Throw (custom_exception
              ("incorrect " ++ quoted "EDGE_WEIGHT_SECTION" ++ "."))) /\
  (occurs ews_rgx input ->
     exists ld,
       tsplib_loader_new distance_max get_index get_double input = Ok ld /\
       _dimension ld = n /\
       regex_search ews_rgx input = Some (_data_section ld) /\
       square n (get_matrix ld)).
Proof.
  intros Hdim Hewt Hewf. unfold tsplib_loader_new.
  rewrite Hdim, Hewt. cbn [bind]. rewrite Hewf. cbn [bind].
  unfold parse_data_section. split.
  - intros Hno. destruct (regex_search ews_rgx input) as [ds|] eqn:Hds;
      [|reflexivity].
    exfalso. apply Hno, regex_search_occurs. eauto.
  - intros Hocc. apply regex_search_occurs in Hocc as [ds Hds].
    rewrite Hds. cbn [bind].
    destruct (edge_weight_section_digit _ _ Hds) as (c & ds' & -> & Hc).
    destruct (explicit_fill_total distance_max n ewf (String c ds'))
      as (m' & Hfill & Hsq).
    + exact (parse_dimension_bound _ _ Hdim).
    + exact (parse_ewf_not_none _ _ Hewf).
    + simpl. rewrite (digit_not_space c Hc). discriminate.
    + rewrite Hfill. cbn [bind]. eexists. split; [reflexivity|]. simpl. auto.
Qed.

Lemma explicit_section_decides_witness :
  exists ld,
    load32 short3_text = Ok ld /\
    _dimension ld = 3 /\
    regex_search ews_rgx short3_text = Some (_data_section ld) /\
    square 3 (get_matrix ld).
Proof.
  apply (explicit_section_decides UINT32_MAX get_index_decimal
           get_double_integral short3_text 3 UPPER_ROW).
  - vm_compute. reflexivity.
  - vm_compute. reflexivity.
  - vm_compute. reflexivity.
  - apply regex_search_occurs. eexists. vm_compute. reflexivity.
Defined.

(** C2, as stated, fails: the checks of the number of values are commented
    out. A FULL_MATRIX of dimension 2 with three numbers, one with a word
    among its numbers, and an UPPER_ROW of dimension 3 with two numbers all
    load: an entry without a number keeps its zero in the first layout and
    repeats the last number read in the second. *)
Lemma short_data_section_loads :
  load32 short2_text = Ok short2_loaded /\
  load32 word2_text = Ok word2_loaded /\
  load32 short3_text = Ok short3_loaded.
Proof. split; [|split]; vm_compute; reflexivity. Qed.

(** C3, as amended. On the [double] of the machine, for every [x] that is
    not negative with [x + 0.5] below [2^31], the largest number below one
    half apart, [nint x] is the floor of [x + 0.5]: a half rounds up. Every
    value [nint] receives in EUC_2D and in ATT is a square root; a square
    root that is a number is not negative, and the equality holds for it on
    the same conditions. *)
Theorem nint_is_floor_of_sum :
  (forall (x : PrimFloat.float) (r : R),
      Binary64.value x = Some r -> (0 <= r)%R ->
      (r + 0.5 < IZR (INT_MAX + 1))%R -> x <> Binary64.below_half ->
      Binary64.nint x = Ok (Z.to_N (Zfloor (r + 0.5)))) /\
  (forall (a : PrimFloat.float) (r : R),
      Binary64.value (PrimFloat.sqrt a) = Some r ->
      (0 <= r)%R /\
      ((r + 0.5 < IZR (INT_MAX + 1))%R ->
       PrimFloat.sqrt a <> Binary64.below_half ->
       Binary64.nint (PrimFloat.sqrt a) = Ok (Z.to_N (Zfloor (r + 0.5))))).
Proof.
  split.
  - intros x r. apply Binary64_value.nint_floor_of_value.
  - intros a r Hv.
    pose proof (Binary64_order.sqrt_value_nonneg a r Hv) as Hr.
    split; [exact Hr|]. intros Hlt Hne.
    exact (Binary64_value.nint_floor_of_value _ r Hv Hr Hlt Hne).
Qed.

Lemma nint_is_floor_of_sum_witness :
  Binary64.nint Binary64_points.two_and_a_half = Ok (Z.to_N (Zfloor (2.5 + 0.5)%R)).
Proof.
  apply (proj1 nint_is_floor_of_sum Binary64_points.two_and_a_half 2.5%R).
  - unfold Binary64.value.
    replace (FloatOps.Prim2SF Binary64_points.two_and_a_half)
      with (SpecFloat.S754_finite false 5629499534213120 (-51))
      by (vm_compute; reflexivity).
    cbv beta iota zeta. f_equal.
    change (2 ^ 51)%Z with 2251799813685248%Z. lra.
  - lra.
  - change (INT_MAX + 1)%Z with 2147483648%Z. lra.
  - intros E. apply (f_equal FloatOps.Prim2SF) in E. vm_compute in E. discriminate.
Defined.

(** C3, as stated, fails on the machine: the sum [x + 0.5] is rounded. For
    the largest [double] below one half, 0.49999999999999994, the floor of
    [x + 0.5] is 0, and the sum rounds to 1, so that [nint] returns 1. This
    [double] occurs in EUC_2D: it is the distance of the point
    (0.49999999999999994, 0) from the origin, which is returned as 1. *)
Lemma nint_below_half_is_one :
  Binary64.value Binary64.below_half
    = Some (9007199254740991 / 18014398509481984)%R /\
  Zfloor (9007199254740991 / 18014398509481984 + 0.5)%R = 0%Z /\
  Binary64.nint Binary64.below_half = Ok 1%N /\
  Binary64.euc_2D Binary64_points.near_origin Binary64_points.origin = Ok 1%N.
Proof.
  split; [exact Binary64_distances.below_half_value|]. split; [|split].
  - apply Zfloor_eq. lra.
  - vm_compute. reflexivity.
  - vm_compute. reflexivity.
Qed.

(** C4. Every instance the loader returns, of every edge weight type and
    format, has a zero diagonal: [m[i][i] = 0] for all [i] below the
    dimension, also where the data section gave other values. *)
Theorem diagonal_is_zero
    (distance_max : N) (get_index : string -> N * bool * string)
    (get_double : string -> R * bool * string)
    (input : string) (ld : tsplib_loader) (i : N) :
  tsplib_loader_new distance_max get_index get_double input = Ok ld ->
  i < _dimension ld ->
  matrix_get (get_matrix ld) i i = Ok 0.
Proof.
  intros Hload Hi.
  destruct (loaded_matrix _ _ _ _ _ Hload) as (_ & Hdiag & _).
  exact (Hdiag i Hi).
Qed.

Lemma diagonal_is_zero_witness :
  load32 full2_text = Ok full2_loaded /\
  matrix_get (get_matrix full2_loaded) 1 1 = Ok 0.
Proof.
  split; [exact full2_load|].
  apply (diagonal_is_zero UINT32_MAX get_index_decimal get_double_integral
           full2_text full2_loaded 1).
  - exact full2_load.
  - reflexivity.
Defined.

(** C5. For the two points (0,0) and (1,0) of an ATT instance,
    [r = sqrt(1/10)], [t = nint(r) = 0], [t < r], and the distance is
    [t + 1 = 1]: the matrix of the two nodes has [m[0][1] = 1]. *)
Theorem att_rounding_quirk (distance_max : N) (index_i index_j : N) :
  1 <= distance_max ->
  let i := {| Node_index := index_i; Node_x := 0; Node_y := 0 |} in
  let j := {| Node_index := index_j; Node_x := 1; Node_y := 0 |} in
  let r := sqrt (1 / 10) in
  nint distance_max r = Ok 0 /\
  (distance_to_double 0 < r)%R /\
  att distance_max i j = Ok 1 /\
  (exists m, fill_from_nodes distance_max ATT 2 [i; j] (matrix_new 2) = Ok m /\
             matrix_get m 0 1 = Ok 1).
Proof.
  intros Hmax i j r.
  pose proof (att_unit_apart distance_max index_i index_j Hmax) as Hatt.
  split; [apply nint_sqrt_tenth|]. split.
  - unfold distance_to_double, r. simpl. apply sqrt_tenth_bounds.
  - split; [exact Hatt|].
    exists [[0; 1]; [1; 0]]. split; [|reflexivity].
    apply fill_att_pair. exact Hatt.
Qed.

Lemma att_rounding_quirk_witness :
  att UINT32_MAX {| Node_index := 1; Node_x := 0; Node_y := 0 |}
                 {| Node_index := 2; Node_x := 1; Node_y := 0 |} = Ok 1.
Proof.
  apply (att_rounding_quirk UINT32_MAX 1 2).
  vm_compute. discriminate.
Defined.



(** C7. The UPPER_ROW instance of dimension 3 with the data section
    [10 15 20] loads as the matrix of rows [0,10,15], [10,0,20], [15,20,0],
    whatever the width of [distance_t] that holds 20: the three values are
    [m[0][1]], [m[0][2]], [m[1][2]] in this order, each mirrored below the
    diagonal. *)
Theorem upper_row_example
    (distance_max : N) (get_index : string -> N * bool * string)
    (get_double : string -> R * bool * string) :
  20 <= distance_max ->
  tsplib_loader_new distance_max get_index get_double upper3_text =
    Ok upper3_loaded /\
  _data_section upper3_loaded = lines ["10 15 20"] /\
  get_matrix upper3_loaded = [[0; 10; 15]; [10; 0; 20]; [15; 20; 0]].
Proof.
  intros Hmax. split; [|split; reflexivity].
  unfold tsplib_loader_new.
  replace (parse_dimension upper3_text) with (Ok (A:=N) 3)
    by (vm_compute; reflexivity).
  replace (parse_ewt upper3_text) with (Ok EXPLICIT) by (vm_compute; reflexivity).
  cbn [bind].
  replace (parse_ewf EXPLICIT upper3_text) with (Ok UPPER_ROW)
    by (vm_compute; reflexivity).
  replace (parse_data_section EXPLICIT upper3_text)
    with (Ok (lines ["10 15 20"])) by (vm_compute; reflexivity).
  cbn [bind].
  destruct (explicit_fill_total distance_max 3 UPPER_ROW (lines ["10 15 20"]))
    as (m' & Hfill & Hsq); [vm_compute; discriminate|discriminate|discriminate|].
  rewrite Hfill. cbn [bind]. unfold upper3_loaded. do 2 f_equal.
  pose proof (fill_upper_row_layout distance_max 3 [10; 15; 20] _ _ _
                ltac:(vm_compute; discriminate) eq_refl
                (upper3_yields distance_max Hmax) Hfill) as Hlayout.
  pose proof Hfill as Hdiag. unfold fill_upper_row in Hdiag. inv_bind Hdiag.
  destruct a as [[d0 c0] m0].
  apply zero_diagonal_spec in Hdiag as (Hdiag & _).
  apply (matrix_ext 3); [exact Hsq|split; [reflexivity|repeat constructor]|].
  intros i j Hi Hj.
  assert (Hcases : forall k, k < 3 -> k = 0 \/ k = 1 \/ k = 2) by (intros k Hk; lia).
  destruct (Hcases i Hi) as [Ei|[Ei|Ei]]; destruct (Hcases j Hj) as [Ej|[Ej|Ej]];
    subst i j; try (rewrite Hdiag by lia; reflexivity);
    match goal with
    | |- matrix_get _ ?a ?b = _ =>
        first
          [ destruct (Hlayout a b ltac:(lia) ltac:(lia)) as (v & Hv & H1 & H2);
            rewrite H1
          | destruct (Hlayout b a ltac:(lia) ltac:(lia)) as (v & Hv & H1 & H2);
            rewrite H2 ];
        vm_compute in Hv; injection Hv as <-; reflexivity
    end.
Qed.

Lemma upper_row_example_witness :
  load32 upper3_text = Ok upper3_loaded.
Proof.
  apply (upper_row_example UINT32_MAX get_index_decimal get_double_integral).
  vm_compute. discriminate.
Defined.

(** C8. For a loaded instance and a tour of at least one city, every step
    a city of the instance, [get_route] gives the key [tour] with the ranks
    [step + 1] of the steps in visit order, one for each step, separated by
    commas; before it comes the key [route] with the pairs [[x,y]] of the
    steps in visit order exactly when the edge weight type is not EXPLICIT,
    in which case the instance holds a node for every city. *)
Theorem get_route_of_tour
    (to_string_double : R -> string) (index_max : N)
    (distance_max : N) (get_index : string -> N * bool * string)
    (get_double : string -> R * bool * string)
    (input : string) (ld : tsplib_loader) (tour : list N) :
  tsplib_loader_new distance_max get_index get_double input = Ok ld ->
  tour <> [] ->
  Forall (fun step => step < _dimension ld) tour ->
  _dimension ld <= index_max ->
  get_route to_string_double index_max ld tour =
    Ok ((if EWT_eqb (_ewt ld) EXPLICIT then EmptyString
         else quoted "route" ++ ":["
                ++ String.concat ","
                     (map (pair_text to_string_double (_nodes ld)) tour)
                ++ "],")
        ++ quoted "tour" ++ ":["
        ++ String.concat "," (map (fun step => to_string (step + 1)) tour)
        ++ "],")%string /\
  (_ewt ld <> EXPLICIT -> length (_nodes ld) = N.to_nat (_dimension ld)).
Proof.
  intros Hload Htour Hsteps Hdim.
  destruct (loaded_nodes _ _ _ _ _ Hload) as [Hnone Hnodes].
  split; [|exact Hnodes].
  rewrite get_route_steps; [|exact Htour|].
  - assert (Hrank : map (fun step => to_string (rank index_max step)) tour =
                    map (fun step => to_string (step + 1)) tour).
    { clear Htour. induction Hsteps as [|step tour Hstep _ IH]; [reflexivity|].
      simpl. rewrite IH. f_equal. f_equal. unfold rank.
      destruct (Z.of_N index_max <=? INT_MAX)%Z; [reflexivity|].
      apply N.mod_small. lia. }
    rewrite Hrank. destruct (_ewt ld); try reflexivity. contradiction.
  - intros Hc. rewrite Hnodes by (intros E; rewrite E in Hc; discriminate).
    eapply Forall_impl; [exact Hsteps|]. intros step Hstep. simpl in Hstep. lia.
Qed.

Lemma get_route_of_tour_witness :
  get_route (fun _ => "_") UINT32_MAX att2_loaded [1; 0] =
    Ok (quoted "route" ++ ":[[_,_],[_,_]]," ++ quoted "tour" ++ ":[2,1],")%string.
Proof.
  apply (get_route_of_tour (fun _ => "_") UINT32_MAX UINT32_MAX
           get_index_decimal get_double_integral att2_text att2_loaded [1; 0]).
  - exact att2_load.
  - discriminate.
  - repeat constructor.
  - vm_compute. discriminate.
Defined.

(** C9, as amended. The constructor does not look at the value of the
    dimension: an input with DIMENSION 0 whose other keys and data section
    are found, in any layout but UPPER_ROW, is accepted and loads as the
    empty matrix. *)
Theorem dimension_zero_accepted
    (distance_max : N) (get_index : string -> N * bool * string)
    (get_double : string -> R * bool * string)
    (input : string) (ewt : EWT) (ewf : EWF) (ds : string) :
  parse_dimension input = Ok 0 ->
  parse_ewt input = Ok ewt ->
  parse_ewf ewt input = Ok ewf ->
  parse_data_section ewt input = Ok ds ->
  ewf <> UPPER_ROW ->
  tsplib_loader_new distance_max get_index get_double input =
    Ok {| _dimension := 0; _ewt := ewt; _ewf := ewf; _data_section := ds;
          _matrix := []; _nodes := [] |}.
Proof.
  intros Hdim Hewt Hewf Hds Hne. unfold tsplib_loader_new.
  rewrite Hdim, Hewt. simpl. rewrite Hewf. simpl. rewrite Hds. simpl.
  destruct ewt; try (injection Hewf as <-; reflexivity).
  pose proof (parse_ewf_not_none _ _ Hewf) as Hnone.
  destruct ewf; [contradiction|reflexivity|contradiction|reflexivity|reflexivity].
Qed.

Lemma dimension_zero_accepted_witness :
  load32 dim0_text = Ok dim0_loaded.
Proof.
  apply (dimension_zero_accepted UINT32_MAX get_index_decimal get_double_integral
           dim0_text EXPLICIT FULL_MATRIX (lines ["0"])).
  - vm_compute. reflexivity.
  - vm_compute. reflexivity.
  - vm_compute. reflexivity.
  - vm_compute. reflexivity.
  - discriminate.
Defined.

(** C9, as stated, fails: [dim0_text] has DIMENSION 0 and the constructor
    returns, with the empty matrix, where the claim has it throw. *)
Lemma dimension_zero_not_rejected :
  parse_dimension dim0_text = Ok 0 /\
  load32 dim0_text = Ok dim0_loaded /\
  get_matrix dim0_loaded = [].
Proof. split; [|split]; vm_compute; reflexivity. Qed.

(** C10. On the empty tour [get_route] has no trailing comma to drop: each
    [pop_back] removes the opening bracket, and the result is the fragment
    ["tour":],], after the fragment ["route":],] when the instance has
    coordinates. *)
Theorem get_route_empty_tour
    (to_string_double : R -> string) (index_max : N) (ld : tsplib_loader) :
  get_route to_string_double index_max ld [] =
    Ok ((if coordinate_based (_ewt ld) then quoted "route" ++ ":]," else EmptyString)
        ++ quoted "tour" ++ ":],")%string.
Proof. unfold get_route. destruct (_ewt ld); reflexivity. Qed.

(** * Further properties of the loader *)

(** ** The distance functions *)

Local Open Scope R_scope.

(** [geo_radians] never throws. *)
Lemma geo_radians_cases (c : R) :
  (exists v, geo_radians c = Ok v) \/ geo_radians c = Undefined.
Proof.
  unfold geo_radians. destruct (double_to_int c) as [z|e|] eqn:E.
  - left. simpl. eauto.
  - unfold double_to_int in E.
    destruct ((INT_MIN <=? trunc c)%Z && (trunc c <=? INT_MAX)%Z); discriminate.
  - right. reflexivity.
Qed.

(** Whatever the type, the distance of two nodes does not depend on their
    order. *)
Lemma dist_f_swap (distance_max : N) (ewt : EWT) (i j : Node) :
  dist_f distance_max ewt i j = dist_f distance_max ewt j i.
Proof.
  assert (Hsq : ((Node_x i - Node_x j) * (Node_x i - Node_x j)
                 + (Node_y i - Node_y j) * (Node_y i - Node_y j) =
                 (Node_x j - Node_x i) * (Node_x j - Node_x i)
                 + (Node_y j - Node_y i) * (Node_y j - Node_y i))) by ring.
  assert (Heuc : euc_2D distance_max i j = euc_2D distance_max j i).
  { unfold euc_2D. cbv zeta. now rewrite Hsq. }
  destruct ewt; simpl; try exact Heuc.
  - unfold ceil_2D. cbv zeta. now rewrite Hsq.
  - unfold geo.
    destruct (geo_radians_cases (Node_x i)) as [[lat_i ->]| ->];
      destruct (geo_radians_cases (Node_y i)) as [[lon_i ->]| ->];
      destruct (geo_radians_cases (Node_x j)) as [[lat_j ->]| ->];
      destruct (geo_radians_cases (Node_y j)) as [[lon_j ->]| ->];
      cbn [bind]; try reflexivity.
    replace (lon_j - lon_i) with (- (lon_i - lon_j)) by ring.
    replace (lat_j - lat_i) with (- (lat_i - lat_j)) by ring.
    rewrite !cos_neg. now rewrite (Rplus_comm lat_j lat_i).
  - unfold att. cbv zeta. now rewrite Hsq.
Qed.

Lemma nint_zero (distance_max : N) : nint distance_max 0 = Ok 0%N.
Proof.
  unfold nint, double_to_int. rewrite trunc_nonneg by lra.
  replace (Zfloor (0 + 0.5)) with 0%Z by (symmetry; apply Zfloor_eq; lra).
  reflexivity.
Qed.

(** [nint] on a value whose rounding is known. *)
Lemma nint_value (distance_max : N) (x : R) (z : Z) :
  (INT_MAX <= Z.of_N distance_max)%Z ->
  (0 <= z < INT_MAX)%Z -> IZR z <= x + 0.5 < IZR z + 1 ->
  nint distance_max x = Ok (Z.to_N z).
Proof.
  intros Hmax Hz Hx.
  assert (Hup : IZR z + 1 <= IZR (INT_MAX + 1)).
  { rewrite <- (plus_IZR z 1). apply IZR_le. lia. }
  assert (H0 : 0 <= IZR z) by (apply IZR_le; lia).
  unfold nint.
  destruct (double_to_int_floor (x + 0.5)) as [-> _]; [lra|lra|].
  cbn [bind]. rewrite (Zfloor_eq z) by exact Hx.
  rewrite int_to_distance_small by lia. reflexivity.
Qed.

(** The distances of the three points on a line. *)
Lemma euclid_line :
  euclid line_0 line_1 = 1.4 /\ euclid line_1 line_2 = 1.4 /\
  euclid line_0 line_2 = 2.8.
Proof.
  unfold euclid, line_0, line_1, line_2. cbn [Node_x Node_y].
  replace ((0 - 1.4) * (0 - 1.4) + (0 - 0) * (0 - 0)) with (1.4 * 1.4) by lra.
  replace ((1.4 - 2.8) * (1.4 - 2.8) + (0 - 0) * (0 - 0)) with (1.4 * 1.4) by lra.
  replace ((0 - 2.8) * (0 - 2.8) + (0 - 0) * (0 - 0)) with (2.8 * 2.8) by lra.
  rewrite !sqrt_square by lra. auto.
Qed.

Lemma euc_2D_line (distance_max : N) :
  (INT_MAX <= Z.of_N distance_max)%Z ->
  euc_2D distance_max line_0 line_1 = Ok 1%N /\
  euc_2D distance_max line_1 line_2 = Ok 1%N /\
  euc_2D distance_max line_0 line_2 = Ok 3%N.
Proof.
  intros Hmax. destruct euclid_line as (H01 & H12 & H02).
  unfold euc_2D. cbv zeta.
  fold (euclid line_0 line_1) (euclid line_1 line_2) (euclid line_0 line_2).
  rewrite H01, H12, H02. repeat split.
  - apply (nint_value distance_max 1.4 1 Hmax); [unfold INT_MAX; lia|lra].
  - apply (nint_value distance_max 1.4 1 Hmax); [unfold INT_MAX; lia|lra].
  - apply (nint_value distance_max 2.8 3 Hmax); [unfold INT_MAX; lia|lra].
Qed.

Local Close Scope R_scope.


Local Open Scope R_scope.

(** X1. The four distance functions are symmetric: the distance of [i] and
    [j] is that of [j] and [i], also when it is undefined. The loader
    computes each pair once and writes it on both sides of the diagonal;
    nothing is lost by it. *)
Theorem distance_is_symmetric (distance_max : N) (i j : Node) :
  euc_2D distance_max i j = euc_2D distance_max j i /\
  ceil_2D distance_max i j = ceil_2D distance_max j i /\
  att distance_max i j = att distance_max j i /\
  geo distance_max i j = geo distance_max j i.
Proof.
  split; [exact (dist_f_swap distance_max EUC_2D i j)|].
  split; [exact (dist_f_swap distance_max CEIL_2D i j)|].
  split; [exact (dist_f_swap distance_max ATT i j)|].
  exact (dist_f_swap distance_max GEO i j).
Qed.

(** X2. EUC_2D, CEIL_2D and ATT give the distance 0 from a node to itself,
    whatever its coordinates and the width of [distance_t]. *)
Theorem self_distance_is_zero (distance_max : N) (i : Node) :
  euc_2D distance_max i i = Ok 0%N /\
  ceil_2D distance_max i i = Ok 0%N /\
  att distance_max i i = Ok 0%N.
Proof.
  assert (H0 : (Node_x i - Node_x i) * (Node_x i - Node_x i)
               + (Node_y i - Node_y i) * (Node_y i - Node_y i) = 0) by ring.
  split; [|split].
  - unfold euc_2D. cbv zeta. rewrite H0, sqrt_0. apply nint_zero.
  - unfold ceil_2D. cbv zeta. rewrite H0, sqrt_0.
    replace (Zceil 0) with 0%Z by (symmetry; apply Zceil_eq; lra).
    unfold double_to_distance. rewrite (trunc_IZR 0). simpl.
    destruct (Z.of_N distance_max) eqn:E; try reflexivity. lia.
  - unfold att. cbv zeta. rewrite H0.
    replace (0 / 10.0) with 0 by lra. rewrite sqrt_0, nint_zero. cbn [bind].
    destruct (Rlt_dec (distance_to_double 0) 0) as [H|_]; [|reflexivity].
    unfold distance_to_double in H. simpl in H. lra.
Qed.

(** X3. GEO gives the distance 1, not 0, from a node to itself: the angle
    is [acos 1 = 0] and the formula adds [1.0] before it truncates. The
    constructor never calls the function on the diagonal, where it writes
    0. *)
Theorem geo_self_distance_is_one (distance_max : N) (i : Node) :
  (1 <= distance_max)%N ->
  int_coordinate (Node_x i) -> int_coordinate (Node_y i) ->
  geo distance_max i i = Ok 1%N.
Proof.
  intros Hmax Hx Hy. unfold geo.
  rewrite !geo_radians_formula by assumption. cbn [bind].
  rewrite !Rminus_diag, cos_0.
  replace (0.5 * ((1.0 + 1) * 1
                  - (1.0 - 1) * cos (degrees_minutes_radians (Node_x i)
                                     + degrees_minutes_radians (Node_x i))))
    with 1 by lra.
  rewrite acos_1.
  replace (6378.388 * 0 + 1.0) with (IZR 1) by lra.
  unfold double_to_int. rewrite trunc_IZR. cbn [bind Z.leb andb].
  simpl. unfold int_to_distance.
  rewrite Z.mod_small by lia. reflexivity.
Qed.

Lemma geo_self_distance_is_one_witness :
  geo UINT32_MAX geo_origin geo_origin = Ok 1%N.
Proof.
  apply (geo_self_distance_is_one UINT32_MAX geo_origin).
  - vm_compute. discriminate.
  - apply (int_coordinate_IZR 0). vm_compute. split; discriminate.
  - apply (int_coordinate_IZR 0). vm_compute. split; discriminate.
Defined.

(** X4. On the [double] of the machine, the ATT distance is the ceiling of
    the number [r] that [att] computes, the square root of
    [(xd*xd + yd*yd) / 10.0] as the machine rounds it, when [r + 0.5] is
    below [2^31]: [t = nint(r)], and one more when [t < r], rounds [r]
    up. *)
Theorem att_is_ceiling_of_r (i j : Binary64.Node) (v : R) :
  Binary64.value (Binary64.att_r i j) = Some v ->
  (v + 0.5 < IZR (INT_MAX + 1))%R ->
  Binary64.att i j = Ok (Z.to_N (Zceil v)).
Proof.
  intros Hv Hlt.
  pose proof (Binary64_order.sqrt_value_nonneg _ v Hv) as Hv0.
  exact (Binary64_distances.att_of_value _ v Hv Hv0 Hlt).
Qed.

Lemma att_is_ceiling_of_r_witness :
  Binary64.att Binary64_points.origin Binary64_points.ten_east =
    Ok (Z.to_N (Zceil (7120816245988179 / 2251799813685248)%R)).
Proof.
  apply (att_is_ceiling_of_r Binary64_points.origin Binary64_points.ten_east).
  - unfold Binary64.value.
    replace (FloatOps.Prim2SF
               (Binary64.att_r Binary64_points.origin Binary64_points.ten_east))
      with (SpecFloat.S754_finite false 7120816245988179 (-51))
      by (vm_compute; reflexivity).
    reflexivity.
  - change (INT_MAX + 1)%Z with 2147483648%Z. lra.
Defined.

(** X5. On the [double] of the machine, EUC_2D and CEIL_2D round the same
    number, the square root of [xd*xd + yd*yd] as the machine rounds it.
    When this number plus 0.5 is below [2^31], both return, CEIL_2D
    returns its ceiling, and the two distances differ by at most one:
    [euc_2D <= ceil_2D <= euc_2D + 1]. *)
Theorem euc_2D_within_one_of_ceil_2D (i j : Binary64.Node) (v : R) :
  Binary64.value (Binary64.distance i j) = Some v ->
  (v + 0.5 < IZR (INT_MAX + 1))%R ->
  exists a : N,
    Binary64.euc_2D i j = Ok a /\
    Binary64.ceil_2D i j = Ok (Z.to_N (Zceil v)) /\
    (a <= Z.to_N (Zceil v) <= a + 1)%N.
Proof. exact (Binary64_distances.euc_2D_ceil_2D_of_value i j v). Qed.

Lemma euc_2D_within_one_of_ceil_2D_witness :
  exists a : N,
    Binary64.euc_2D Binary64_points.origin Binary64_points.near_origin = Ok a /\
    Binary64.ceil_2D Binary64_points.origin Binary64_points.near_origin =
      Ok (Z.to_N (Zceil (9007199254740991 / 18014398509481984)%R)) /\
    (a <= Z.to_N (Zceil (9007199254740991 / 18014398509481984)%R) <= a + 1)%N.
Proof.
  apply (euc_2D_within_one_of_ceil_2D Binary64_points.origin
           Binary64_points.near_origin).
  - unfold Binary64.value.
    replace (FloatOps.Prim2SF
               (Binary64.distance Binary64_points.origin Binary64_points.near_origin))
      with (SpecFloat.S754_finite false 9007199254740991 (-54))
      by (vm_compute; reflexivity).
    reflexivity.
  - change (INT_MAX + 1)%Z with 2147483648%Z. lra.
Defined.

(** X6. The CEIL_2D distances of the machine need not satisfy the triangle
    inequality: the three points [- (1 - 2^-53)], [2^-52] and [2 + 2^-51]
    of a line are at the distances 1, 2 and 4, the differences of the
    coordinates being rounded to 1, 2 and a number above 3. *)
Theorem ceil_2D_triangle_inequality_fails :
  exists (i j k : Binary64.Node) (a b c : N),
    Binary64.ceil_2D i j = Ok a /\ Binary64.ceil_2D j k = Ok b /\
    Binary64.ceil_2D i k = Ok c /\ (a + b < c)%N.
Proof.
  exists Binary64_points.ceil_a, Binary64_points.ceil_b, Binary64_points.ceil_c,
    1%N, 2%N, 4%N.
  repeat split; vm_compute; reflexivity.
Qed.

(** X7. The ATT distances of the machine need not satisfy the triangle
    inequality: with [s] the [double] nearest to the square root of 10,
    which is above it, the points [-s], [0] and [4s] of a line are at the
    distances 1, 4 and 6. The squares of [s] and [4s] over 10 round to 1
    and 16, whose roots are whole, and that of [5s] to a number above
    25. *)
Theorem att_triangle_inequality_fails :
  exists (i j k : Binary64.Node) (a b c : N),
    Binary64.att i j = Ok a /\ Binary64.att j k = Ok b /\
    Binary64.att i k = Ok c /\ (a + b < c)%N.
Proof.
  exists Binary64_points.att_a, Binary64_points.att_b, Binary64_points.att_c,
    1%N, 4%N, 6%N.
  repeat split; vm_compute; reflexivity.
Qed.

(** X8. The EUC_2D distances need not satisfy the triangle inequality: the
    three points (0,0), (1.4,0) and (2.8,0) of a line are at the distances
    1, 1 and 3, rounding 1.4 down twice and 2.8 up. *)
Theorem euc_2D_triangle_inequality_fails (distance_max : N) :
  (INT_MAX <= Z.of_N distance_max)%Z ->
  exists (i j k : Node) (a b c : N),
    euc_2D distance_max i j = Ok a /\ euc_2D distance_max j k = Ok b /\
    euc_2D distance_max i k = Ok c /\ (a + b < c)%N.
Proof.
  intros Hmax. destruct (euc_2D_line distance_max Hmax) as (H01 & H12 & H02).
  exists line_0, line_1, line_2, 1%N, 1%N, 3%N. repeat split; assumption || lia.
Qed.

Lemma euc_2D_triangle_inequality_fails_witness :
  exists (i j k : Node) (a b c : N),
    euc_2D UINT32_MAX i j = Ok a /\ euc_2D UINT32_MAX j k = Ok b /\
    euc_2D UINT32_MAX i k = Ok c /\ (a + b < c)%N.
Proof.
  apply (euc_2D_triangle_inequality_fails UINT32_MAX).
  vm_compute. discriminate.
Defined.

Local Close Scope R_scope.

(** The three points of the line on binary64, 1.4 and 2.8 being the numbers
    nearest to them: the same distances. *)
Module Binary64_line.

Import PrimFloat.
Local Open Scope float_scope.

Lemma euc_2D_line_binary64 :
  let p0 := Binary64.point 0 0 in
  let p1 := Binary64.point 0x1.6666666666666p+0 0 in
  let p2 := Binary64.point 0x1.6666666666666p+1 0 in
  Binary64.euc_2D p0 p1 = Ok 1%N /\ Binary64.euc_2D p1 p2 = Ok 1%N /\
  Binary64.euc_2D p0 p2 = Ok 3%N.
Proof. repeat split; vm_compute; reflexivity. Qed.

End Binary64_line.


(** ** The header *)

Lemma regex_search_none (p : pattern) (input : string) :
  ~ occurs p input -> regex_search p input = None.
Proof.
  intros Hno. destruct (regex_search p input) as [g|] eqn:E; [|reflexivity].
  exfalso. apply Hno, regex_search_occurs. eauto.
Qed.

(** A text in which the search finds nothing holds no occurrence. *)
Lemma not_occurs (p : pattern) (input : string) :
  regex_search p input = None -> ~ occurs p input.
Proof.
  intros Hnone Hocc. apply regex_search_occurs in Hocc as [g Hg]. congruence.
Qed.

Lemma ewt_of_string_none (type : string) :
  ~ In type EWT_names -> ewt_of_string type = EWT_NONE.
Proof.
  intros Hn. unfold ewt_of_string.
  destruct (String.eqb_spec type "EXPLICIT") as [->|_]; [exfalso; apply Hn; simpl; auto|].
  destruct (String.eqb_spec type "EUC_2D") as [->|_]; [exfalso; apply Hn; simpl; auto|].
  destruct (String.eqb_spec type "CEIL_2D") as [->|_]; [exfalso; apply Hn; simpl; auto|].
  destruct (String.eqb_spec type "GEO") as [->|_]; [exfalso; apply Hn; simpl; auto 6|].
  destruct (String.eqb_spec type "ATT") as [->|_]; [exfalso; apply Hn; simpl; auto 6|].
  reflexivity.
Qed.

Lemma ewf_of_string_none (format : string) :
  ~ In format EWF_names -> ewf_of_string format = EWF_NONE.
Proof.
  intros Hn. unfold ewf_of_string.
  destruct (String.eqb_spec format "FULL_MATRIX") as [->|_]; [exfalso; apply Hn; simpl; auto|].
  destruct (String.eqb_spec format "UPPER_ROW") as [->|_]; [exfalso; apply Hn; simpl; auto|].
  destruct (String.eqb_spec format "UPPER_DIAG_ROW") as [->|_]; [exfalso; apply Hn; simpl; auto|].
  destruct (String.eqb_spec format "LOWER_DIAG_ROW") as [->|_]; [exfalso; apply Hn; simpl; auto 6|].
  reflexivity.
Qed.

Lemma ewf_of_string_name (ewf : EWF) :
  ewf <> EWF_NONE -> ewf_of_string (EWF_name ewf) = ewf.
Proof. destruct ewf; [contradiction|reflexivity..]. Qed.

Lemma ewt_of_string_name (ewt : EWT) :
  ewt <> EWT_NONE -> ewt_of_string (EWT_name ewt) = ewt.
Proof. destruct ewt; [contradiction|reflexivity..]. Qed.

(** What the fields of a loaded instance come from. *)
Lemma loaded_parts (distance_max : N) (get_index : string -> N * bool * string)
    (get_double : string -> R * bool * string)
    (input : string) (ld : tsplib_loader) :
  tsplib_loader_new distance_max get_index get_double input = Ok ld ->
  parse_dimension input = Ok (_dimension ld) /\
  parse_ewt input = Ok (_ewt ld) /\
  parse_ewf (_ewt ld) input = Ok (_ewf ld) /\
  parse_data_section (_ewt ld) input = Ok (_data_section ld).
Proof.
  intros H. unfold tsplib_loader_new in H.
  inv_bind H. rename a into n, Ha into Hn.
  inv_bind H. rename a into ewt, Ha into Hewt.
  inv_bind H. rename a into ewf, Ha into Hewf.
  inv_bind H. rename a into ds, Ha into Hds.
  inv_bind H. destruct a as [m nodes]. injection H as <-. simpl. auto.
Qed.

(** An instance with a format is EXPLICIT, and its data section is the
    text of the group of the EDGE_WEIGHT_SECTION expression. *)
Lemma loaded_format (distance_max : N) (get_index : string -> N * bool * string)
    (get_double : string -> R * bool * string)
    (input : string) (ld : tsplib_loader) :
  tsplib_loader_new distance_max get_index get_double input = Ok ld ->
  _ewf ld <> EWF_NONE ->
  _dimension ld <= SIZE_MAX /\ _ewt ld = EXPLICIT /\
  regex_search ews_rgx input = Some (_data_section ld).
Proof.
  intros Hload Hewf.
  destruct (loaded_parts _ _ _ _ _ Hload) as (Hn & Hewt & Hf & Hds).
  split; [exact (parse_dimension_bound _ _ Hn)|].
  destruct (_ewt ld) eqn:E; simpl in Hf;
    try (injection Hf as Hf; symmetry in Hf; contradiction).
  split; [reflexivity|]. simpl in Hds.
  destruct (regex_search ews_rgx input); [|discriminate]. now injection Hds as ->.
Qed.

(** X9. Without a DIMENSION key followed by a colon, digits and white
    space, the constructor throws [incorrect "DIMENSION" key.], whatever
    else the input holds: the dimension is looked for first. *)
Theorem missing_dimension_key
    (distance_max : N) (get_index : string -> N * bool * string)
    (get_double : string -> R * bool * string) (input : string) :
  ~ occurs dim_rgx input ->
  tsplib_loader_new distance_max get_index get_double input =
    Throw (custom_exception ("incorrect " ++ quoted "DIMENSION" ++ " key.")).
Proof.
  intros Hno. unfold tsplib_loader_new, parse_dimension.
  now rewrite (regex_search_none _ _ Hno).
Qed.

Lemma missing_dimension_key_witness :
  load32 no_dimension_text =
    Throw (custom_exception ("incorrect " ++ quoted "DIMENSION" ++ " key.")).
Proof.
  apply (missing_dimension_key UINT32_MAX get_index_decimal get_double_integral
           no_dimension_text).
  apply not_occurs. vm_compute. reflexivity.
Defined.

(** X10. Once the dimension is read, the edge weight type decides: without
    an EDGE_WEIGHT_TYPE key followed by a colon, capitals (and [_2D]) and
    white space the constructor throws [incorrect "EDGE_WEIGHT_TYPE".];
    with a value that is none of EXPLICIT, EUC_2D, CEIL_2D, GEO and ATT it
    throws [unsupported "EDGE_WEIGHT_TYPE" value: ] followed by the value
    and a full stop; each of the five values gives its type. *)
Theorem edge_weight_type_decides
    (distance_max : N) (get_index : string -> N * bool * string)
    (get_double : string -> R * bool * string) (input : string) (n : N) :
  parse_dimension input = Ok n ->
  (~ occurs ewt_rgx input ->
   tsplib_loader_new distance_max get_index get_double input =
     Throw (custom_exception ("incorrect " ++ quoted "EDGE_WEIGHT_TYPE" ++ "."))) /\
  (forall type,
     regex_search ewt_rgx input = Some type -> ~ In type EWT_names ->
     tsplib_loader_new distance_max get_index get_double input =
       Throw (custom_exception
                ("unsupported " ++ quoted "EDGE_WEIGHT_TYPE" ++ " value: "
                   ++ type ++ "."))) /\
  (forall ewt,
     ewt <> EWT_NONE -> regex_search ewt_rgx input = Some (EWT_name ewt) ->
     parse_ewt input = Ok ewt).
Proof.
  intros Hdim. unfold tsplib_loader_new, parse_ewt. rewrite Hdim. cbn [bind].
  split; [|split].
  - intros Hno. now rewrite (regex_search_none _ _ Hno).
  - intros type Htype Hn. rewrite Htype, (ewt_of_string_none _ Hn). reflexivity.
  - intros ewt Hne Htype. rewrite Htype, (ewt_of_string_name _ Hne).
    destruct ewt; [contradiction|reflexivity..].
Qed.

Lemma edge_weight_type_decides_witness :
  load32 man_2d_text =
    Throw (custom_exception
             ("unsupported " ++ quoted "EDGE_WEIGHT_TYPE" ++ " value: "
                ++ "MAN_2D" ++ ".")).
Proof.
  apply (edge_weight_type_decides UINT32_MAX get_index_decimal get_double_integral
           man_2d_text 2).
  - vm_compute. reflexivity.
  - vm_compute. reflexivity.
  - vm_compute. intros H. repeat (destruct H as [H|H]; [discriminate H|]). exact H.
Defined.

(** X11. For an EXPLICIT instance the edge weight format decides next:
    without an EDGE_WEIGHT_FORMAT key followed by a colon, a value of two
    or three groups of capitals joined by [_] and white space the
    constructor throws [incorrect "EDGE_WEIGHT_FORMAT".]; with a value that
    is none of FULL_MATRIX, UPPER_ROW, UPPER_DIAG_ROW and LOWER_DIAG_ROW it
    throws [unsupported "EDGE_WEIGHT_FORMAT" value: ] followed by the value
    and a full stop; each of the four values gives its format. *)
Theorem edge_weight_format_decides
    (distance_max : N) (get_index : string -> N * bool * string)
    (get_double : string -> R * bool * string) (input : string) (n : N) :
  parse_dimension input = Ok n ->
  parse_ewt input = Ok EXPLICIT ->
  (~ occurs ewf_rgx input ->
   tsplib_loader_new distance_max get_index get_double input =
     Throw (custom_exception ("incorrect " ++ quoted "EDGE_WEIGHT_FORMAT" ++ "."))) /\
  (forall format,
     regex_search ewf_rgx input = Some format -> ~ In format EWF_names ->
     tsplib_loader_new distance_max get_index get_double input =
       Throw (custom_exception
                ("unsupported " ++ quoted "EDGE_WEIGHT_FORMAT" ++ " value: "
                   ++ format ++ "."))) /\
  (forall ewf,
     ewf <> EWF_NONE -> regex_search ewf_rgx input = Some (EWF_name ewf) ->
     parse_ewf EXPLICIT input = Ok ewf).
Proof.
  intros Hdim Hewt. unfold tsplib_loader_new. rewrite Hdim, Hewt. cbn [bind].
  unfold parse_ewf. split; [|split].
  - intros Hno. now rewrite (regex_search_none _ _ Hno).
  - intros format Hf Hn. rewrite Hf, (ewf_of_string_none _ Hn). reflexivity.
  - intros ewf Hne Hf. rewrite Hf, (ewf_of_string_name _ Hne).
    destruct ewf; [contradiction|reflexivity..].
Qed.

Lemma edge_weight_format_decides_witness :
  load32 lower_row_text =
    Throw (custom_exception
             ("unsupported " ++ quoted "EDGE_WEIGHT_FORMAT" ++ " value: "
                ++ "LOWER_ROW" ++ ".")).
Proof.
  apply (edge_weight_format_decides UINT32_MAX get_index_decimal
           get_double_integral lower_row_text 2).
  - vm_compute. reflexivity.
  - vm_compute. reflexivity.
  - vm_compute. reflexivity.
  - vm_compute. intros H. repeat (destruct H as [H|H]; [discriminate H|]). exact H.
Defined.

(** X12. For an instance of a coordinate type (EUC_2D, CEIL_2D, GEO, ATT)
    the constructor throws [incorrect "NODE_COORD_SECTION".] when no
    NODE_COORD_SECTION keyword is followed by a node: an index and two
    coordinates. *)
Theorem missing_node_coord_section
    (distance_max : N) (get_index : string -> N * bool * string)
    (get_double : string -> R * bool * string)
    (input : string) (n : N) (ewt : EWT) :
  parse_dimension input = Ok n ->
  parse_ewt input = Ok ewt ->
  ewt <> EXPLICIT ->
  ~ occurs ncs_rgx input ->
  tsplib_loader_new distance_max get_index get_double input =
    Throw (custom_exception ("incorrect " ++ quoted "NODE_COORD_SECTION" ++ ".")).
Proof.
  intros Hdim Hewt Hne Hno. unfold tsplib_loader_new.
  rewrite Hdim, Hewt. cbn [bind].
  pose proof (parse_ewt_not_none _ _ Hewt) as Hnone.
  destruct ewt; try contradiction; cbn [parse_ewf bind parse_data_section];
    now rewrite (regex_search_none _ _ Hno).
Qed.

Lemma missing_node_coord_section_witness :
  load32 no_section_text =
    Throw (custom_exception ("incorrect " ++ quoted "NODE_COORD_SECTION" ++ ".")).
Proof.
  apply (missing_node_coord_section UINT32_MAX get_index_decimal
           get_double_integral no_section_text 2 ATT).
  - vm_compute. reflexivity.
  - vm_compute. reflexivity.
  - discriminate.
  - apply not_occurs. vm_compute. reflexivity.
Defined.

(** X13. The two branches marked [Should not happen!] are never reached,
    whatever the input; and every instance the constructor returns has a
    dimension that is a [std::size_t], a square matrix of this dimension
    and a set edge weight type, and either the type is EXPLICIT, the format
    is set and there are no nodes, or the type is a coordinate type, the
    format is not set and there is one node for each city. *)
Theorem loaded_invariant
    (distance_max : N) (get_index : string -> N * bool * string)
    (get_double : string -> R * bool * string) (input : string) :
  ~ reaches_should_not_happen input /\
  forall ld : tsplib_loader,
    tsplib_loader_new distance_max get_index get_double input = Ok ld ->
    (_dimension ld <= SIZE_MAX)%N /\
    square (_dimension ld) (get_matrix ld) /\
    match _ewt ld with
    | EWT_NONE => False
    | EXPLICIT => _ewf ld <> EWF_NONE /\ _nodes ld = []
    | _ => _ewf ld = EWF_NONE /\ length (_nodes ld) = N.to_nat (_dimension ld)
    end.
Proof.
  split.
  - intros (dim & ewt & ewf & ds & _ & Hewt & Hewf & _ & H).
    destruct ewt; try contradiction.
    + exact (parse_ewt_not_none _ _ Hewt eq_refl).
    + exact (parse_ewf_not_none _ _ Hewf H).
  - intros ld Hload.
    destruct (loaded_matrix _ _ _ _ _ Hload) as (Hsq & _).
    destruct (loaded_nodes _ _ _ _ _ Hload) as [Hnone Hnodes].
    unfold tsplib_loader_new in Hload.
    inv_bind Hload. rename a into n, Ha into Hn.
    inv_bind Hload. rename a into ewt, Ha into Hewt.
    inv_bind Hload. rename a into ewf, Ha into Hewf.
    inv_bind Hload. rename a into ds, Ha into Hds.
    inv_bind Hload. rename Ha into Hfill. destruct a as [m nodes].
    injection Hload as <-. simpl in *.
    split; [exact (parse_dimension_bound _ _ Hn)|]. split; [exact Hsq|].
    destruct ewt; try contradiction;
      try (injection Hewf as <-; split; [reflexivity|apply Hnodes; discriminate]).
    split; [exact (parse_ewf_not_none _ _ Hewf)|].
    inv_bind Hfill. now injection Hfill as _ <-.
Qed.

Lemma loaded_invariant_witness :
  (_dimension att2_loaded <= SIZE_MAX)%N /\
  square (_dimension att2_loaded) (get_matrix att2_loaded) /\
  _ewf att2_loaded = EWF_NONE /\
  length (_nodes att2_loaded) = N.to_nat (_dimension att2_loaded).
Proof.
  apply (proj2 (loaded_invariant UINT32_MAX get_index_decimal get_double_integral
                  att2_text) att2_loaded).
  exact att2_load.
Defined.

(** X14. The data section of a loaded EXPLICIT instance is the text the
    EDGE_WEIGHT_SECTION expression captured: it starts with a digit and
    holds digits and white space only, so that reading it can only end by
    running out of text or by a number too large for [distance_t]. *)
Theorem explicit_data_section_shape
    (distance_max : N) (get_index : string -> N * bool * string)
    (get_double : string -> R * bool * string)
    (input : string) (ld : tsplib_loader) :
  tsplib_loader_new distance_max get_index get_double input = Ok ld ->
  _ewt ld = EXPLICIT ->
  regex_search ews_rgx input = Some (_data_section ld) /\
  string_all (fun c => is_digit c = true \/ is_space c = true) (_data_section ld) /\
  exists c ds', _data_section ld = String c ds' /\ is_digit c = true.
Proof.
  intros Hload Hex.
  destruct (loaded_parts _ _ _ _ _ Hload) as (_ & _ & _ & Hds).
  rewrite Hex in Hds. simpl in Hds.
  destruct (regex_search ews_rgx input) as [d|] eqn:E; [|discriminate].
  injection Hds as ->. split; [reflexivity|]. split.
  - exact (edge_weight_section_chars _ _ E).
  - exact (edge_weight_section_digit _ _ E).
Qed.

Lemma explicit_data_section_shape_witness :
  regex_search ews_rgx upper3_text = Some (_data_section upper3_loaded) /\
  string_all (fun c => is_digit c = true \/ is_space c = true)
    (_data_section upper3_loaded) /\
  exists c ds', _data_section upper3_loaded = String c ds' /\ is_digit c = true.
Proof.
  apply (explicit_data_section_shape UINT32_MAX get_index_decimal
           get_double_integral upper3_text upper3_loaded).
  - exact upper3_load.
  - reflexivity.
Defined.


(** ** The mirrored layouts, read from any stream *)

(** Rows of mirrored reads, in general: the rows [lo] to [hi - 1], row [i]
    with the columns [jlo i] to [jhi i - 1], read from a stream described
    by an invariant [Inv] on the number of values read so far, the value
    of place [p] being [val p]. *)
Section MirroredRows.

Variable distance_max : N.
Variables lo hi : N.
Variables jlo jhi : N -> N.
Variable start : N -> nat.
Variable val : nat -> N.
Variable Inv : nat -> istringstream -> option N -> Prop.
Variable bound : nat.

Hypothesis Hstep : forall p data cv,
  (p < bound)%nat -> Inv p data cv ->
  exists data',
    extract (get_unsigned distance_max) data cv = (data', Some (val p)) /\
    Inv (S p) data' (Some (val p)).
Hypothesis Hrows : forall i,
  lo <= i < hi ->
  jlo i <= jhi i /\ start (N.succ i) = (start i + N.to_nat (jhi i - jlo i))%nat.
Hypothesis Hbound : (start hi <= bound)%nat.
Hypothesis Hdom : forall a b,
  lo <= a < hi -> jlo a <= b < jhi a -> lo <= b < hi -> jlo b <= a < jhi b -> a = b.

Lemma start_mono (k : nat) :
  forall i, lo <= i -> i + N.of_nat k <= hi ->
            (start i <= start (i + N.of_nat k))%nat.
Proof.
  induction k as [|k IH]; intros i Hi Hk.
  - replace (i + N.of_nat 0) with i by lia. lia.
  - replace (i + N.of_nat (S k)) with (N.succ i + N.of_nat k) by lia.
    specialize (IH (N.succ i) ltac:(lia) ltac:(lia)).
    destruct (Hrows i ltac:(lia)) as [_ E]. lia.
Qed.

Lemma start_le (i : N) : lo <= i -> i <= hi -> (start i <= start hi)%nat.
Proof.
  intros H1 H2.
  pose proof (start_mono (N.to_nat (hi - i)) i H1 ltac:(lia)) as H.
  now replace (i + N.of_nat (N.to_nat (hi - i))) with hi in H by lia.
Qed.

(** After the rows of reads every pair of the rows holds the value of its
    place, on both sides of the diagonal. *)
Lemma mirrored_rows_values (data : istringstream) (cv : option N) (m : matrix)
    (s' : istringstream * option N * matrix) :
  lo <= hi ->
  Inv (start lo) data cv ->
  for_loop lo hi
    (fun i s => for_loop (jlo i) (jhi i)
                  (fun j s => read_mirrored distance_max i j s) s)
    (data, cv, m) = Ok s' ->
  Inv (start hi) (fst (fst s')) (snd (fst s')) /\
  forall a b, lo <= a < hi -> jlo a <= b < jhi a ->
              placed val start jlo (snd s') a b.
Proof.
  intros Hle Hinv Hrun.
  pose (P := fun (i : N) (s : istringstream * option N * matrix) =>
    Inv (start i) (fst (fst s)) (snd (fst s)) /\
    forall a b, lo <= a < i -> jlo a <= b < jhi a ->
                placed val start jlo (snd s) a b).
  apply (for_loop_invariant P) in Hrun; [|exact Hle| |].
  - destruct Hrun as [H1 H2]. split; [exact H1|]. intros a b Ha Hb. apply H2; lia.
  - unfold P. simpl. split; [exact Hinv|]. intros a b Ha. lia.
  - intros i t t' Hi [Hyi Hprev] Hrow.
    destruct (Hrows i Hi) as [Hjle Hnext].
    pose proof (start_le (N.succ i) ltac:(lia) ltac:(lia)) as Hsle.
    pose (Q := fun (j : N) (s : istringstream * option N * matrix) =>
      Inv (start i + N.to_nat (j - jlo i))%nat (fst (fst s)) (snd (fst s)) /\
      (forall a b, lo <= a < i -> jlo a <= b < jhi a ->
                   placed val start jlo (snd s) a b) /\
      (forall b, jlo i <= b < j -> placed val start jlo (snd s) i b)).
    apply (for_loop_invariant Q) in Hrow; [|exact Hjle| |].
    + destruct Hrow as (Hy' & Hprev' & Hcur). unfold P. split.
      * rewrite Hnext. exact Hy'.
      * intros a b Ha Hb. destruct (N.eq_dec a i) as [->|Hne].
        -- apply Hcur. exact Hb.
        -- apply Hprev'; [lia|exact Hb].
    + unfold Q. split; [|split].
      * replace (N.to_nat (jlo i - jlo i)) with 0%nat by lia.
        rewrite Nat.add_0_r. exact Hyi.
      * exact Hprev.
      * intros b Hb. lia.
    + intros j [[d c] u] [[d' c'] u'] Hj (Hyj & Hpj & Hcj) Hread. simpl in *.
      destruct (Hstep (start i + N.to_nat (j - jlo i))%nat d c ltac:(lia) Hyj)
        as (d1 & Hex & Hy1).
      unfold read_mirrored in Hread. rewrite Hex in Hread. cbn [use bind] in Hread.
      inv_bind Hread. rename a into m1, Ha into H1.
      inv_bind Hread. rename a into m2, Ha into H2.
      injection Hread as <- <- <-.
      assert (Hkeep : forall a b,
        lo <= a < hi -> jlo a <= b < jhi a -> (a <> i \/ b <> j) ->
        placed val start jlo u a b -> placed val start jlo m2 a b).
      { intros a b Ha Hb Hne [Hab Hba]. split.
        - rewrite (matrix_get_set_ne _ _ _ _ _ _ _ H2).
          + rewrite (matrix_get_set_ne _ _ _ _ _ _ _ H1) by exact Hne. exact Hab.
          + destruct (N.eq_dec a j) as [->|]; [|left; assumption].
            destruct (N.eq_dec b i) as [->|]; [|right; assumption].
            pose proof (Hdom j i Ha Hb Hi ltac:(lia)). lia.
        - rewrite (matrix_get_set_ne _ _ _ _ _ _ _ H2) by lia.
          rewrite (matrix_get_set_ne _ _ _ _ _ _ _ H1).
          + exact Hba.
          + destruct (N.eq_dec b i) as [->|]; [|left; assumption].
            destruct (N.eq_dec a j) as [->|]; [|right; assumption].
            pose proof (Hdom j i Ha Hb Hi ltac:(lia)). lia. }
      unfold Q. simpl. split; [|split].
      * replace (start i + N.to_nat (N.succ j - jlo i))%nat
          with (S (start i + N.to_nat (j - jlo i))) by lia.
        exact Hy1.
      * intros a b Ha Hb. apply Hkeep; [lia|exact Hb|left; lia|].
        apply Hpj; assumption.
      * intros b Hb. destruct (N.eq_dec b j) as [->|Hne].
        -- unfold placed, place. split.
           ++ rewrite (matrix_get_set _ _ _ _ _ _ _ H2).
              destruct (N.eqb_spec i j) as [Hij|Hij]; simpl.
              ** rewrite Hij, N.eqb_refl. reflexivity.
              ** exact (matrix_get_set_eq _ _ _ _ _ H1).
           ++ exact (matrix_get_set_eq _ _ _ _ _ H2).
        -- apply Hkeep; [lia|lia|right; exact Hne|]. apply Hcj. lia.
Qed.

End MirroredRows.

(** The row starts in closed form: before row [i] UPPER_DIAG_ROW has read
    [i * n - i * (i - 1) / 2] values, LOWER_DIAG_ROW [i * (i + 1) / 2] and
    UPPER_ROW [i * n - i * (i + 1) / 2]. *)
Lemma diag_row_start_closed (n i : nat) :
  (i <= n)%nat -> (2 * diag_row_start n i + i * i = i * (2 * n + 1))%nat.
Proof.
  induction i as [|i IH]; intros Hi; simpl; [lia|].
  specialize (IH ltac:(lia)). nia.
Qed.

Lemma triangular_closed (i : nat) : (2 * triangular i = i * (i + 1))%nat.
Proof. induction i as [|i IH]; simpl; nia. Qed.

Lemma row_start_closed (n i : nat) :
  (i <= n)%nat -> (2 * row_start n i + i * (i + 1) = 2 * i * n)%nat.
Proof.
  induction i as [|i IH]; intros Hi; simpl; [lia|].
  specialize (IH ltac:(lia)). nia.
Qed.

(** The number of values of a mirrored layout: [n (n - 1) / 2] without the
    diagonal and [n (n + 1) / 2] with it. *)
Lemma mirrored_count_closed (n : N) :
  (2 * mirrored_count UPPER_ROW n = N.to_nat n * (N.to_nat n - 1))%nat /\
  (2 * mirrored_count UPPER_DIAG_ROW n = N.to_nat n * (N.to_nat n + 1))%nat /\
  (2 * mirrored_count LOWER_DIAG_ROW n = N.to_nat n * (N.to_nat n + 1))%nat.
Proof.
  unfold mirrored_count. split; [apply row_start_total|]. split.
  - pose proof (diag_row_start_closed (N.to_nat n) (N.to_nat n) (Nat.le_refl _)).
    nia.
  - apply triangular_closed.
Qed.

Lemma size_sub_one (n : N) : 1 <= n -> n <= SIZE_MAX -> size_sub n 1 = n - 1.
Proof.
  intros H1 Hn. unfold size_sub, SIZE_MAX in *.
  replace (n + 2 ^ 64 - 1) with (n - 1 + 1 * 2 ^ 64) by lia.
  rewrite N.Div0.mod_add. apply N.mod_small. lia.
Qed.

Lemma size_succ_small (i : N) : i < SIZE_MAX -> size_succ i = N.succ i.
Proof. intros H. unfold size_succ, SIZE_MAX in *. rewrite N.mod_small; lia. Qed.

Section MirroredFill.

Variable distance_max : N.
Variable n : N.
Variable val : nat -> N.
Variable Inv : nat -> istringstream -> option N -> Prop.
Variable bound : nat.

Hypothesis Hn : n <= SIZE_MAX.
Hypothesis Hstep : forall p data cv,
  (p < bound)%nat -> Inv p data cv ->
  exists data',
    extract (get_unsigned distance_max) data cv = (data', Some (val p)) /\
    Inv (S p) data' (Some (val p)).

(** The entries of a mirrored layout, from the values the stream gives. *)
Lemma mirrored_fill_values (ewf : EWF) (data : istringstream) (m m' : matrix) :
  mirrored ewf = true ->
  (mirrored_count ewf n <= bound)%nat ->
  Inv 0 data None ->
  match ewf with
  | UPPER_ROW => fill_upper_row distance_max n data m
  | UPPER_DIAG_ROW => fill_upper_diag_row distance_max n data m
  | LOWER_DIAG_ROW => fill_lower_diag_row distance_max n data m
  | _ => Undefined
  end = Ok m' ->
  forall a b, a < b -> b < n ->
    matrix_get m' a b = Ok (val (mirrored_index ewf n a b)) /\
    matrix_get m' b a = Ok (val (mirrored_index ewf n a b)).
Proof.
  intros Hmir Hcount Hinv Hfill a b Hab Hb.
  destruct ewf; try discriminate; simpl in Hcount.
  - (* UPPER_ROW *)
    unfold fill_upper_row in Hfill. inv_bind Hfill. destruct a0 as [[d c] m0].
    rewrite size_sub_one in Ha by lia.
    apply (mirrored_rows_values distance_max 0 (n - 1) size_succ (fun _ => n)
             (fun i => row_start (N.to_nat n) (N.to_nat i)) val Inv bound) in Ha.
    + destruct Ha as [_ Hp]. destruct (Hp a b ltac:(lia)) as [H1 H2].
      { rewrite size_succ_small by (unfold SIZE_MAX in *; lia). lia. }
      simpl in H1, H2.
      apply zero_diagonal_spec in Hfill as (_ & Hoff & _).
      rewrite !Hoff by lia. unfold place in H1, H2.
      rewrite size_succ_small in H1, H2 by (unfold SIZE_MAX in *; lia).
      unfold mirrored_index, upper_index.
      replace (N.to_nat b - N.to_nat a - 1)%nat with (N.to_nat (b - N.succ a)) by lia.
      auto.
    + exact Hstep.
    + intros i Hi. rewrite size_succ_small by (unfold SIZE_MAX in *; lia).
      split; [lia|]. rewrite N2Nat.inj_succ. simpl. lia.
    + pose proof (row_start_mono (N.to_nat n) (N.to_nat (n - 1)) (N.to_nat n)
                    ltac:(lia)). lia.
    + intros x y Hx Hy Hx' Hy'.
      rewrite size_succ_small in Hy, Hy' by (unfold SIZE_MAX in *; lia). lia.
    + lia.
    + exact Hinv.
  - (* UPPER_DIAG_ROW *)
    unfold fill_upper_diag_row in Hfill. inv_bind Hfill. destruct a0 as [[d c] m0].
    apply (mirrored_rows_values distance_max 0 n (fun i => i) (fun _ => n)
             (fun i => diag_row_start (N.to_nat n) (N.to_nat i)) val Inv bound) in Ha.
    + destruct Ha as [_ Hp]. destruct (Hp a b ltac:(lia) ltac:(lia)) as [H1 H2].
      simpl in H1, H2.
      apply zero_diagonal_spec in Hfill as (_ & Hoff & _).
      rewrite !Hoff by lia. unfold place in H1, H2.
      unfold mirrored_index, upper_diag_index.
      replace (N.to_nat b - N.to_nat a)%nat with (N.to_nat (b - a)) by lia.
      auto.
    + exact Hstep.
    + intros i Hi. split; [lia|]. rewrite N2Nat.inj_succ. simpl. lia.
    + exact Hcount.
    + intros x y Hx Hy Hx' Hy'. lia.
    + lia.
    + exact Hinv.
  - (* LOWER_DIAG_ROW *)
    unfold fill_lower_diag_row in Hfill. inv_bind Hfill. destruct a0 as [[d c] m0].
    apply (mirrored_rows_values distance_max 0 n (fun _ => 0) (fun i => i + 1)
             (fun i => triangular (N.to_nat i)) val Inv bound) in Ha.
    + destruct Ha as [_ Hp]. destruct (Hp b a ltac:(lia) ltac:(lia)) as [H1 H2].
      simpl in H1, H2.
      apply zero_diagonal_spec in Hfill as (_ & Hoff & _).
      rewrite !Hoff by lia. unfold place in H1, H2.
      unfold mirrored_index, lower_diag_index.
      replace (N.to_nat a) with (N.to_nat (a - 0)) by lia.
      auto.
    + exact Hstep.
    + intros i Hi. split; [lia|]. rewrite N2Nat.inj_succ. simpl. lia.
    + exact Hcount.
    + intros x y Hx Hy Hx' Hy'. lia.
    + lia.
    + exact Hinv.
Qed.

End MirroredFill.

(** Reading one of the values a stream yields. *)
Lemma yields_step (distance_max : N) (vs : list N) (p : nat)
    (data : istringstream) (cv : option N) :
  (p < length vs)%nat ->
  yields distance_max data (drop p vs) ->
  exists data',
    extract (get_unsigned distance_max) data cv = (data', Some (value_at 0 vs p)) /\
    yields distance_max data' (drop (S p) vs).
Proof.
  intros Hp Hy. destruct (lookup_lt_is_Some_2 vs p Hp) as [v Hv].
  rewrite (drop_S _ _ _ Hv) in Hy. destruct Hy as (d & Hex & Hy).
  exists d. unfold value_at. rewrite Hv. simpl. auto.
Qed.

Lemma extract_exhausted {V : Type} (get : string -> V * bool * string)
    (data : istringstream) (cv : option V) :
  exhausted data ->
  exists data', extract get data cv = (data', cv) /\ exhausted data'.
Proof.
  intros He. unfold extract. destruct (failed data) eqn:Hf.
  - exists data. split; [reflexivity|exact He].
  - destruct He as [He|He]; [congruence|]. rewrite He.
    eexists. split; [reflexivity|]. left. reflexivity.
Qed.

(** Reading from a stream that yields [vs] and nothing more: past the last
    value the variable keeps it. *)
Lemma yields_all_step (distance_max : N) (vs : list N) (p : nat)
    (data : istringstream) (cv : option N) :
  vs <> [] ->
  yields_all distance_max data (drop p vs) ->
  ((length vs <= p)%nat -> cv = Some (default 0 (last vs))) ->
  exists data',
    extract (get_unsigned distance_max) data cv =
      (data', Some (value_at (default 0 (last vs)) vs p)) /\
    yields_all distance_max data' (drop (S p) vs) /\
    ((length vs <= S p)%nat ->
     Some (value_at (default 0 (last vs)) vs p) = Some (default 0 (last vs))).
Proof.
  intros Hne Hy Hcv. unfold value_at.
  destruct (le_lt_dec (length vs) p) as [Hge|Hlt].
  - rewrite drop_ge in Hy by exact Hge. simpl in Hy.
    destruct (extract_exhausted (get_unsigned distance_max) data cv Hy)
      as (d & Hex & Hd).
    exists d. rewrite (lookup_ge_None_2 vs p Hge). simpl.
    rewrite Hex, (Hcv Hge). split; [reflexivity|].
    split; [|reflexivity]. rewrite drop_ge by lia. exact Hd.
  - destruct (lookup_lt_is_Some_2 vs p Hlt) as [v Hv].
    rewrite (drop_S _ _ _ Hv) in Hy. destruct Hy as (d & Hex & Hy).
    exists d. rewrite Hv. simpl. split; [apply Hex|]. split; [exact Hy|].
    intros Hlast. rewrite last_lookup.
    replace (Init.Nat.pred (length vs)) with p by lia. now rewrite Hv.
Qed.

Section FullRows.

Variable distance_max : N.
Variable n : N.
Variable vs : list N.

(** Reading a cell from a stream that yields [vs] and nothing more: past
    the last value the cell keeps what it holds. *)
Lemma read_cell_yields_all (i j : N) (p : nat) (data data' : istringstream)
    (m m' : matrix) (old : N) :
  yields_all distance_max data (drop p vs) ->
  matrix_get m i j = Ok old ->
  read_cell distance_max i j (data, m) = Ok (data', m') ->
  yields_all distance_max data' (drop (S p) vs) /\
  matrix_set m i j (value_at old vs p) = Ok m'.
Proof.
  intros Hy Hold Hread. unfold read_cell in Hread. rewrite Hold in Hread.
  cbn [bind] in Hread. unfold value_at.
  destruct (le_lt_dec (length vs) p) as [Hge|Hlt].
  - rewrite drop_ge in Hy by exact Hge. simpl in Hy.
    destruct (extract_exhausted (get_unsigned distance_max) data (Some old) Hy)
      as (d & Hex & Hd).
    rewrite Hex in Hread. cbn [use bind] in Hread. inv_bind Hread.
    injection Hread as <- <-. rewrite (lookup_ge_None_2 vs p Hge). simpl.
    split; [|exact Ha]. rewrite drop_ge by lia. exact Hd.
  - destruct (lookup_lt_is_Some_2 vs p Hlt) as [v Hv].
    rewrite (drop_S _ _ _ Hv) in Hy. destruct Hy as (d & Hex & Hy).
    rewrite Hex in Hread. cbn [use bind] in Hread. inv_bind Hread.
    injection Hread as <- <-. rewrite Hv. simpl. auto.
Qed.

(** After the rows of reads every entry holds the value of its place, and
    zero where the section has none. *)
Lemma full_rows_values (data : istringstream) (m : matrix)
    (s' : istringstream * matrix) :
  (forall a b, a < n -> b < n -> matrix_get m a b = Ok 0) ->
  yields_all distance_max data vs ->
  for_loop 0 n
    (fun i s => for_loop 0 n (fun j s => read_cell distance_max i j s) s)
    (data, m) = Ok s' ->
  forall a b, a < n -> b < n ->
    matrix_get (snd s') a b = Ok (value_at 0 vs (N.to_nat (a * n + b))).
Proof.
  intros Hzero Hy Hrun.
  pose (P := fun (i : N) (s : istringstream * matrix) =>
    yields_all distance_max (fst s) (drop (N.to_nat (i * n)) vs) /\
    (forall a b, a < i -> b < n ->
       matrix_get (snd s) a b = Ok (value_at 0 vs (N.to_nat (a * n + b)))) /\
    (forall a b, i <= a -> a < n -> b < n -> matrix_get (snd s) a b = Ok 0)).
  apply (for_loop_invariant P) in Hrun; [|lia| |].
  - destruct Hrun as (_ & H & _). exact H.
  - unfold P. simpl. split; [exact Hy|]. split; [intros a b Ha; lia|].
    intros a b _. apply Hzero.
  - intros i t t' Hi (Hyi & Hdone & Hleft) Hrow.
    pose (Q := fun (j : N) (s : istringstream * matrix) =>
      yields_all distance_max (fst s) (drop (N.to_nat (i * n + j)) vs) /\
      (forall a b, a < i -> b < n ->
         matrix_get (snd s) a b = Ok (value_at 0 vs (N.to_nat (a * n + b)))) /\
      (forall b, b < j ->
         matrix_get (snd s) i b = Ok (value_at 0 vs (N.to_nat (i * n + b)))) /\
      (forall b, j <= b -> b < n -> matrix_get (snd s) i b = Ok 0) /\
      (forall a b, i < a -> a < n -> b < n -> matrix_get (snd s) a b = Ok 0)).
    apply (for_loop_invariant Q) in Hrow; [|lia| |].
    + destruct Hrow as (Hy' & Hd' & Hc' & _ & Hl'). unfold P. split; [|split].
      * replace (N.succ i * n) with (i * n + n) by lia. exact Hy'.
      * intros a b Ha Hb. destruct (N.eq_dec a i) as [->|Hne].
        -- apply Hc'. exact Hb.
        -- apply Hd'; [lia|exact Hb].
      * intros a b Ha Han Hb. apply Hl'; [lia|exact Han|exact Hb].
    + unfold Q. split; [|split; [|split; [|split]]].
      * rewrite N.add_0_r. exact Hyi.
      * exact Hdone.
      * intros b Hb. lia.
      * intros b _ Hb. apply Hleft; [lia|lia|exact Hb].
      * intros a b Ha Han Hb. apply Hleft; [lia|exact Han|exact Hb].
    + intros j [d u] [d' u'] Hj (Hyj & Hdj & Hcj & Hzj & Hlj) Hread. simpl in *.
      apply (read_cell_yields_all i j _ _ _ _ _ 0 Hyj) in Hread as [Hy' Hset];
        [|apply Hzj; lia].
      unfold Q. simpl. split; [|split; [|split; [|split]]].
      * replace (N.to_nat (i * n + N.succ j)) with (S (N.to_nat (i * n + j)))
          by lia.
        exact Hy'.
      * intros a b Ha Hb.
        rewrite (matrix_get_set_ne _ _ _ _ _ _ _ Hset) by (left; lia).
        apply Hdj; assumption.
      * intros b Hb. destruct (N.eq_dec b j) as [->|Hne].
        -- exact (matrix_get_set_eq _ _ _ _ _ Hset).
        -- rewrite (matrix_get_set_ne _ _ _ _ _ _ _ Hset) by (right; exact Hne).
           apply Hcj. lia.
      * intros b Hb Hbn.
        rewrite (matrix_get_set_ne _ _ _ _ _ _ _ Hset) by (right; lia).
        apply Hzj; [lia|exact Hbn].
      * intros a b Ha Han Hb.
        rewrite (matrix_get_set_ne _ _ _ _ _ _ _ Hset) by (left; lia).
        apply Hlj; assumption.
Qed.

End FullRows.

(** The entries of a FULL_MATRIX read into a new matrix from a stream that
    yields [vs] and nothing more. *)
Lemma fill_full_matrix_values (distance_max n : N) (vs : list N)
    (data : istringstream) (m' : matrix) :
  yields_all distance_max data vs ->
  fill_full_matrix distance_max n data (matrix_new n) = Ok m' ->
  forall i j, i < n -> j < n -> i <> j ->
    matrix_get m' i j = Ok (value_at 0 vs (N.to_nat (i * n + j))).
Proof.
  intros Hy Hfill i j Hi Hj Hij. unfold fill_full_matrix in Hfill.
  inv_bind Hfill. destruct a as [d m0].
  pose proof (full_rows_values distance_max n vs data (matrix_new n) _
                (matrix_new_get n) Hy Ha i j Hi Hj) as Hget.
  simpl in Hget.
  apply zero_diagonal_spec in Hfill as (_ & Hoff & _).
  rewrite Hoff by exact Hij. exact Hget.
Qed.

(** A stream that yields values and nothing more yields them. *)
Lemma yields_all_yields (distance_max : N) (vs : list N) :
  forall data, yields_all distance_max data vs -> yields distance_max data vs.
Proof.
  induction vs as [|v vs IH]; intros data H; [exact I|].
  destruct H as (d & Hex & H). exists d. split; [exact Hex|apply IH, H].
Qed.

Lemma diag_row_start_mono (n i i' : nat) :
  (i <= i')%nat -> (diag_row_start n i <= diag_row_start n i')%nat.
Proof. induction 1; simpl; lia. Qed.

Lemma triangular_mono (i i' : nat) : (i <= i')%nat -> (triangular i <= triangular i')%nat.
Proof. induction 1; simpl; lia. Qed.

(** The place of a pair lies among the values the layout reads. *)
Lemma mirrored_index_bound (ewf : EWF) (n a b : N) :
  mirrored ewf = true -> a < b -> b < n ->
  (mirrored_index ewf n a b < mirrored_count ewf n)%nat.
Proof.
  intros Hm Hab Hb. destruct ewf; try discriminate; simpl.
  - unfold upper_index.
    pose proof (row_start_mono (N.to_nat n) (S (N.to_nat a)) (N.to_nat n) ltac:(lia)) as H.
    simpl in H. lia.
  - unfold upper_diag_index.
    pose proof (diag_row_start_mono (N.to_nat n) (S (N.to_nat a)) (N.to_nat n) ltac:(lia)) as H.
    simpl in H. lia.
  - unfold lower_diag_index.
    pose proof (triangular_mono (S (N.to_nat b)) (N.to_nat n) ltac:(lia)) as H.
    simpl in H. lia.
Qed.

Section Layouts.

Variable distance_max : N.
Variable get_index : string -> N * bool * string.
Variable get_double : string -> R * bool * string.

(** The fill that gave the matrix of a loaded instance in a mirrored
    layout. *)
Lemma loaded_mirrored_fill (input : string) (ld : tsplib_loader) :
  tsplib_loader_new distance_max get_index get_double input = Ok ld ->
  mirrored (_ewf ld) = true ->
  match _ewf ld with
  | UPPER_ROW =>
      fill_upper_row distance_max (_dimension ld)
        (istringstream_new (_data_section ld)) (matrix_new (_dimension ld))
  | UPPER_DIAG_ROW =>
      fill_upper_diag_row distance_max (_dimension ld)
        (istringstream_new (_data_section ld)) (matrix_new (_dimension ld))
  | LOWER_DIAG_ROW =>
      fill_lower_diag_row distance_max (_dimension ld)
        (istringstream_new (_data_section ld)) (matrix_new (_dimension ld))
  | _ => Undefined
  end = Ok (_matrix ld).
Proof.
  intros Hload Hm.
  pose proof (loaded_explicit_fill _ _ _ _ _ Hload) as Hfill.
  destruct (_ewf ld); try discriminate; apply Hfill; discriminate.
Qed.

End Layouts.

(** A loop whose rounds change nothing. *)
Lemma iterate_idle {St : Type} (body : N -> St -> outcome St) (n : nat) :
  forall (i : N) (s : St),
    (forall k t, body k t = Ok t) -> iterate n i body s = Ok s.
Proof.
  induction n as [|n IH]; intros i s H; [reflexivity|].
  cbn [iterate]. rewrite H. cbn [bind]. apply IH, H.
Qed.

(** In UPPER_ROW with dimension zero the bound of the outer loop wraps. *)
Lemma fill_upper_row_zero (distance_max : N) (data : istringstream) (m : matrix) :
  fill_upper_row distance_max 0 data m = Ok m.
Proof.
  unfold fill_upper_row.
  replace (for_loop 0 (size_sub 0 1)
             (fun i s => for_loop (size_succ i) 0
                           (fun j s => read_mirrored distance_max i j s) s)
             (data, None, m))
    with (Ok (data, @None N, m)).
  - reflexivity.
  - symmetry. unfold for_loop at 1. apply iterate_idle.
    intros k t. unfold for_loop. now rewrite N.sub_0_l.
Qed.

Lemma distance_entry_set (distance_max : N) (ewt : EWT) (nodes : list Node)
    (m m' : matrix) (i j v a b : N) :
  distance_entry distance_max ewt nodes m a b ->
  (a <> i \/ b <> j) -> (b <> i \/ a <> j) ->
  matrix_set m i j v = Ok m' ->
  distance_entry distance_max ewt nodes m' a b.
Proof.
  intros (na & nb & w & Ha & Hb & Hd & H1 & H2) Hab Hba Hset.
  exists na, nb, w. split; [exact Ha|]. split; [exact Hb|]. split; [exact Hd|].
  rewrite !(matrix_get_set_ne _ _ _ _ _ _ _ Hset) by assumption. auto.
Qed.

(** The entries the coordinate types compute. *)
Lemma fill_from_nodes_values (distance_max : N) (ewt : EWT) (n : N)
    (nodes : list Node) (m m' : matrix) :
  n <= SIZE_MAX ->
  fill_from_nodes distance_max ewt n nodes m = Ok m' ->
  forall a b, a < b -> b < n -> distance_entry distance_max ewt nodes m' a b.
Proof.
  intros Hn Hrun. unfold fill_from_nodes in Hrun.
  pose (P := fun (i : N) (t : matrix) =>
    forall a b, a < i -> a < b -> b < n ->
                distance_entry distance_max ewt nodes t a b).
  apply (for_loop_invariant P) in Hrun; [|lia| |].
  - intros a b Hab Hb. apply Hrun; lia.
  - intros a b Ha. lia.
  - intros i t t' Hi Hprev Hbody. inv_bind Hbody. rename a into t0, Ha into Hset0.
    rewrite size_succ_small in Hbody by (unfold SIZE_MAX in *; lia).
    pose (Q := fun (j : N) (u : matrix) =>
      (forall a b, a < i -> a < b -> b < n ->
                   distance_entry distance_max ewt nodes u a b) /\
      (forall b, i < b -> b < j -> distance_entry distance_max ewt nodes u i b)).
    apply (for_loop_invariant Q) in Hbody; [|lia| |].
    + destruct Hbody as [Hp Hc]. intros a b Ha Hab Hb.
      destruct (N.eq_dec a i) as [->|Hne]; [apply Hc; lia|apply Hp; lia].
    + split.
      * intros a b Ha Hab Hb.
        apply (distance_entry_set _ _ _ t t0 i i 0 a b); [|lia|lia|exact Hset0].
        apply Hprev; assumption.
      * intros b Hb1 Hb2. lia.
    + intros j u u' Hj [Hp Hc] Hin.
      inv_bind Hin. rename a into ni, Ha into Hni.
      inv_bind Hin. rename a into nj, Ha into Hnj.
      inv_bind Hin. rename a into v, Ha into Hv.
      inv_bind Hin. rename a into u1, Ha into H1.
      assert (Hlook : forall k (x : Node), use (nodes !! k) = Ok x -> nodes !! k = Some x).
      { intros k x. destruct (nodes !! k); simpl; congruence. }
      apply Hlook in Hni, Hnj.
      split.
      * intros a b Ha Hab Hb.
        apply (distance_entry_set _ _ _ u1 u' j i v a b); [|lia|lia|exact Hin].
        apply (distance_entry_set _ _ _ u u1 i j v a b); [|lia|lia|exact H1].
        apply Hp; assumption.
      * intros b Hb1 Hb2. destruct (N.eq_dec b j) as [->|Hne].
        -- exists ni, nj, v. split; [exact Hni|]. split; [exact Hnj|].
           split; [exact Hv|]. split.
           ++ rewrite (matrix_get_set_ne _ _ _ _ _ _ _ Hin) by lia.
              exact (matrix_get_set_eq _ _ _ _ _ H1).
           ++ exact (matrix_get_set_eq _ _ _ _ _ Hin).
        -- apply (distance_entry_set _ _ _ u1 u' j i v i b); [|lia|lia|exact Hin].
           apply (distance_entry_set _ _ _ u u1 i j v i b); [|lia|lia|exact H1].
           apply Hc; lia.
Qed.

Lemma loaded_coordinate_fill (distance_max : N)
    (get_index : string -> N * bool * string)
    (get_double : string -> R * bool * string)
    (input : string) (ld : tsplib_loader) :
  tsplib_loader_new distance_max get_index get_double input = Ok ld ->
  _ewt ld <> EXPLICIT ->
  fill_from_nodes distance_max (_ewt ld) (_dimension ld) (_nodes ld)
    (matrix_new (_dimension ld)) = Ok (_matrix ld).
Proof.
  intros H Hne. unfold tsplib_loader_new in H.
  inv_bind H. rename a into n, Ha into Hn.
  inv_bind H. rename a into ewt, Ha into Hewt.
  inv_bind H. rename a into ewf, Ha into Hewf.
  inv_bind H. rename a into ds, Ha into Hds.
  inv_bind H. rename Ha into Hfill. destruct a as [m nodes].
  injection H as <-. simpl in *.
  assert (Hcoord :
    (let* (_, nodes) :=
       for_loop 0 n (fun _ s => read_node get_index get_double s)
         (istringstream_new ds, []) in
     let* m := fill_from_nodes distance_max ewt n nodes (matrix_new n) in
     Ok (m, nodes)) = Ok (m, nodes) ->
    fill_from_nodes distance_max ewt n nodes (matrix_new n) = Ok m).
  { intros Hc. inv_bind Hc. destruct a as [d nodes']. inv_bind Hc.
    injection Hc as <- <-. exact Ha0. }
  destruct ewt; try (apply Hcoord; exact Hfill). contradiction.
Qed.

Section RouteBounds.

Variable to_string_double : R -> string.
Variable index_max : N.

Lemma route_steps_undefined (nodes : list Node) (tour : list N) :
  Exists (fun step => (length nodes <= N.to_nat step)%nat) tour ->
  forall route, route_steps to_string_double nodes tour route = Undefined.
Proof.
  induction tour as [|step tour IH]; intros Hex route.
  - inversion Hex.
  - cbn [route_steps].
    destruct (nodes !! N.to_nat step) as [x|] eqn:E; [|reflexivity].
    cbn [use bind]. apply IH.
    apply Exists_cons in Hex as [Hbad|Hex]; [|exact Hex].
    apply lookup_lt_Some in E. lia.
Qed.

Lemma get_route_undefined (ld : tsplib_loader) (tour : list N) :
  coordinate_based (_ewt ld) = true ->
  Exists (fun step => (length (_nodes ld) <= N.to_nat step)%nat) tour ->
  get_route to_string_double index_max ld tour = Undefined.
Proof.
  intros Hc Hex. unfold get_route.
  replace (negb (EWT_eqb (_ewt ld) EWT_NONE) && negb (EWT_eqb (_ewt ld) EXPLICIT))
    with true by (destruct (_ewt ld); simpl in *; congruence).
  now rewrite (route_steps_undefined _ _ Hex).
Qed.

Lemma get_route_defined (ld : tsplib_loader) (tour : list N) :
  (coordinate_based (_ewt ld) = true ->
   Forall (fun step => (N.to_nat step < length (_nodes ld))%nat) tour) ->
  exists s, get_route to_string_double index_max ld tour = Ok s.
Proof.
  intros Hin. unfold get_route.
  destruct (coordinate_based (_ewt ld)) eqn:C.
  - replace (negb (EWT_eqb (_ewt ld) EWT_NONE) && negb (EWT_eqb (_ewt ld) EXPLICIT))
      with true by (destruct (_ewt ld); simpl in *; congruence).
    rewrite (route_steps_trailing _ _ _ _ (Hin eq_refl)). cbn [bind]. eauto.
  - replace (negb (EWT_eqb (_ewt ld) EWT_NONE) && negb (EWT_eqb (_ewt ld) EXPLICIT))
      with false by (destruct (_ewt ld); simpl in *; congruence).
    cbn [bind]. eauto.
Qed.

End RouteBounds.

(** ** What the matcher takes *)

Lemma takes_eps (tail : string) : takes Eps EmptyString tail.
Proof. intros A k x H. exact H. Qed.

Lemma takes_chr (c : ascii) (tail : string) :
  takes (Chr c) (String c EmptyString) tail.
Proof. intros A k x H. simpl. now rewrite Ascii.eqb_refl. Qed.

Lemma takes_cls (p : ascii -> bool) (c : ascii) (tail : string) :
  p c = true -> takes (Cls p) (String c EmptyString) tail.
Proof. intros Hp A k x H. simpl. now rewrite Hp. Qed.

Lemma takes_cat (r1 r2 : regex) (b1 b2 tail : string) :
  takes r1 b1 (b2 ++ tail) -> takes r2 b2 tail ->
  takes (Cat r1 r2) (b1 ++ b2) tail.
Proof.
  intros H1 H2 A k x H. rewrite append_assoc. simpl.
  apply H1. apply H2. exact H.
Qed.

Lemma takes_lit (l tail : string) : takes (Lit l) l tail.
Proof.
  induction l as [|c l IH]; [apply takes_eps|].
  apply (takes_cat (Chr c) (Lit l) (String c EmptyString) l tail);
    [apply takes_chr|exact IH].
Qed.

Lemma takes_opt_some (r : regex) (b tail : string) :
  takes r b tail -> takes (Opt r) b tail.
Proof. intros Hr A k x H. simpl. now rewrite (Hr A k x H). Qed.

Lemma takes_opt_none (r : regex) (tail : string) :
  fails r tail -> takes (Opt r) EmptyString tail.
Proof. intros Hf A k x H. simpl. now rewrite Hf. Qed.

Lemma fails_cls (p : ascii -> bool) (s : string) : stops p s -> fails (Cls p) s.
Proof. intros Hs A k. destruct s as [|c s]; simpl in *; [reflexivity|now rewrite Hs]. Qed.

Lemma fails_chr (c : ascii) (s : string) :
  stops (Ascii.eqb c) s -> fails (Chr c) s.
Proof. intros Hs A k. destruct s as [|c' s]; simpl in *; [reflexivity|now rewrite Hs]. Qed.

Lemma fails_cat (r1 r2 : regex) (s : string) : fails r1 s -> fails (Cat r1 r2) s.
Proof. intros H A k. simpl. apply H. Qed.

Lemma star_loop_cls {A : Type} (p : ascii -> bool) (k : string -> option A)
    (tail : string) (x : A) :
  stops p tail -> k tail = Some x ->
  forall run fuel,
    string_all (fun c => p c = true) run ->
    (String.length run <= fuel)%nat ->
    star_loop (rmatch (Cls p)) k fuel (run ++ tail) = Some x.
Proof.
  intros Hstop Hk. induction run as [|c run IH]; intros fuel Hall Hfuel.
  - cbn [append]. destruct fuel as [|fuel]; cbn [star_loop]; [exact Hk|].
    rewrite (fails_cls p tail Hstop). exact Hk.
  - destruct Hall as [Hc Hall]. destruct fuel as [|fuel]; [simpl in Hfuel; lia|].
    cbn [append star_loop rmatch]. rewrite Hc.
    replace (String.length (run ++ tail) <? String.length (String c (run ++ tail)))%nat
      with true by (symmetry; apply Nat.ltb_lt; simpl; lia).
    rewrite IH; [reflexivity|exact Hall|simpl in Hfuel; lia].
Qed.

Lemma length_append (a b : string) :
  String.length (a ++ b) = (String.length a + String.length b)%nat.
Proof. induction a as [|c a IH]; simpl; [reflexivity|now rewrite IH]. Qed.

Lemma takes_star_cls (p : ascii -> bool) (run tail : string) :
  string_all (fun c => p c = true) run -> stops p tail ->
  takes (Star (Cls p)) run tail.
Proof.
  intros Hall Hstop A k x Hk. simpl.
  apply star_loop_cls; [exact Hstop|exact Hk|exact Hall|].
  rewrite length_append. lia.
Qed.

Lemma takes_plus_cls (p : ascii -> bool) (c : ascii) (run tail : string) :
  p c = true -> string_all (fun c => p c = true) run -> stops p tail ->
  takes (Plus (Cls p)) (String c run) tail.
Proof.
  intros Hc Hall Hstop.
  apply (takes_cat (Cls p) (Star (Cls p)) (String c EmptyString) run tail).
  - apply takes_cls. exact Hc.
  - apply takes_star_cls; assumption.
Qed.

Lemma star_loop_items {A : Type} (r : regex) (k : string -> option A)
    (tail : string) (x : A) :
  fails r tail -> k tail = Some x ->
  forall items fuel,
    items_taken r items tail ->
    (length items <= fuel)%nat ->
    star_loop (rmatch r) k fuel (concat_items items ++ tail) = Some x.
Proof.
  intros Hfail Hk. induction items as [|b bs IH]; intros fuel Hit Hfuel.
  - cbn [concat_items fold_right append]. destruct fuel as [|fuel]; cbn [star_loop]; [exact Hk|].
    rewrite Hfail. exact Hk.
  - destruct Hit as (Hb & Htake & Hit).
    destruct fuel as [|fuel]; [simpl in Hfuel; lia|].
    cbn [concat_items fold_right star_loop]. fold (concat_items bs). rewrite append_assoc.
    rewrite (Htake _ _ x); [reflexivity|].
    replace (String.length (concat_items bs ++ tail) <? String.length (b ++ concat_items bs ++ tail))%nat
      with true.
    + apply IH; [exact Hit|simpl in Hfuel; lia].
    + symmetry. apply Nat.ltb_lt. rewrite (length_append b).
      destruct b; [contradiction|simpl; lia].
Qed.

Lemma length_join_items (r : regex) (items : list string) (tail : string) :
  items_taken r items tail -> (length items <= String.length (concat_items items))%nat.
Proof.
  induction items as [|b bs IH]; intros Hit; [simpl; lia|].
  destruct Hit as (Hb & _ & Hit). cbn [concat_items fold_right]. fold (concat_items bs).
  rewrite length_append. specialize (IH Hit).
  destruct b; [contradiction|simpl; lia].
Qed.

Lemma takes_star (r : regex) (items : list string) (tail : string) :
  fails r tail -> items_taken r items tail -> takes (Star r) (concat_items items) tail.
Proof.
  intros Hfail Hit A k x Hk. cbn [rmatch].
  apply star_loop_items; [exact Hfail|exact Hk|exact Hit|].
  rewrite length_append. pose proof (length_join_items r items tail Hit). lia.
Qed.

(** The text of the group of a pattern whose parts are taken in turn. *)
Lemma match_here_takes (p : pattern) (b g a rest : string) :
  takes (before p) b (g ++ a ++ rest) ->
  takes (group1 p) g (a ++ rest) ->
  takes (after p) a rest ->
  match_here p (b ++ g ++ a ++ rest) = Some g.
Proof.
  intros Hb Hg Ha. unfold match_here.
  apply Hb. apply Hg. apply Ha. f_equal. apply take_prefix_app.
Qed.

Lemma regex_search_here (p : pattern) (s g : string) :
  match_here p s = Some g -> regex_search p s = Some g.
Proof. intros H. destruct s; simpl; now rewrite H. Qed.

Lemma rmatch_lit_mismatch {A : Type} (key : string) :
  forall u s (k : string -> option A),
    mismatch key u = true -> rmatch (Lit key) (u ++ s) k = None.
Proof.
  induction key as [|a key IH]; intros u s k H; [discriminate|].
  destruct u as [|b u]; [discriminate|]. simpl in H. cbn [Lit rmatch append].
  destruct (Ascii.eqb a b); [apply IH; exact H|reflexivity].
Qed.

(** The search goes over a text in which the keyword cannot start. *)
Lemma regex_search_skip (p : pattern) (key : string) (r : regex) (pre s : string) :
  before p = Cat (Lit key) r ->
  skippable key pre = true ->
  regex_search p (pre ++ s) = regex_search p s.
Proof.
  intros Hp. induction pre as [|c pre IH]; intros H; [reflexivity|].
  cbn [skippable] in H. apply andb_prop in H as [H1 H2].
  cbn [append regex_search].
  assert (E : match_here p (String c (pre ++ s)) = None).
  { unfold match_here. rewrite Hp. cbn [rmatch].
    exact (rmatch_lit_mismatch key (String c pre) s _ H1). }
  rewrite E. apply IH. exact H2.
Qed.

Lemma skippable_run (c0 : ascii) (key run : string) :
  string_all (fun c => Ascii.eqb c0 c = false) run ->
  skippable (String c0 key) run = true.
Proof.
  induction run as [|c run IH]; intros H; [reflexivity|].
  destruct H as [Hc H]. cbn [skippable mismatch]. rewrite Hc. simpl. apply IH, H.
Qed.

(** ** The text of a data section *)

Lemma is_digit_char (d : N) : d < 10 -> is_digit (digit_char d) = true.
Proof.
  intros Hd. unfold is_digit, digit_char. rewrite N_ascii_embedding by lia.
  apply andb_true_intro. split; apply N.leb_le; lia.
Qed.

Lemma to_string_from_digits (fuel : nat) :
  forall n acc,
    string_all (fun c => is_digit c = true) acc ->
    string_all (fun c => is_digit c = true) (to_string_from fuel n acc).
Proof.
  induction fuel as [|fuel IH]; intros n acc Hacc; [exact Hacc|].
  cbn [to_string_from].
  assert (Hd : string_all (fun c => is_digit c = true)
                 (String (digit_char (n mod 10)) acc)).
  { split; [|exact Hacc]. apply is_digit_char. apply N.mod_lt. lia. }
  destruct (n / 10 =? 0); [exact Hd|apply IH, Hd].
Qed.

Lemma to_string_from_nonempty (fuel : nat) :
  forall n acc, acc <> EmptyString -> to_string_from fuel n acc <> EmptyString.
Proof.
  induction fuel as [|fuel IH]; intros n acc Hacc; [exact Hacc|].
  cbn [to_string_from]. destruct (n / 10 =? 0); [discriminate|].
  apply IH. discriminate.
Qed.

(** [to_string] writes a token: at least one character, and digits only;
    it is read back as the number written. *)
Lemma to_string_token (n : N) : token (to_string n) /\ decimal (to_string n) = n.
Proof.
  split; [split|apply to_string_decimal].
  - unfold to_string. cbn [to_string_from]. destruct (n / 10 =? 0); [discriminate|].
    apply to_string_from_nonempty. discriminate.
  - unfold to_string. apply to_string_from_digits. exact I.
Qed.

(** A token starts with a digit. *)
Lemma token_head (t : string) :
  token t ->
  exists c d, t = String c d /\ is_digit c = true /\
              string_all (fun c => is_digit c = true) d.
Proof.
  intros [Hne Hall]. destruct t as [|c d]; [contradiction|].
  destruct Hall as [Hc Hd]. eauto.
Qed.

Lemma span_digits_run (run tail : string) :
  string_all (fun c => is_digit c = true) run -> stops is_digit tail ->
  span_digits (run ++ tail) = (run, tail).
Proof.
  intros Hall Hstop. induction run as [|c run IH].
  - destruct tail as [|c tail]; simpl in *; [reflexivity|now rewrite Hstop].
  - destruct Hall as [Hc Hall]. cbn [append span_digits]. rewrite Hc, (IH Hall).
    reflexivity.
Qed.

Lemma skip_spaces_run (run tail : string) :
  string_all (fun c => is_space c = true) run -> stops is_space tail ->
  skip_spaces (run ++ tail) = tail.
Proof.
  intros Hall Hstop. induction run as [|c run IH].
  - destruct tail as [|c tail]; simpl in *; [reflexivity|now rewrite Hstop].
  - destruct Hall as [Hc Hall]. cbn [append skip_spaces]. rewrite Hc. exact (IH Hall).
Qed.

Lemma space_not_digit (c : ascii) : is_space c = true -> is_digit c = false.
Proof.
  intros H. destruct (is_digit c) eqn:E; [|reflexivity].
  apply digit_not_space in E. congruence.
Qed.

Lemma stops_digit_separator (sep tail : string) :
  separator sep -> stops is_digit (sep ++ tail).
Proof.
  intros [Hne Hall]. destruct sep as [|c sep]; [contradiction|].
  destruct Hall as [Hc _]. simpl. apply space_not_digit, Hc.
Qed.

Lemma section_text_cons (t sep : string) (ts : list (string * string)) :
  section_text ((t, sep) :: ts) = (t ++ sep ++ section_text ts)%string.
Proof. unfold section_text. cbn [map concat_items fold_right fst snd]. apply append_assoc. Qed.

(** The start of the text of a section is not white space. *)
Lemma stops_space_section (ts : list (string * string)) (tail : string) :
  Forall (fun w => token (fst w) /\ separator (snd w)) ts ->
  stops is_space tail -> stops is_space (section_text ts ++ tail).
Proof.
  intros Hts Ht. destruct Hts as [|[t sep] ts [Htok _] _]; [exact Ht|].
  rewrite section_text_cons.
  destruct (token_head t Htok) as (c & d & -> & Hc & _). simpl.
  apply digit_not_space, Hc.
Qed.

(** Extracting a number that does not fit [distance_t]: the largest
    distance is stored and the stream fails. *)
Lemma extract_overflow (distance_max : N) (s s0 d s' : string) (cv : option N) :
  skip_spaces s = s0 -> s0 <> EmptyString ->
  span_digits s0 = (d, s') -> d <> EmptyString ->
  distance_max < decimal d ->
  extract (get_unsigned distance_max) {| rest := s; failed := false |} cv =
    ({| rest := s'; failed := true |}, Some distance_max).
Proof.
  intros Hs Hs0 Hspan Hd Hgt. unfold extract. cbn [failed rest].
  rewrite Hs. destruct s0 as [|c s0]; [contradiction|].
  unfold get_unsigned. rewrite Hspan. destruct d as [|c' d]; [contradiction|].
  apply N.leb_gt in Hgt. rewrite Hgt. reflexivity.
Qed.

(** The stream over the text of a section yields the values of its tokens,
    and nothing more. *)
Lemma section_text_yields (distance_max : N) (ts : list (string * string)) :
  Forall (fun w => token (fst w) /\ separator (snd w)) ts ->
  forall pre,
    string_all (fun c => is_space c = true) pre ->
    yields_all distance_max
      {| rest := pre ++ section_text ts; failed := false |}
      (token_values distance_max (map fst ts)).
Proof.
  induction 1 as [|[t sep] ts [Htok Hsep] Hts IH]; intros pre Hpre.
  - right. cbn [rest]. unfold section_text. cbn [map concat_items fold_right].
    now apply skip_spaces_run.
  - cbn [map fst token_values]. cbn [fst snd] in Htok, Hsep.
    rewrite section_text_cons.
    destruct (token_head t Htok) as (c & d & E & Hc & Hd).
    assert (Hskip : skip_spaces (pre ++ t ++ sep ++ section_text ts)
                    = (t ++ sep ++ section_text ts)%string).
    { apply skip_spaces_run; [exact Hpre|].
      rewrite E. simpl. apply digit_not_space, Hc. }
    assert (Hspan : span_digits (t ++ sep ++ section_text ts)
                    = (t, (sep ++ section_text ts)%string)).
    { apply span_digits_run; [apply Htok|apply stops_digit_separator, Hsep]. }
    assert (Hne : (t ++ sep ++ section_text ts)%string <> EmptyString)
      by (rewrite E; discriminate).
    destruct (N.leb_spec (decimal t) distance_max) as [Hle|Hgt].
    + exists {| rest := sep ++ section_text ts; failed := false |}. split.
      * intros cv.
        exact (extract_number distance_max _ _ t _ (decimal t) cv Hskip Hne Hspan
                 (proj1 Htok) eq_refl Hle).
      * apply IH. apply Hsep.
    + exists {| rest := sep ++ section_text ts; failed := true |}. split.
      * intros cv.
        exact (extract_overflow distance_max _ _ t _ cv Hskip Hne Hspan
                 (proj1 Htok) Hgt).
      * left. reflexivity.
Qed.

(** The expression of the data section takes the text of a section
    whole. *)
Lemma takes_section (ts : list (string * string)) (tail : string) :
  ts <> [] ->
  Forall (fun w => token (fst w) /\ separator (snd w)) ts ->
  ends_section tail ->
  takes (group1 ews_rgx) (section_text ts) tail.
Proof.
  intros Hne Hts [Htd Hsp].
  set (item := Cat digits (Plus (Cls is_space))).
  assert (Hitem : forall t sep rest,
    token t -> separator sep -> stops is_space rest ->
    takes item (t ++ sep) rest).
  { intros t sep rest Htok [Hsn Hsa] Hrest.
    destruct (token_head t Htok) as (c & d & E & Hc & Hd).
    destruct sep as [|w sep]; [contradiction|]. destruct Hsa as [Hw Hsa].
    apply takes_cat.
    - rewrite E. apply takes_plus_cls; [exact Hc|exact Hd|].
      simpl. apply space_not_digit, Hw.
    - apply takes_plus_cls; assumption. }
  assert (Hfail : fails item tail).
  { apply fails_cat. unfold digits, Plus. apply fails_cat, fails_cls, Htd. }
  assert (Hitems : forall l,
    Forall (fun w => token (fst w) /\ separator (snd w)) l ->
    items_taken item (map (fun w => fst w ++ snd w) l) tail).
  { induction 1 as [|[t sep] l [Htok Hsep] Hl IH]; [exact I|].
    cbn [map items_taken fst snd]. cbn [fst snd] in Htok, Hsep.
    split; [|split].
    - destruct (token_head t Htok) as (c & d & -> & _). discriminate.
    - apply Hitem; [exact Htok|exact Hsep|].
      exact (stops_space_section l tail Hl Hsp).
    - exact IH. }
  destruct ts as [|[t sep] ts]; [contradiction|].
  apply Forall_cons in Hts as [[Htok Hsep] Hts]. cbn [fst snd] in Htok, Hsep.
  change (group1 ews_rgx) with (Cat item (Star item)).
  unfold section_text. cbn [map concat_items fold_right fst snd].
  apply takes_cat.
  - apply Hitem; [exact Htok|exact Hsep|].
    exact (stops_space_section ts tail Hts Hsp).
  - apply takes_star; [exact Hfail|apply Hitems, Hts].
Qed.

(** ** The header of a text *)

(** A key, a colon and a value, as the header expressions read them. *)
Lemma match_key_value (p : pattern) (key sp1 sp2 value : string) (w : ascii)
    (rest : string) :
  before p = Cat (Lit key) (Cat spaces (Cat (Chr ":") spaces)) ->
  after p = Cls is_space ->
  string_all (fun c => is_space c = true) sp1 ->
  string_all (fun c => is_space c = true) sp2 ->
  stops is_space (value ++ String w rest) ->
  takes (group1 p) value (String w rest) ->
  is_space w = true ->
  match_here p ((key ++ sp1 ++ ":" ++ sp2) ++ value ++ String w rest) = Some value.
Proof.
  intros Hb Ha H1 H2 Hv Hg Hw.
  apply (match_here_takes p (key ++ sp1 ++ ":" ++ sp2) value
           (String w EmptyString) rest).
  - rewrite Hb. apply takes_cat; [apply takes_lit|].
    apply takes_cat; [apply takes_star_cls; [exact H1|reflexivity]|].
    apply (takes_cat (Chr ":") spaces (String ":" EmptyString) sp2);
      [apply takes_chr|].
    apply takes_star_cls; [exact H2|exact Hv].
  - exact Hg.
  - rewrite Ha. apply takes_cls. exact Hw.
Qed.

Lemma digits_not_char (c0 : ascii) (run : string) :
  is_digit c0 = false ->
  string_all (fun c => is_digit c = true) run ->
  string_all (fun c => Ascii.eqb c0 c = false) run.
Proof.
  intros H0. induction run as [|c run IH]; [auto|]. intros [Hc Hrun].
  split; [|apply IH, Hrun].
  destruct (Ascii.eqb_spec c0 c) as [->|]; [congruence|reflexivity].
Qed.

(** The search for a keyword that starts with a letter goes over a
    token. *)
Lemma skippable_token (c0 : ascii) (key t : string) :
  is_digit c0 = false -> token t -> skippable (String c0 key) t = true.
Proof.
  intros H0 [_ Hall]. apply skippable_run, digits_not_char; assumption.
Qed.

(** The dimension of a text whose first DIMENSION key is followed by the
    token [d]. *)
Lemma search_dimension (pre sp1 sp2 d : string) (w : ascii) (rest : string) :
  skippable "DIMENSION" pre = true ->
  string_all (fun c => is_space c = true) sp1 ->
  string_all (fun c => is_space c = true) sp2 ->
  token d ->
  is_space w = true ->
  regex_search dim_rgx (pre ++ ("DIMENSION" ++ sp1 ++ ":" ++ sp2) ++ d ++ String w rest)
    = Some d.
Proof.
  intros Hpre H1 H2 Htok Hw.
  rewrite (regex_search_skip dim_rgx "DIMENSION" _ pre _ eq_refl Hpre).
  apply regex_search_here.
  destruct (token_head d Htok) as (c & d' & -> & Hc & Hall).
  apply match_key_value; try assumption; try reflexivity.
  - simpl. apply digit_not_space, Hc.
  - apply takes_plus_cls; [exact Hc|exact Hall|]. simpl. apply space_not_digit, Hw.
Qed.

Lemma explicit_text_dimension (d : string) (ewf : EWF) (body tail : string) :
  token d ->
  regex_search dim_rgx (explicit_text d ewf body tail) = Some d.
Proof.
  intros Htok. unfold explicit_text.
  apply (search_dimension ("NAME: tsp" ++ nl ++ "TYPE: TSP" ++ nl) "" " " d lf).
  - reflexivity.
  - exact I.
  - simpl. auto.
  - exact Htok.
  - reflexivity.
Qed.

Lemma takes_uppers (c : ascii) (run tail : string) :
  is_upper c = true -> string_all (fun c => is_upper c = true) run ->
  stops is_upper tail -> takes uppers (String c run) tail.
Proof. apply takes_plus_cls. Qed.

Lemma explicit_text_type (d : string) (ewf : EWF) (body tail : string) :
  token d ->
  regex_search ewt_rgx (explicit_text d ewf body tail) = Some "EXPLICIT".
Proof.
  intros Htok. unfold explicit_text.
  rewrite (regex_search_skip ewt_rgx "EDGE_WEIGHT_TYPE" _ "NAME: tsp" _ eq_refl eq_refl).
  rewrite (regex_search_skip ewt_rgx "EDGE_WEIGHT_TYPE" _ nl _ eq_refl eq_refl).
  rewrite (regex_search_skip ewt_rgx "EDGE_WEIGHT_TYPE" _ "TYPE: TSP" _ eq_refl eq_refl).
  rewrite (regex_search_skip ewt_rgx "EDGE_WEIGHT_TYPE" _ nl _ eq_refl eq_refl).
  rewrite (regex_search_skip ewt_rgx "EDGE_WEIGHT_TYPE" _ "DIMENSION: " _ eq_refl eq_refl).
  rewrite (regex_search_skip ewt_rgx "EDGE_WEIGHT_TYPE" _ d _ eq_refl
             (skippable_token "E" _ d eq_refl Htok)).
  rewrite (regex_search_skip ewt_rgx "EDGE_WEIGHT_TYPE" _ nl _ eq_refl eq_refl).
  apply regex_search_here.
  match goal with
  | |- match_here _ (_ ++ _ ++ ?rest) = _ =>
      apply (match_key_value ewt_rgx "EDGE_WEIGHT_TYPE" "" " " "EXPLICIT" lf rest)
  end; try reflexivity; try exact I.
  - simpl. auto.
  - apply (takes_cat uppers (Opt (Lit "_2D")) "EXPLICIT" "").
    + apply takes_uppers; [reflexivity| |reflexivity]. simpl. repeat split.
    + apply takes_opt_none. apply fails_cat, fails_chr. reflexivity.
Qed.

(** The expression of the format takes each of the four names. *)
Lemma takes_format (ewf : EWF) (rest : string) :
  ewf <> EWF_NONE ->
  takes (group1 ewf_rgx) (EWF_name ewf) (String lf rest).
Proof.
  intros Hne.
  set (part := Cat (Chr "_") uppers).
  change (group1 ewf_rgx) with (Cat uppers (Cat part (Opt part))).
  assert (Hnone : takes (Opt part) "" (String lf rest)).
  { apply takes_opt_none. apply fails_cat, fails_chr. reflexivity. }
  assert (Hpart : forall c run tail,
    is_upper c = true -> string_all (fun c => is_upper c = true) run ->
    stops is_upper tail -> takes part (String "_" (String c run)) tail).
  { intros c run tail Hc Hrun Htail.
    apply (takes_cat (Chr "_") uppers "_" (String c run)); [apply takes_chr|].
    apply takes_uppers; assumption. }
  destruct ewf; [contradiction| | | |].
  - apply (takes_cat uppers (Cat part (Opt part)) "FULL" "_MATRIX").
    + apply takes_uppers; [reflexivity| |reflexivity]. simpl. repeat split.
    + apply (takes_cat part (Opt part) "_MATRIX" ""); [|exact Hnone].
      apply Hpart; [reflexivity| |reflexivity]. simpl. repeat split.
  - apply (takes_cat uppers (Cat part (Opt part)) "UPPER" "_ROW").
    + apply takes_uppers; [reflexivity| |reflexivity]. simpl. repeat split.
    + apply (takes_cat part (Opt part) "_ROW" ""); [|exact Hnone].
      apply Hpart; [reflexivity| |reflexivity]. simpl. repeat split.
  - apply (takes_cat uppers (Cat part (Opt part)) "UPPER" "_DIAG_ROW").
    + apply takes_uppers; [reflexivity| |reflexivity]. simpl. repeat split.
    + apply (takes_cat part (Opt part) "_DIAG" "_ROW").
      * apply Hpart; [reflexivity| |reflexivity]. simpl. repeat split.
      * apply takes_opt_some. apply Hpart; [reflexivity| |reflexivity].
        simpl. repeat split.
  - apply (takes_cat uppers (Cat part (Opt part)) "LOWER" "_DIAG_ROW").
    + apply takes_uppers; [reflexivity| |reflexivity]. simpl. repeat split.
    + apply (takes_cat part (Opt part) "_DIAG" "_ROW").
      * apply Hpart; [reflexivity| |reflexivity]. simpl. repeat split.
      * apply takes_opt_some. apply Hpart; [reflexivity| |reflexivity].
        simpl. repeat split.
Qed.

Lemma explicit_text_format (d : string) (ewf : EWF) (body tail : string) :
  token d -> ewf <> EWF_NONE ->
  regex_search ewf_rgx (explicit_text d ewf body tail) = Some (EWF_name ewf).
Proof.
  intros Htok Hne. unfold explicit_text.
  rewrite (regex_search_skip ewf_rgx "EDGE_WEIGHT_FORMAT" _ "NAME: tsp" _ eq_refl eq_refl).
  rewrite (regex_search_skip ewf_rgx "EDGE_WEIGHT_FORMAT" _ nl _ eq_refl eq_refl).
  rewrite (regex_search_skip ewf_rgx "EDGE_WEIGHT_FORMAT" _ "TYPE: TSP" _ eq_refl eq_refl).
  rewrite (regex_search_skip ewf_rgx "EDGE_WEIGHT_FORMAT" _ nl _ eq_refl eq_refl).
  rewrite (regex_search_skip ewf_rgx "EDGE_WEIGHT_FORMAT" _ "DIMENSION: " _ eq_refl eq_refl).
  rewrite (regex_search_skip ewf_rgx "EDGE_WEIGHT_FORMAT" _ d _ eq_refl
             (skippable_token "E" _ d eq_refl Htok)).
  rewrite (regex_search_skip ewf_rgx "EDGE_WEIGHT_FORMAT" _ nl _ eq_refl eq_refl).
  rewrite (regex_search_skip ewf_rgx "EDGE_WEIGHT_FORMAT" _
             "EDGE_WEIGHT_TYPE: EXPLICIT" _ eq_refl eq_refl).
  rewrite (regex_search_skip ewf_rgx "EDGE_WEIGHT_FORMAT" _ nl _ eq_refl eq_refl).
  apply regex_search_here.
  match goal with
  | |- match_here _ (_ ++ _ ++ _ ++ ?rest) = _ =>
      apply (match_key_value ewf_rgx "EDGE_WEIGHT_FORMAT" "" " " (EWF_name ewf) lf rest)
  end; try reflexivity; try exact I.
  - simpl. auto.
  - destruct ewf; try contradiction; reflexivity.
  - apply takes_format, Hne.
Qed.

Lemma explicit_text_section (d : string) (ewf : EWF) (ts : list (string * string))
    (tail : string) :
  token d -> ewf <> EWF_NONE -> ts <> [] ->
  Forall (fun w => token (fst w) /\ separator (snd w)) ts ->
  ends_section tail ->
  regex_search ews_rgx (explicit_text d ewf (section_text ts) tail)
    = Some (section_text ts).
Proof.
  intros Htok Hne Hts Hall Htail. unfold explicit_text.
  rewrite (regex_search_skip ews_rgx "EDGE_WEIGHT_SECTION" _ "NAME: tsp" _ eq_refl eq_refl).
  rewrite (regex_search_skip ews_rgx "EDGE_WEIGHT_SECTION" _ nl _ eq_refl eq_refl).
  rewrite (regex_search_skip ews_rgx "EDGE_WEIGHT_SECTION" _ "TYPE: TSP" _ eq_refl eq_refl).
  rewrite (regex_search_skip ews_rgx "EDGE_WEIGHT_SECTION" _ nl _ eq_refl eq_refl).
  rewrite (regex_search_skip ews_rgx "EDGE_WEIGHT_SECTION" _ "DIMENSION: " _ eq_refl eq_refl).
  rewrite (regex_search_skip ews_rgx "EDGE_WEIGHT_SECTION" _ d _ eq_refl
             (skippable_token "E" _ d eq_refl Htok)).
  rewrite (regex_search_skip ews_rgx "EDGE_WEIGHT_SECTION" _ nl _ eq_refl eq_refl).
  rewrite (regex_search_skip ews_rgx "EDGE_WEIGHT_SECTION" _
             "EDGE_WEIGHT_TYPE: EXPLICIT" _ eq_refl eq_refl).
  rewrite (regex_search_skip ews_rgx "EDGE_WEIGHT_SECTION" _ nl _ eq_refl eq_refl).
  rewrite (regex_search_skip ews_rgx "EDGE_WEIGHT_SECTION" _
             "EDGE_WEIGHT_FORMAT: " _ eq_refl eq_refl).
  rewrite (regex_search_skip ews_rgx "EDGE_WEIGHT_SECTION" _ (EWF_name ewf) _ eq_refl)
    by (destruct ewf; try contradiction; reflexivity).
  rewrite (regex_search_skip ews_rgx "EDGE_WEIGHT_SECTION" _ nl _ eq_refl eq_refl).
  apply regex_search_here.
  apply (match_here_takes ews_rgx ("EDGE_WEIGHT_SECTION" ++ nl) (section_text ts)
           "" tail).
  - apply (takes_cat (Lit "EDGE_WEIGHT_SECTION") spaces "EDGE_WEIGHT_SECTION" nl);
      [apply takes_lit|].
    apply takes_star_cls; [simpl; auto|].
    apply (stops_space_section ts tail Hall). apply Htail.
  - apply takes_section; assumption.
  - apply takes_eps.
Qed.

(** [std::stoul] on digits whose number is a [std::size_t]. *)
Lemma stoul_digits (d : string) : decimal d <= SIZE_MAX -> stoul d = Ok (decimal d).
Proof. intros Hn. unfold stoul. apply N.leb_le in Hn. now rewrite Hn. Qed.

(** ** The instances of the further properties *)

(** A data section given token by token: each token is digits, each
    separator white space. *)
Ltac section_ok :=
  repeat constructor; try discriminate; simpl; auto.

Lemma diag3_load : load32 diag3_text = Ok diag3_loaded.
Proof. vm_compute. reflexivity. Qed.

Lemma diag3_yields :
  yields UINT32_MAX (istringstream_new (_data_section diag3_loaded))
    (token_values UINT32_MAX (map fst diag3_section)).
Proof.
  apply yields_all_yields.
  replace (istringstream_new (_data_section diag3_loaded))
    with {| rest := "" ++ section_text diag3_section; failed := false |}
    by (vm_compute; reflexivity).
  apply (section_text_yields UINT32_MAX diag3_section); [section_ok|exact I].
Qed.

Lemma short3_load : load32 short3_text = Ok short3_loaded.
Proof. vm_compute. reflexivity. Qed.

Lemma short3_yields_all :
  yields_all UINT32_MAX (istringstream_new (_data_section short3_loaded))
    (token_values UINT32_MAX (map fst short3_section)).
Proof.
  replace (istringstream_new (_data_section short3_loaded))
    with {| rest := "" ++ section_text short3_section; failed := false |}
    by (vm_compute; reflexivity).
  apply (section_text_yields UINT32_MAX short3_section); [section_ok|exact I].
Qed.

Lemma short2_load : load32 short2_text = Ok short2_loaded.
Proof. vm_compute. reflexivity. Qed.

Lemma short2_yields_all :
  yields_all UINT32_MAX (istringstream_new (_data_section short2_loaded))
    (token_values UINT32_MAX (map fst short2_section)).
Proof.
  replace (istringstream_new (_data_section short2_loaded))
    with {| rest := "" ++ section_text short2_section; failed := false |}
    by (vm_compute; reflexivity).
  apply (section_text_yields UINT32_MAX short2_section); [section_ok|exact I].
Qed.

(** ** The layouts, the route and the text of an instance *)

(** X15. The layout of the three mirrored formats. When the data section
    of a loaded UPPER_ROW, UPPER_DIAG_ROW or LOWER_DIAG_ROW instance yields
    at least the values the layout reads, [m[i][j]] and [m[j][i]], [i < j],
    hold the value of the place of the pair: in UPPER_ROW the rows of the
    upper triangle without the diagonal, in UPPER_DIAG_ROW the same rows
    with the diagonal, in LOWER_DIAG_ROW the rows of the lower triangle
    with the diagonal. The values read for the diagonal are dropped. *)
Theorem mirrored_layout
    (distance_max : N) (get_index : string -> N * bool * string)
    (get_double : string -> R * bool * string)
    (input : string) (ld : tsplib_loader) (vs : list N) (i j : N) :
  tsplib_loader_new distance_max get_index get_double input = Ok ld ->
  mirrored (_ewf ld) = true ->
  yields distance_max (istringstream_new (_data_section ld)) vs ->
  (mirrored_count (_ewf ld) (_dimension ld) <= length vs)%nat ->
  i < j -> j < _dimension ld ->
  exists v,
    vs !! mirrored_index (_ewf ld) (_dimension ld) i j = Some v /\
    matrix_get (get_matrix ld) i j = Ok v /\
    matrix_get (get_matrix ld) j i = Ok v.
Proof.
  intros Hload Hm Hy Hcount Hij Hj.
  destruct (loaded_format _ _ _ _ _ Hload) as (Hn & _).
  { destruct (_ewf ld); discriminate. }
  pose proof (loaded_mirrored_fill _ _ _ _ _ Hload Hm) as Hfill.
  pose proof (mirrored_index_bound _ _ _ _ Hm Hij Hj) as Hidx.
  destruct (lookup_lt_is_Some_2 vs (mirrored_index (_ewf ld) (_dimension ld) i j))
    as [v Hv]; [lia|].
  exists v. split; [exact Hv|].
  destruct (mirrored_fill_values distance_max (_dimension ld) (value_at 0 vs)
              (fun p d _ => yields distance_max d (drop p vs)) (length vs) Hn
              (fun p d c Hp Hd => yields_step distance_max vs p d c Hp Hd)
              (_ewf ld) _ _ _ Hm Hcount Hy Hfill i j Hij Hj) as [H1 H2].
  unfold value_at in H1, H2. rewrite Hv in H1, H2. auto.
Qed.

Lemma mirrored_layout_witness :
  exists v,
    [7; 10; 15; 8; 20; 9] !! mirrored_index UPPER_DIAG_ROW 3 1 2 = Some v /\
    matrix_get (get_matrix diag3_loaded) 1 2 = Ok v /\
    matrix_get (get_matrix diag3_loaded) 2 1 = Ok v.
Proof.
  apply (mirrored_layout UINT32_MAX get_index_decimal get_double_integral
           diag3_text diag3_loaded [7; 10; 15; 8; 20; 9] 1 2).
  - exact diag3_load.
  - reflexivity.
  - exact diag3_yields.
  - vm_compute. lia.
  - reflexivity.
  - reflexivity.
Defined.

(** X16. A data section that is too short for a mirrored layout: when the
    section yields the values [vs] and nothing more, the pairs whose place
    is beyond the last value all receive the last value, because a failed
    extraction leaves [current_value] as it is. The section holds at least
    one value. *)
Theorem short_section_repeats_last_value
    (distance_max : N) (get_index : string -> N * bool * string)
    (get_double : string -> R * bool * string)
    (input : string) (ld : tsplib_loader) (vs : list N) (i j : N) :
  tsplib_loader_new distance_max get_index get_double input = Ok ld ->
  mirrored (_ewf ld) = true ->
  yields_all distance_max (istringstream_new (_data_section ld)) vs ->
  i < j -> j < _dimension ld ->
  let v := value_at (default 0 (last vs)) vs
             (mirrored_index (_ewf ld) (_dimension ld) i j) in
  vs <> [] /\
  matrix_get (get_matrix ld) i j = Ok v /\
  matrix_get (get_matrix ld) j i = Ok v.
Proof.
  intros Hload Hm Hy Hij Hj v.
  destruct (loaded_format _ _ _ _ _ Hload) as (Hn & _ & Hds).
  { destruct (_ewf ld); discriminate. }
  assert (Hne : vs <> []).
  { intros ->. destruct (edge_weight_section_digit _ _ Hds) as (c & ds' & E & Hc).
    destruct Hy as [Hy|Hy]; [discriminate|].
    rewrite E in Hy. simpl in Hy. rewrite (digit_not_space c Hc) in Hy.
    discriminate. }
  split; [exact Hne|].
  pose proof (loaded_mirrored_fill _ _ _ _ _ Hload Hm) as Hfill.
  apply (mirrored_fill_values distance_max (_dimension ld)
           (value_at (default 0 (last vs)) vs)
           (fun p d c => yields_all distance_max d (drop p vs) /\
                         ((length vs <= p)%nat -> c = Some (default 0 (last vs))))
           (mirrored_count (_ewf ld) (_dimension ld)) Hn) with (ewf := _ewf ld)
           (data := istringstream_new (_data_section ld))
           (m := matrix_new (_dimension ld)); try assumption.
  - intros p d c _ [Hd Hc].
    destruct (yields_all_step distance_max vs p d c Hne Hd Hc) as (d' & Hex & Hd' & Hc').
    exists d'. auto.
  - lia.
  - split; [exact Hy|]. intros Hlen. destruct vs; [contradiction|simpl in Hlen; lia].
Qed.

Lemma short_section_repeats_last_value_witness :
  [10; 15] <> [] /\
  matrix_get (get_matrix short3_loaded) 1 2 = Ok 15 /\
  matrix_get (get_matrix short3_loaded) 2 1 = Ok 15.
Proof.
  apply (short_section_repeats_last_value UINT32_MAX get_index_decimal
           get_double_integral short3_text short3_loaded [10; 15] 1 2).
  - exact short3_load.
  - reflexivity.
  - exact short3_yields_all.
  - reflexivity.
  - reflexivity.
Defined.

(** X17. A FULL_MATRIX is read row by row into a matrix of zeros: when the
    data section yields the values [vs] and nothing more, [m[i][j]],
    [i <> j], holds the value of place [i * N + j], and 0 when the section
    has no such value, because a failed extraction leaves the entry as it
    is. *)
Theorem full_matrix_missing_values_are_zero
    (distance_max : N) (get_index : string -> N * bool * string)
    (get_double : string -> R * bool * string)
    (input : string) (ld : tsplib_loader) (vs : list N) (i j : N) :
  tsplib_loader_new distance_max get_index get_double input = Ok ld ->
  _ewf ld = FULL_MATRIX ->
  yields_all distance_max (istringstream_new (_data_section ld)) vs ->
  i < _dimension ld -> j < _dimension ld -> i <> j ->
  matrix_get (get_matrix ld) i j =
    Ok (value_at 0 vs (N.to_nat (i * _dimension ld + j))).
Proof.
  intros Hload Hf Hy.
  pose proof (loaded_explicit_fill _ _ _ _ _ Hload) as Hfill.
  rewrite Hf in Hfill. specialize (Hfill ltac:(discriminate)).
  exact (fill_full_matrix_values _ _ _ _ _ Hy Hfill i j).
Qed.

Lemma full_matrix_missing_values_are_zero_witness :
  matrix_get (get_matrix short2_loaded) 0 1 = Ok 2 /\
  matrix_get (get_matrix short2_loaded) 1 0 = Ok 3.
Proof.
  split.
  - apply (full_matrix_missing_values_are_zero UINT32_MAX get_index_decimal
             get_double_integral short2_text short2_loaded [1; 2; 3] 0 1);
      [exact short2_load|reflexivity|exact short2_yields_all
      |reflexivity|reflexivity|discriminate].
  - apply (full_matrix_missing_values_are_zero UINT32_MAX get_index_decimal
             get_double_integral short2_text short2_loaded [1; 2; 3] 1 0);
      [exact short2_load|reflexivity|exact short2_yields_all
      |reflexivity|reflexivity|discriminate].
Defined.

(** X18. UPPER_ROW with dimension 0: the bound [_dimension - 1] of the
    outer loop wraps to [2^64 - 1], every inner loop is empty because no
    [j] is below 0, nothing is read or written, and after its
    [2^64 - 1] rounds the constructor returns the empty matrix. *)
Theorem upper_row_dimension_zero
    (distance_max : N) (get_index : string -> N * bool * string)
    (get_double : string -> R * bool * string)
    (input : string) (ds : string) :
  parse_dimension input = Ok 0 ->
  parse_ewt input = Ok EXPLICIT ->
  parse_ewf EXPLICIT input = Ok UPPER_ROW ->
  parse_data_section EXPLICIT input = Ok ds ->
  size_sub 0 1 = SIZE_MAX /\
  tsplib_loader_new distance_max get_index get_double input =
    Ok {| _dimension := 0; _ewt := EXPLICIT; _ewf := UPPER_ROW;
          _data_section := ds; _matrix := []; _nodes := [] |}.
Proof.
  intros Hdim Hewt Hewf Hds. split; [reflexivity|].
  unfold tsplib_loader_new. rewrite Hdim, Hewt. cbn [bind].
  rewrite Hewf. cbn [bind]. rewrite Hds. cbn [bind].
  rewrite fill_upper_row_zero. reflexivity.
Qed.

Lemma upper_row_dimension_zero_witness :
  size_sub 0 1 = SIZE_MAX /\
  load32 upper0_text =
    Ok {| _dimension := 0; _ewt := EXPLICIT; _ewf := UPPER_ROW;
          _data_section := lines ["7"]; _matrix := []; _nodes := [] |}.
Proof.
  apply (upper_row_dimension_zero UINT32_MAX get_index_decimal get_double_integral
           upper0_text (lines ["7"])).
  - vm_compute. reflexivity.
  - vm_compute. reflexivity.
  - vm_compute. reflexivity.
  - vm_compute. reflexivity.
Defined.

(** X19. The matrix of a coordinate instance: for [i < j] below the
    dimension, [m[i][j]] and [m[j][i]] both hold the distance the function
    of the edge weight type gives for the nodes [i] and [j], in this order,
    the nodes numbered by their place in the section, not by the index
    written before their coordinates. *)
Theorem coordinate_matrix_entries
    (distance_max : N) (get_index : string -> N * bool * string)
    (get_double : string -> R * bool * string)
    (input : string) (ld : tsplib_loader) (i j : N) :
  tsplib_loader_new distance_max get_index get_double input = Ok ld ->
  _ewt ld <> EXPLICIT ->
  i < j -> j < _dimension ld ->
  exists ni nj v,
    _nodes ld !! N.to_nat i = Some ni /\ _nodes ld !! N.to_nat j = Some nj /\
    dist_f distance_max (_ewt ld) ni nj = Ok v /\
    matrix_get (get_matrix ld) i j = Ok v /\
    matrix_get (get_matrix ld) j i = Ok v.
Proof.
  intros Hload Hne Hij Hj.
  destruct (loaded_parts _ _ _ _ _ Hload) as (Hn & _).
  apply parse_dimension_bound in Hn.
  exact (fill_from_nodes_values _ _ _ _ _ _ Hn
           (loaded_coordinate_fill _ _ _ _ _ Hload Hne) i j Hij Hj).
Qed.

Lemma coordinate_matrix_entries_witness :
  exists ni nj v,
    _nodes att2_loaded !! N.to_nat 0 = Some ni /\
    _nodes att2_loaded !! N.to_nat 1 = Some nj /\
    dist_f UINT32_MAX (_ewt att2_loaded) ni nj = Ok v /\
    matrix_get (get_matrix att2_loaded) 0 1 = Ok v /\
    matrix_get (get_matrix att2_loaded) 1 0 = Ok v.
Proof.
  apply (coordinate_matrix_entries UINT32_MAX get_index_decimal
           get_double_integral att2_text att2_loaded 0 1).
  - exact att2_load.
  - discriminate.
  - reflexivity.
  - reflexivity.
Defined.

(** X20. The bounds of [get_route]. On a loaded EXPLICIT instance it
    returns for every tour, whatever the steps: they are not compared with
    the dimension. On a loaded coordinate instance it returns when every
    step is below the dimension, and a step that is not reads [_nodes]
    out of its bounds, which is undefined behaviour. *)
Theorem get_route_bounds
    (to_string_double : R -> string) (index_max : N)
    (distance_max : N) (get_index : string -> N * bool * string)
    (get_double : string -> R * bool * string)
    (input : string) (ld : tsplib_loader) (tour : list N) :
  tsplib_loader_new distance_max get_index get_double input = Ok ld ->
  (_ewt ld = EXPLICIT ->
   exists s, get_route to_string_double index_max ld tour = Ok s) /\
  (_ewt ld <> EXPLICIT ->
   (Exists (fun step => _dimension ld <= step) tour ->
    get_route to_string_double index_max ld tour = Undefined) /\
   (Forall (fun step => step < _dimension ld) tour ->
    exists s, get_route to_string_double index_max ld tour = Ok s)).
Proof.
  intros Hload. destruct (loaded_nodes _ _ _ _ _ Hload) as [Hnone Hnodes].
  split.
  - intros Hex. apply get_route_defined. rewrite Hex. discriminate.
  - intros Hne. specialize (Hnodes Hne). split.
    + intros Hbad. apply get_route_undefined.
      * destruct (_ewt ld); try reflexivity; contradiction.
      * eapply Exists_impl; [exact Hbad|]. intros step Hstep. simpl in Hstep. lia.
    + intros Hin. apply get_route_defined. intros _.
      eapply Forall_impl; [exact Hin|]. intros step Hstep. simpl in Hstep. lia.
Qed.

Lemma get_route_bounds_witness :
  get_route (fun _ => "_") UINT32_MAX att2_loaded [0; 2] = Undefined.
Proof.
  apply (get_route_bounds (fun _ => "_") UINT32_MAX UINT32_MAX get_index_decimal
           get_double_integral att2_text att2_loaded [0; 2]).
  - exact att2_load.
  - discriminate.
  - apply Exists_cons_tl, Exists_cons_hd. vm_compute. discriminate.
Defined.

(** X21. The first DIMENSION key gives the dimension. In a text where the
    keyword cannot start before it, DIMENSION followed by any white space,
    a colon, any white space, the digits [d] and a white space is read as
    the number [d] writes in base ten, whatever follows; when that number
    is above [2^64 - 1] the constructor throws [std::out_of_range], thrown
    by [std::stoul], not a [custom_exception]. *)
Theorem dimension_header
    (distance_max : N) (get_index : string -> N * bool * string)
    (get_double : string -> R * bool * string)
    (pre sp1 sp2 d : string) (w : ascii) (rest : string) :
  skippable "DIMENSION" pre = true ->
  string_all (fun c => is_space c = true) sp1 ->
  string_all (fun c => is_space c = true) sp2 ->
  d <> EmptyString -> string_all (fun c => is_digit c = true) d ->
  is_space w = true ->
  let input := pre ++ ("DIMENSION" ++ sp1 ++ ":" ++ sp2) ++ d ++ String w rest in
  (decimal d <= SIZE_MAX -> parse_dimension input = Ok (decimal d)) /\
  (SIZE_MAX < decimal d ->
   tsplib_loader_new distance_max get_index get_double input =
     Throw (out_of_range "stoul")).
Proof.
  intros Hpre H1 H2 Hd Hall Hw input.
  pose proof (search_dimension pre sp1 sp2 d w rest Hpre H1 H2 (conj Hd Hall) Hw) as Hs.
  fold input in Hs. split.
  - intros Hle. unfold parse_dimension, stoul. rewrite Hs.
    apply N.leb_le in Hle. now rewrite Hle.
  - intros Hgt. unfold tsplib_loader_new, parse_dimension, stoul. rewrite Hs.
    apply N.leb_gt in Hgt. now rewrite Hgt.
Qed.

Lemma dimension_header_witness :
  load32 huge_dimension_text = Throw (out_of_range "stoul").
Proof.
  apply (dimension_header UINT32_MAX get_index_decimal get_double_integral
           (lines ["NAME: x"]) "" " " "18446744073709551616" lf "").
  - reflexivity.
  - exact I.
  - simpl. auto.
  - discriminate.
  - simpl. repeat split.
  - reflexivity.
  - vm_compute. reflexivity.
Defined.

(** X22. A well-formed EXPLICIT file loads as the matrix it writes. Take
    a dimension written by the digits [d], whose number [n] is a
    [std::size_t], any of the four formats, and a data section of numbers
    written in digits (zeros in front allowed), each followed by white
    space, and followed by anything that starts with neither a digit nor
    white space. The text with the keys DIMENSION, EDGE_WEIGHT_TYPE,
    EDGE_WEIGHT_FORMAT and EDGE_WEIGHT_SECTION loads: the instance has the
    dimension [n], the format, the numbers as its data section, a square
    matrix with a zero diagonal, and off the diagonal [m[i][j]] is the value
    of its place in the format. The values are the numbers up to the first
    that is not a [distance_t], which counts as the largest [distance_t]
    and ends the reading; beyond the values a FULL_MATRIX holds zero and a
    mirrored layout the last value. *)
Theorem explicit_text_loads
    (distance_max : N) (get_index : string -> N * bool * string)
    (get_double : string -> R * bool * string)
    (d : string) (ewf : EWF) (ts : list (string * string)) (tail : string) :
  token d ->
  decimal d <= SIZE_MAX ->
  ewf <> EWF_NONE ->
  ts <> [] ->
  Forall (fun w => token (fst w) /\ separator (snd w)) ts ->
  ends_section tail ->
  let n := decimal d in
  let vs := token_values distance_max (map fst ts) in
  exists m,
    tsplib_loader_new distance_max get_index get_double
      (explicit_text d ewf (section_text ts) tail) =
      Ok {| _dimension := n; _ewt := EXPLICIT; _ewf := ewf;
            _data_section := section_text ts; _matrix := m; _nodes := [] |} /\
    square n m /\
    forall i j, i < n -> j < n ->
      matrix_get m i j = Ok (if i =? j then 0 else entry_value ewf n vs i j).
Proof.
  intros Hd Hn Hewf Hts Hall Htail n vs.
  assert (Hstart : skip_spaces (section_text ts) <> EmptyString).
  { destruct Hall as [|[t sep] ts' [Htok _] _]; [contradiction|].
    rewrite section_text_cons. cbn [fst] in Htok.
    destruct (token_head t Htok) as (c & t' & -> & Hc & _). simpl.
    rewrite (digit_not_space c Hc). discriminate. }
  destruct (explicit_fill_total distance_max n ewf (section_text ts) Hn Hewf Hstart)
    as (m & Hfill & Hsq).
  exists m.
  assert (Hload :
    tsplib_loader_new distance_max get_index get_double
      (explicit_text d ewf (section_text ts) tail) =
      Ok {| _dimension := n; _ewt := EXPLICIT; _ewf := ewf;
            _data_section := section_text ts; _matrix := m; _nodes := [] |}).
  { unfold tsplib_loader_new, parse_dimension, parse_ewt.
    rewrite (explicit_text_dimension d ewf _ tail Hd), (stoul_digits d Hn).
    cbn [bind].
    rewrite (explicit_text_type d ewf _ tail Hd).
    change (ewt_of_string "EXPLICIT") with EXPLICIT. cbn [bind parse_ewf].
    rewrite (explicit_text_format d ewf _ tail Hd Hewf), (ewf_of_string_name ewf Hewf).
    replace (match ewf with
             | EWF_NONE =>
                 Throw (custom_exception
                          ("unsupported " ++ quoted "EDGE_WEIGHT_FORMAT" ++ " value: "
                             ++ EWF_name ewf ++ "."))
             | _ => Ok ewf
             end) with (Ok ewf) by (destruct ewf; [contradiction|reflexivity..]).
    cbn [bind parse_data_section].
    rewrite (explicit_text_section d ewf ts tail Hd Hewf Hts Hall Htail). cbn [bind].
    fold n. destruct ewf; try contradiction; rewrite Hfill; reflexivity. }
  split; [exact Hload|]. split; [exact Hsq|].
  intros i j Hi Hj.
  destruct (loaded_matrix _ _ _ _ _ Hload) as (_ & Hdiag & _). simpl in Hdiag.
  destruct (N.eqb_spec i j) as [->|Hij]; [apply Hdiag, Hj|].
  pose proof (section_text_yields distance_max ts Hall "" I) as Hy.
  change {| rest := "" ++ section_text ts; failed := false |}
    with (istringstream_new (section_text ts)) in Hy.
  fold vs in Hy.
  assert (Hvs : vs <> []).
  { subst vs. destruct ts as [|[t sep] ts']; [contradiction|].
    cbn [map fst token_values]. destruct (decimal t <=? distance_max); discriminate. }
  assert (Hmir : mirrored ewf = true ->
    match ewf with
    | UPPER_ROW =>
        fill_upper_row distance_max n (istringstream_new (section_text ts))
          (matrix_new n)
    | UPPER_DIAG_ROW =>
        fill_upper_diag_row distance_max n (istringstream_new (section_text ts))
          (matrix_new n)
    | LOWER_DIAG_ROW =>
        fill_lower_diag_row distance_max n (istringstream_new (section_text ts))
          (matrix_new n)
    | _ => Undefined
    end = Ok m ->
    matrix_get m i j = Ok (entry_value ewf n vs i j)).
  { intros Hm Hf.
    pose proof (mirrored_fill_values distance_max n
                  (value_at (default 0 (last vs)) vs)
                  (fun p d c => yields_all distance_max d (drop p vs) /\
                                ((length vs <= p)%nat ->
                                 c = Some (default 0 (last vs))))
                  (mirrored_count ewf n) Hn) as Hval.
    assert (Hstep : forall p d c,
      (p < mirrored_count ewf n)%nat ->
      yields_all distance_max d (drop p vs) /\
      ((length vs <= p)%nat -> c = Some (default 0 (last vs))) ->
      exists d',
        extract (get_unsigned distance_max) d c =
          (d', Some (value_at (default 0 (last vs)) vs p)) /\
        yields_all distance_max d' (drop (S p) vs) /\
        ((length vs <= S p)%nat ->
         Some (value_at (default 0 (last vs)) vs p) =
           Some (default 0 (last vs)))).
    { intros p d0 c _ [Hd0 Hc].
      exact (yields_all_step distance_max vs p d0 c Hvs Hd0 Hc). }
    specialize (Hval Hstep ewf (istringstream_new (section_text ts)) (matrix_new n)
                  m Hm (Nat.le_refl _)).
    assert (H0 : yields_all distance_max (istringstream_new (section_text ts))
                   (drop 0 vs) /\
                 ((length vs <= 0)%nat ->
                  @None N = Some (default 0 (last vs)))).
    { split; [exact Hy|]. intros Hlen.
      destruct vs; [contradiction|simpl in Hlen; lia]. }
    specialize (Hval H0 Hf).
    assert (Hentry : entry_value ewf n vs i j =
                     value_at (default 0 (last vs)) vs
                       (mirrored_index ewf n (N.min i j) (N.max i j))).
    { destruct ewf; try discriminate; reflexivity. }
    rewrite Hentry.
    destruct (N.lt_ge_cases i j) as [Hlt|Hge].
    - rewrite N.min_l, N.max_r by lia. apply (Hval i j Hlt Hj).
    - rewrite N.min_r, N.max_l by lia. apply (Hval j i ltac:(lia) Hi). }
  destruct ewf; try contradiction.
  - exact (fill_full_matrix_values _ _ _ _ _ Hy Hfill i j Hi Hj Hij).
  - apply Hmir; [reflexivity|exact Hfill].
  - apply Hmir; [reflexivity|exact Hfill].
  - apply Hmir; [reflexivity|exact Hfill].
Qed.

Lemma explicit_text_loads_witness :
  exists m,
    load32 (explicit_text "2" FULL_MATRIX (section_text wide_section) "EOF") =
      Ok {| _dimension := 2; _ewt := EXPLICIT; _ewf := FULL_MATRIX;
            _data_section := section_text wide_section; _matrix := m;
            _nodes := [] |} /\
    square 2 m /\
    forall i j, i < 2 -> j < 2 ->
      matrix_get m i j =
        Ok (if i =? j then 0
            else entry_value FULL_MATRIX 2 [7; 1; UINT32_MAX] i j).
Proof.
  apply (explicit_text_loads UINT32_MAX get_index_decimal get_double_integral
           "2" FULL_MATRIX wide_section "EOF").
  - split; [discriminate|simpl; auto].
  - vm_compute. discriminate.
  - discriminate.
  - discriminate.
  - section_ok.
  - split; reflexivity.
Defined.
